(** * Plugin cache manager of deno-tools ([format/mod.ts], [format/dprint-helpers.ts])

    A shallow embedding of the lock-file store ([_getLockObject],
    [writeLockFile]), of plugin resolution ([loadFormatterFromUrl]) and of the
    cache reaper ([cleanCacheDir]), together with the parts of the JavaScript
    platform they run on: JSON text, the cache directory, the network; and of
    their caller, [getFormatters] and [main] with its formatting loop.

    Conventions.
    - A JavaScript string is represented by the bytes of its UTF-8 encoding
      (a Rocq [string]).  [TextEncoder.encode] is then the identity on bytes
      and [TextDecoder.decode] only strips a leading byte-order mark.  JSON
      syntax is ASCII, so quoting and parsing act on these bytes exactly as
      they act on code points of well-formed text.
    - A JSON number is kept as its lexeme: no property below depends on the
      numeric value.
    - A path is the pair of a directory and the name of an entry in it; the
      file system maps each existing directory to its entries, and the
      network maps each URL that answers to its response.
    - An [async] function is run to completion: one call is one state
      transformer, calls follow one another, and promises that the source
      does not await ([Deno.writeFile], [Deno.remove]) take effect at the
      point where they are issued.
    - Every operation on the file system, the network and the console, and
      every instantiation of a module, is recorded in a trace. *)

From Stdlib Require Import String Ascii List ZArith NArith Lia Bool DecimalString.
From Stdlib.Strings Require Import Byte.
From stdpp Require Import base option list gmap strings.

Set Warnings "-register-all".

Local Open Scope string_scope.
Local Open Scope list_scope.

(** ** Characters *)

Definition LF : ascii := "010"%char.
Definition DQUOTE : ascii := "034"%char.
Definition BACKSLASH : ascii := "092"%char.
Definition SLASH : ascii := "/"%char.

Definition str1 (c : ascii) : string := String c EmptyString.

Fixpoint join_with (sep : string) (parts : list string) : string :=
  match parts with
  | [] => EmptyString
  | [p] => p
  | p :: rest => p +:+ sep +:+ join_with sep rest
  end.

(** ** JavaScript values that JSON text denotes *)

(** [JArray elems extra]: an array with its elements and the own properties
    that are not indices ([extra]); [JSON.parse] yields arrays without such
    properties, an assignment [a[key] = v] with a non-index key adds one. *)
Inductive json : Type :=
| JNull
| JBool (b : bool)
| JNumber (lexeme : string)
| JString (s : string)
| JArray (elems : list json) (extra : list (string * json))
| JObject (props : list (string * json)).

(** The own properties of an object are a list of keys and values in
    property order, with distinct keys.  (JavaScript lists the keys that are
    array indices first; no URL is one.) *)
Fixpoint assoc_get {A} (k : string) (l : list (string * A)) : option A :=
  match l with
  | [] => None
  | (k', v) :: rest => if decide (k = k') then Some v else assoc_get k rest
  end.

(** [o[k] = v]: an existing key keeps its place, a new key goes last. *)
Fixpoint assoc_set {A} (k : string) (v : A) (l : list (string * A)) : list (string * A) :=
  match l with
  | [] => [(k, v)]
  | (k', v') :: rest =>
      if decide (k = k') then (k, v) :: rest else (k', v') :: assoc_set k v rest
  end.

(** [delete o[k]] *)
Fixpoint assoc_delete {A} (k : string) (l : list (string * A)) : list (string * A) :=
  match l with
  | [] => []
  | (k', v') :: rest =>
      if decide (k = k') then rest else (k', v') :: assoc_delete k rest
  end.

(** ** [JSON.stringify(value, undefined, 4)] *)

Definition hex_digit (n : N) : ascii :=
  match n with
  | 0 => "0" | 1 => "1" | 2 => "2" | 3 => "3" | 4 => "4" | 5 => "5"
  | 6 => "6" | 7 => "7" | 8 => "8" | 9 => "9" | 10 => "a" | 11 => "b"
  | 12 => "c" | 13 => "d" | 14 => "e" | _ => "f"
  end%N%char.

(** QuoteJSONString, one character: the two-character escapes, [\u00XX] for
    the other control characters, everything else unchanged. *)
Definition quote_char (c : ascii) : string :=
  let n := N_of_ascii c in
  if (n =? 8)%N then String BACKSLASH "b"
  else if (n =? 9)%N then String BACKSLASH "t"
  else if (n =? 10)%N then String BACKSLASH "n"
  else if (n =? 12)%N then String BACKSLASH "f"
  else if (n =? 13)%N then String BACKSLASH "r"
  else if (n =? 34)%N then String BACKSLASH (str1 DQUOTE)
  else if (n =? 92)%N then String BACKSLASH (str1 BACKSLASH)
  else if (n <? 32)%N then
    String BACKSLASH
      (String "u" (String "0" (String "0"
         (String (hex_digit (n / 16)) (str1 (hex_digit (n mod 16)))))))
  else str1 c.

Fixpoint quote_body (s : string) : string :=
  match s with
  | EmptyString => EmptyString
  | String c rest => quote_char c +:+ quote_body rest
  end.

Definition QuoteJSONString (s : string) : string :=
  String DQUOTE (quote_body s +:+ str1 DQUOTE).

Definition gap : string := "    ".

(** SerializeJSONProperty with a four-space gap; [indent] is the current
    indentation.  Extra (non-index) properties of an array are not
    serialized. *)
Fixpoint serialize (indent : string) (v : json) : string :=
  match v with
  | JNull => "null"
  | JBool true => "true"
  | JBool false => "false"
  | JNumber lexeme => lexeme
  | JString s => QuoteJSONString s
  | JArray elems _ =>
      match elems with
      | [] => "[]"
      | _ =>
          let inner := indent +:+ gap in
          "[" +:+ str1 LF +:+ inner
            +:+ join_with ("," +:+ str1 LF +:+ inner) (map (serialize inner) elems)
            +:+ str1 LF +:+ indent +:+ "]"
      end
  | JObject props =>
      match props with
      | [] => "{}"
      | _ =>
          let inner := indent +:+ gap in
          "{" +:+ str1 LF +:+ inner
            +:+ join_with ("," +:+ str1 LF +:+ inner)
                  (map (fun kv => QuoteJSONString (fst kv) +:+ ": "
                                    +:+ serialize inner (snd kv)) props)
            +:+ str1 LF +:+ indent +:+ "}"
      end
  end.

Definition JSON_stringify (v : json) : string := serialize EmptyString v.

(** ** [JSON.parse] *)

Definition is_ws (c : ascii) : bool :=
  let n := N_of_ascii c in
  ((n =? 32) || (n =? 9) || (n =? 10) || (n =? 13))%N.

Fixpoint skip_ws (s : string) : string :=
  match s with
  | String c rest => if is_ws c then skip_ws rest else s
  | EmptyString => s
  end.

Definition hex_value (c : ascii) : option N :=
  let n := N_of_ascii c in
  if ((48 <=? n) && (n <=? 57))%N then Some (n - 48)%N
  else if ((97 <=? n) && (n <=? 102))%N then Some (n - 87)%N
  else if ((65 <=? n) && (n <=? 70))%N then Some (n - 55)%N
  else None.

(** UTF-8 bytes of the code unit written [\uXXXX]; each escape is encoded on
    its own (an escaped surrogate pair is not merged into one code point). *)
Definition utf8_of_code_unit (u : N) : string :=
  if (u <? 128)%N then str1 (ascii_of_N u)
  else if (u <? 2048)%N then
    String (ascii_of_N (192 + u / 64)) (str1 (ascii_of_N (128 + u mod 64)))
  else
    String (ascii_of_N (224 + u / 4096))
      (String (ascii_of_N (128 + (u / 64) mod 64))
         (str1 (ascii_of_N (128 + u mod 64)))).

(** The characters of a string literal after its opening quote: the decoded
    contents and the text after the closing quote. *)
Fixpoint parse_string_body (s : string) : option (string * string) :=
  match s with
  | EmptyString => None
  | String c rest =>
      if Ascii.eqb c DQUOTE then Some (EmptyString, rest)
      else if Ascii.eqb c BACKSLASH then
        match rest with
        | String e rest' =>
            let simple (d : ascii) :=
              match parse_string_body rest' with
              | Some (t, r) => Some (String d t, r)
              | None => None
              end in
            if Ascii.eqb e DQUOTE then simple DQUOTE
            else if Ascii.eqb e BACKSLASH then simple BACKSLASH
            else if Ascii.eqb e "/" then simple "/"%char
            else if Ascii.eqb e "b" then simple "008"%char
            else if Ascii.eqb e "f" then simple "012"%char
            else if Ascii.eqb e "n" then simple "010"%char
            else if Ascii.eqb e "r" then simple "013"%char
            else if Ascii.eqb e "t" then simple "009"%char
            else if Ascii.eqb e "u" then
              match rest' with
              | String h1 (String h2 (String h3 (String h4 rest''))) =>
                  match hex_value h1, hex_value h2, hex_value h3, hex_value h4 with
                  | Some a, Some b, Some c', Some d =>
                      match parse_string_body rest'' with
                      | Some (t, r) =>
                          Some (utf8_of_code_unit (a * 4096 + b * 256 + c' * 16 + d)%N +:+ t, r)
                      | None => None
                      end
                  | _, _, _, _ => None
                  end
              | _ => None
              end
            else None
        | EmptyString => None
        end
      else if (N_of_ascii c <? 32)%N then None
      else
        match parse_string_body rest with
        | Some (t, r) => Some (String c t, r)
        | None => None
        end
  end.

Definition is_digit (c : ascii) : bool :=
  let n := N_of_ascii c in ((48 <=? n) && (n <=? 57))%N.

(** The longest prefix of digits, and the rest. *)
Fixpoint take_digits (s : string) : string * string :=
  match s with
  | String c rest =>
      if is_digit c then
        let '(ds, r) := take_digits rest in (String c ds, r)
      else (EmptyString, s)
  | EmptyString => (EmptyString, s)
  end.

(** [int frac? exp?] after an optional minus sign. *)
Definition parse_number (s : string) : option (string * string) :=
  let '(sign, s1) :=
    match s with
    | String "-" r => ("-", r)
    | _ => (EmptyString, s)
    end in
  let '(int, s2) := take_digits s1 in
  match int with
  | EmptyString => None
  | String "0" (String _ _) => None
  | _ =>
      let frac :=
        match s2 with
        | String "." r =>
            let '(ds, r') := take_digits r in
            match ds with
            | EmptyString => None
            | _ => Some ("." +:+ ds, r')
            end
        | _ => Some (EmptyString, s2)
        end in
      match frac with
      | None => None
      | Some (f, s3) =>
          let exp :=
            match s3 with
            | String e r =>
                if Ascii.eqb e "e" || Ascii.eqb e "E" then
                  let '(sg, r1) :=
                    match r with
                    | String "+" r1 => ("+", r1)
                    | String "-" r1 => ("-", r1)
                    | _ => (EmptyString, r)
                    end in
                  let '(ds, r2) := take_digits r1 in
                  match ds with
                  | EmptyString => None
                  | _ => Some (str1 e +:+ sg +:+ ds, r2)
                  end
                else Some (EmptyString, s3)
            | EmptyString => Some (EmptyString, s3)
            end in
          match exp with
          | None => None
          | Some (x, s4) => Some (sign +:+ int +:+ f +:+ x, s4)
          end
      end
  end.

Fixpoint strip_prefix (p s : string) : option string :=
  match p, s with
  | EmptyString, _ => Some s
  | String a p', String b s' => if Ascii.eqb a b then strip_prefix p' s' else None
  | String _ _, EmptyString => None
  end.

(** CreateDataProperty for every member in turn: a repeated key keeps its
    first position and takes its last value. *)
Definition object_of_members (ms : list (string * json)) : list (string * json) :=
  fold_left (fun acc kv => assoc_set (fst kv) (snd kv) acc) ms [].

(** A JSON value at the head of [s], and the text after it.  Every recursive
    call comes after at least one consumed character, so a fuel above the
    length of the text is never exhausted. *)
Fixpoint parse_value (fuel : nat) (s : string) {struct fuel} : option (json * string) :=
  match fuel with
  | O => None
  | S fuel' =>
      match s with
      | EmptyString => None
      | String c rest =>
          if Ascii.eqb c "{" then
            match skip_ws rest with
            | String "}" r => Some (JObject [], r)
            | r =>
                match parse_members fuel' r with
                | Some (ms, r') => Some (JObject (object_of_members ms), r')
                | None => None
                end
            end
          else if Ascii.eqb c "[" then
            match skip_ws rest with
            | String "]" r => Some (JArray [] [], r)
            | r =>
                match parse_elements fuel' r with
                | Some (es, r') => Some (JArray es [], r')
                | None => None
                end
            end
          else if Ascii.eqb c DQUOTE then
            match parse_string_body rest with
            | Some (t, r) => Some (JString t, r)
            | None => None
            end
          else if Ascii.eqb c "t" then
            match strip_prefix "rue" rest with
            | Some r => Some (JBool true, r)
            | None => None
            end
          else if Ascii.eqb c "f" then
            match strip_prefix "alse" rest with
            | Some r => Some (JBool false, r)
            | None => None
            end
          else if Ascii.eqb c "n" then
            match strip_prefix "ull" rest with
            | Some r => Some (JNull, r)
            | None => None
            end
          else
            match parse_number s with
            | Some (lexeme, r) => Some (JNumber lexeme, r)
            | None => None
            end
      end
  end

(** Members of an object from the first key on, up to and with the closing
    brace. *)
with parse_members (fuel : nat) (s : string) {struct fuel}
  : option (list (string * json) * string) :=
  match fuel with
  | O => None
  | S fuel' =>
      match s with
      | String c rest =>
          if Ascii.eqb c DQUOTE then
            match parse_string_body rest with
            | Some (k, r1) =>
                match skip_ws r1 with
                | String ":" r2 =>
                    match parse_value fuel' (skip_ws r2) with
                    | Some (v, r3) =>
                        match skip_ws r3 with
                        | String "," r4 =>
                            match parse_members fuel' (skip_ws r4) with
                            | Some (ms, r5) => Some ((k, v) :: ms, r5)
                            | None => None
                            end
                        | String "}" r4 => Some ([(k, v)], r4)
                        | _ => None
                        end
                    | None => None
                    end
                | _ => None
                end
            | None => None
            end
          else None
      | EmptyString => None
      end
  end

(** Elements of an array from the first one on, up to and with the closing
    bracket. *)
with parse_elements (fuel : nat) (s : string) {struct fuel}
  : option (list json * string) :=
  match fuel with
  | O => None
  | S fuel' =>
      match parse_value fuel' s with
      | Some (v, r1) =>
          match skip_ws r1 with
          | String "," r2 =>
              match parse_elements fuel' (skip_ws r2) with
              | Some (es, r3) => Some (v :: es, r3)
              | None => None
              end
          | String "]" r2 => Some ([v], r2)
          | _ => None
          end
      | None => None
      end
  end.

(** [JSON.parse text]: [None] stands for the [SyntaxError]. *)
Definition JSON_parse (text : string) : option json :=
  match parse_value (S (String.length text)) (skip_ws text) with
  | Some (v, r) =>
      match skip_ws r with
      | EmptyString => Some v
      | _ => None
      end
  | None => None
  end.

(** ** Text codecs *)

(** [new TextEncoder().encode(text)] *)
Definition TextEncoder_encode (text : string) : list byte :=
  list_byte_of_string text.

(** [new TextDecoder("utf-8").decode(bytes)]: a leading byte-order mark is
    dropped. *)
Definition TextDecoder_decode (bytes : list byte) : string :=
  match bytes with
  | xef :: xbb :: xbf :: rest => string_of_list_byte rest
  | _ => string_of_list_byte bytes
  end.

(** ** [posix.basename] of std/path *)

Definition is_slash (c : ascii) : bool := Ascii.eqb c SLASH.

Fixpoint drop_slashes (l : list ascii) : list ascii :=
  match l with
  | c :: rest => if is_slash c then drop_slashes rest else l
  | [] => []
  end.

Fixpoint take_component (l : list ascii) : list ascii :=
  match l with
  | c :: rest => if is_slash c then [] else c :: take_component rest
  | [] => []
  end.

(** The scan runs from the end of the path: separators at the end are
    skipped, then characters are taken up to the next separator. *)
Definition posix_basename (path : string) : string :=
  string_of_list_ascii
    (rev (take_component (drop_slashes (rev (list_ascii_of_string path))))).

(** ** Exceptions and results *)

(** Failures of a file operation. *)
Inductive io_error : Type :=
| NotFound                            (* Deno.errors.NotFound *)
| PermissionDenied                    (* Deno.errors.PermissionDenied *)
| IOFailure (message : string).       (* any other failure *)

Inductive Exception : Type :=
| Deno (e : io_error)
| NetworkError                        (* fetch rejects *)
| SyntaxError                         (* JSON.parse *)
| TypeError                           (* new URL, property access on null, ... *)
| CompileError                        (* createFromBuffer rejects the module *)
| FormatError                         (* Formatter.formatText fails *)
| LockFileParseError (message : string)
| JsError (message : string).         (* Error(message) *)

Inductive Result (A : Type) : Type :=
| Ok (a : A)
| Throw (e : Exception).
Arguments Ok {A} a.
Arguments Throw {A} e.

(** ** typanion validators ([t.isString], [t.isLiteral], [t.isArray],
       [t.isObject]) on a value that may be [undefined] ([None]) *)

Definition Validator : Type := option json → bool.

Definition t_isString : Validator :=
  fun v => match v with Some (JString _) => true | _ => false end.

Definition index_key (i : nat) : string := NilEmpty.string_of_uint (Nat.to_uint i).

Definition indexed {A} (l : list A) : list (string * A) :=
  imap (fun i x => (index_key i, x)) l.

Definition chars_of (s : string) : list json :=
  map (fun c => JString (str1 c)) (list_ascii_of_string s).

(** [Object.entries(value)]: own enumerable string-keyed properties.
    [null] has none to list: TypeError. *)
Definition Object_entries (value : json) : Result (list (string * json)) :=
  match value with
  | JNull => Throw TypeError
  | JBool _ | JNumber _ => Ok []
  | JString s => Ok (indexed (chars_of s))
  | JArray elems extra => Ok (indexed elems ++ extra)
  | JObject props => Ok props
  end.

(** [t.isObject(spec)] without an [extra] validator.  The keys of the spec
    and of the value are visited; [constructor] and [__proto__] are refused,
    a key of the spec is checked by its validator on the own property of that
    name ([undefined] when absent), any other key is extraneous.  The loop
    stops at the first failure. *)
Definition t_isObject (spec : list (string * Validator)) : Validator :=
  fun value =>
    match value with
    | Some ((JObject _ | JArray _ _) as o) =>
        match Object_entries o with
        | Ok own =>
            forallb
              (fun key =>
                 if decide (key = "constructor" ∨ key = "__proto__") then false
                 else match assoc_get key spec with
                      | Some check => check (assoc_get key own)
                      | None => false
                      end)
              (map fst spec ++ map fst own)
        | Throw _ => false
        end
    | _ => false
    end.

Definition t_isArray (elem : Validator) : Validator :=
  fun value =>
    match value with
    | Some (JArray elems _) => forallb (fun e => elem (Some e)) elems
    | _ => false
    end.

(** ** The platform the module runs on *)

(** What the embedding takes from outside the repository:
    - [sha512_hex data]: [createHash("sha512").update(data).toString()];
    - [url_pathname url]: [new URL(url).pathname], [None] when the
      constructor throws;
    - [wasm_instantiable data]: whether [createFromBuffer(data)] returns;
    - [plugin_formatText wasm path text]: [formatText] of the formatter made
      from [wasm], [None] when it throws;
    - [number_is lexeme n]: whether the number written [lexeme] is [n]. *)
Class Platform : Type := {
  sha512_hex : list byte → string;
  url_pathname : string → option string;
  wasm_instantiable : list byte → bool;
  plugin_formatText : list byte → string → string → option string;
  number_is : string → Z → bool;
}.

Definition t_isLiteral `{Platform} (n : Z) : Validator :=
  fun v => match v with Some (JNumber lexeme) => number_is lexeme n | _ => false end.

(** ** [dprint-helpers.ts]: constants and pure helpers *)

Definition LOCK_FILE_NAME : string := "plugin-lock.json".

Definition _isLockObjectEntry : Validator :=
  t_isObject [("fileName", t_isString); ("sha512", t_isString)].

Record _LockObjectEntry : Type := {
  fileName : string;
  sha512 : string;
}.

(** The entry as an object literal [{ fileName, sha512 }]. *)
Definition entry_object (e : _LockObjectEntry) : json :=
  JObject [("fileName", JString (fileName e)); ("sha512", JString (sha512 e))].

(** [o[k]] where the type guard has established a string. *)
Definition string_property (o : json) (k : string) : string :=
  match Object_entries o with
  | Ok own =>
      match assoc_get k own with
      | Some (JString s) => s
      | _ => EmptyString
      end
  | Throw _ => EmptyString
  end.

(** The narrowing that the type guard [_isLockObjectEntry] performs. *)
Definition as_lock_entry (v : option json) : option _LockObjectEntry :=
  match v with
  | Some o =>
      if _isLockObjectEntry v
      then Some {| fileName := string_property o "fileName";
                   sha512 := string_property o "sha512" |}
      else None
  | None => None
  end.

(** The loop of [_isValidLockObject]: [return false] at the first value that
    is not an entry. *)
Fixpoint all_lock_entries (entries : list (string * json)) : bool :=
  match entries with
  | [] => true
  | (_, value) :: rest =>
      if negb (_isLockObjectEntry (Some value)) then false
      else all_lock_entries rest
  end.

Definition _isValidLockObject (lockObject : json) : Result bool :=
  match Object_entries lockObject with
  | Ok entries => Ok (all_lock_entries entries)
  | Throw e => Throw e
  end.

Definition _urlToFileName `{Platform} (url : string) : Result string :=
  match url_pathname url with
  | Some pathname => Ok (posix_basename pathname)
  | None => Throw TypeError
  end.

Definition _hashSha512 `{Platform} (data : list byte) : string := sha512_hex data.

Record PluginInfo : Type := {
  pi_url : string;
  pi_configKey : string;
  pi_fileExtensions : list string;
}.

Definition isDprintPluginsInfo `{Platform} : Validator :=
  t_isObject
    [("schemaVersion", t_isLiteral 2);
     ("pluginSystemSchemaVersion", t_isLiteral 3);
     ("latest",
      t_isArray
        (t_isObject
           [("name", t_isString);
            ("version", t_isString);
            ("url", t_isString);
            ("configKey", t_isString);
            ("fileExtensions", t_isArray t_isString);
            ("configSchemaUrl", t_isString);
            ("configExcludes", t_isArray t_isString)]))].

(** ** The file system, the network and the console *)

(** A resolved path: the directory and the name of the entry in it
    ([resolve(dir, name)] of std/path).  The names [""] and ["."] address the
    directory itself and [".."] its parent.  [resolve] of std/path
    normalises the name ([./x] is the entry [x], [a/x] lies below the entry
    [a]); the model keeps the name as it is given and follows the names that
    are a single component, as [_urlToFileName] and [Deno.readDir] give
    them.  A name with a separator addresses nothing here, and the contents
    of sub-directories are not part of the model: what is stated of files
    is stated of entries with a single-component name. *)
Record path : Type := {
  path_dir : string;
  path_name : string;
}.

Definition resolve (dir name : string) : path :=
  {| path_dir := dir; path_name := name |}.

Inductive node : Type :=
| File (data : list byte)
| Directory
| Inaccessible (e : io_error).   (* every access fails with [e] *)

Record Response : Type := {
  ok : bool;
  body : list byte;
}.

Inductive console_level : Type := log_level | warn_level | error_level.

Inductive Event : Type :=
| EvReadFile (p : path)
| EvWriteFile (p : path) (data : list byte)
| EvMkdir (dir : string)
| EvReadDir (dir : string)
| EvRemove (p : path)
| EvFetch (url : string)
| EvInstantiate (wasm : list byte)
| EvConsole (level : console_level) (message : string).

(** An instantiated plugin: [formatter_ref] is the identity of the object. *)
Record Formatter : Type := {
  formatter_ref : nat;
  formatter_wasm : list byte;
}.

(** [directories]: the entries of every directory that exists;
    [remote]: the response to a request for each URL that answers, [fetch]
    rejects for any other;
    [trace]: the operations performed so far, oldest first;
    [allocated]: the number of Formatter objects created. *)
Record World : Type := {
  directories : gmap string (gmap string node);
  remote : gmap string Response;
  trace : list Event;
  allocated : nat;
}.

Definition set_directories (d : gmap string (gmap string node)) (w : World) : World :=
  {| directories := d; remote := remote w; trace := trace w; allocated := allocated w |}.

Definition record_event (ev : Event) (w : World) : World :=
  {| directories := directories w; remote := remote w;
     trace := trace w ++ [ev]; allocated := allocated w |}.

Definition is_directory_name (name : string) : bool :=
  bool_decide (name = "" ∨ name = "." ∨ name = "..").

Definition has_slash (name : string) : bool :=
  existsb is_slash (list_ascii_of_string name).

Definition lookup_path (fs : gmap string (gmap string node)) (p : path) : Result node :=
  match fs !! path_dir p with
  | None => Throw (Deno NotFound)
  | Some entries =>
      if is_directory_name (path_name p) then Ok Directory
      else if has_slash (path_name p) then Throw (Deno NotFound)
      else match entries !! path_name p with
           | Some nd => Ok nd
           | None => Throw (Deno NotFound)
           end
  end.

Definition read_file (fs : gmap string (gmap string node)) (p : path) : Result (list byte) :=
  match lookup_path fs p with
  | Ok (File data) => Ok data
  | Ok Directory => Throw (Deno (IOFailure "Is a directory"))
  | Ok (Inaccessible e) => Throw (Deno e)
  | Throw e => Throw e
  end.

(** [Deno.writeFile] fails where the file cannot be opened: its directory
    is missing, or the entry is a directory or is inaccessible; nothing is
    written then.  A failure while the data is written (a full disk), which
    leaves a truncated file, is not in the model, and neither is a file that
    can be read and not written. *)
Definition write_file (fs : gmap string (gmap string node)) (p : path) (data : list byte)
  : Result (gmap string (gmap string node)) :=
  match lookup_path fs p with
  | Ok (File _) | Throw (Deno NotFound) =>
      match fs !! path_dir p with
      | Some entries =>
          if has_slash (path_name p) then Throw (Deno NotFound)
          else Ok (<[path_dir p := <[path_name p := File data]> entries]> fs)
      | None => Throw (Deno NotFound)
      end
  | Ok Directory => Throw (Deno (IOFailure "Is a directory"))
  | Ok (Inaccessible e) => Throw (Deno e)
  | Throw e => Throw e
  end.

(** [Deno.remove(path, { recursive: true })]: the entry goes, and with a
    directory all that is below it, which the model does not hold. *)
Definition remove_entry (fs : gmap string (gmap string node)) (p : path)
  : Result (gmap string (gmap string node)) :=
  match fs !! path_dir p with
  | Some entries =>
      match entries !! path_name p with
      | Some _ => Ok (<[path_dir p := delete (path_name p) entries]> fs)
      | None => Throw (Deno NotFound)
      end
  | None => Throw (Deno NotFound)
  end.

(** ** Computations: a state and exception monad

    A thrown exception keeps the state reached so far, as a JavaScript
    exception keeps the mutations made before it. *)

Definition M (S A : Type) : Type := S → Result A * S.

Definition ret {S A} (a : A) : M S A := fun s => (Ok a, s).

Definition bind {S A B} (m : M S A) (k : A → M S B) : M S B :=
  fun s =>
    match m s with
    | (Ok a, s') => k a s'
    | (Throw e, s') => (Throw e, s')
    end.

Definition throw {S A} (e : Exception) : M S A := fun s => (Throw e, s).

Definition try_catch {S A} (body : M S A) (handler : Exception → M S A) : M S A :=
  fun s =>
    match body s with
    | (Ok a, s') => (Ok a, s')
    | (Throw e, s') => handler e s'
    end.

Definition gets {S A} (f : S → A) : M S A := fun s => (Ok (f s), s).
Definition modify {S} (f : S → S) : M S unit := fun s => (Ok tt, f s).

(** A result that is already computed, raised into the monad. *)
Definition of_result {S A} (r : Result A) : M S A := fun s => (r, s).

(** A promise that is started and not awaited: its effect on the state
    happens, its outcome is not observed by the code, which goes on.  A
    rejection that nobody handles ends the Deno process later on: the model
    follows the code, and not the process beyond that point. *)
Definition unawaited {S A} (m : M S A) : M S unit := fun s => (Ok tt, snd (m s)).

Declare Scope js_scope.
Delimit Scope js_scope with js.
Notation "x <- m ;; k" := (bind m (fun x => k))
  (at level 20, m at level 99, k at level 200, only parsing) : js_scope.
Notation "m ;; k" := (bind m (fun _ => k))
  (at level 100, k at level 200, only parsing, right associativity) : js_scope.
Local Open Scope js_scope.

Fixpoint for_each {S A} (f : A → M S unit) (l : list A) : M S unit :=
  match l with
  | [] => ret tt
  | x :: rest => f x ;; for_each f rest
  end.

Fixpoint map_m {S A B} (f : A → M S B) (l : list A) : M S (list B) :=
  match l with
  | [] => ret []
  | x :: rest => y <- f x ;; ys <- map_m f rest ;; ret (y :: ys)
  end.

(** ** Platform operations *)

Definition Deno_readFile (p : path) : M World (list byte) :=
  modify (record_event (EvReadFile p)) ;;
  fs <- gets directories ;;
  of_result (read_file fs p).

Definition Deno_writeFile (p : path) (data : list byte) : M World unit :=
  modify (record_event (EvWriteFile p data)) ;;
  fs <- gets directories ;;
  fs' <- of_result (write_file fs p data) ;;
  modify (set_directories fs').

Definition make_directory (fs : gmap string (gmap string node)) (dir : string)
  : gmap string (gmap string node) :=
  match fs !! dir with
  | Some _ => fs
  | None => <[dir := ∅]> fs
  end.

(** [Deno.mkdir(dir, { recursive: true })] *)
Definition Deno_mkdir (dir : string) : M World unit :=
  modify (record_event (EvMkdir dir)) ;;
  fs <- gets directories ;;
  modify (set_directories (make_directory fs dir)).

(** [Deno.readDir(dir)], all entries at once. *)
Definition Deno_readDir (dir : string) : M World (list string) :=
  modify (record_event (EvReadDir dir)) ;;
  fs <- gets directories ;;
  match fs !! dir with
  | Some entries => ret (map fst (map_to_list entries))
  | None => throw (Deno NotFound)
  end.

(** [Deno.remove(path, { recursive: true })] *)
Definition Deno_remove (p : path) : M World unit :=
  modify (record_event (EvRemove p)) ;;
  fs <- gets directories ;;
  fs' <- of_result (remove_entry fs p) ;;
  modify (set_directories fs').

Definition fetch (url : string) : M World Response :=
  modify (record_event (EvFetch url)) ;;
  respond <- gets remote ;;
  match respond !! url with
  | Some response => ret response
  | None => throw NetworkError
  end.

Definition console (level : console_level) (message : string) : M World unit :=
  modify (record_event (EvConsole level message)).

(** [createFromBuffer(buffer)] of dprint: a new Formatter object. *)
Definition createFromBuffer `{Platform} (buffer : list byte) : M World Formatter :=
  modify (record_event (EvInstantiate buffer)) ;;
  if wasm_instantiable buffer then
    n <- gets allocated ;;
    modify (fun w => {| directories := directories w; remote := remote w;
                        trace := trace w; allocated := S n |}) ;;
    ret {| formatter_ref := n; formatter_wasm := buffer |}
  else throw CompileError.

(** [formatter.formatText(filePath, text)] *)
Definition Formatter_formatText `{Platform} {S} (f : Formatter) (filePath text : string)
  : M S string :=
  match plugin_formatText (formatter_wasm f) filePath text with
  | Some out => ret out
  | None => throw FormatError
  end.

Definition path_string (p : path) : string := path_dir p +:+ "/" +:+ path_name p.

(** ** [_getLockObject] *)

Definition _getLockObject (lockFilePath : path) : M World json :=
  try_catch
    (bytes <- Deno_readFile lockFilePath ;;
     let lockFileContents := TextDecoder_decode bytes in
     lockFileObject <- match JSON_parse lockFileContents with
                       | Some v => ret v
                       | None => throw SyntaxError
                       end ;;
     valid <- of_result (_isValidLockObject lockFileObject) ;;
     if negb valid then
       throw (LockFileParseError ("Invalid lock file: " +:+ path_string lockFilePath))
     else ret lockFileObject)
    (fun error =>
       match error with
       | SyntaxError | LockFileParseError _ =>
           console error_level "Lock file corrupted. Regenerating..."
       | _ => ret tt
       end ;;
       ret (JObject [])).

(** ** Property access on the lock object

    Own enumerable properties only: inherited and non-enumerable ones
    ([length], [constructor], ...) are never named by a URL.  The module is
    strict-mode code, where an assignment to a property of a primitive
    throws; on an array the key of an assignment is taken to be no index,
    and on an object it is taken not to be [__proto__]: no URL is either. *)

Definition js_get (o : json) (k : string) : Result (option json) :=
  match Object_entries o with
  | Ok own => Ok (assoc_get k own)
  | Throw e => Throw e
  end.

Definition js_set (o : json) (k : string) (v : json) : Result json :=
  match o with
  | JObject props => Ok (JObject (assoc_set k v props))
  | JArray elems extra => Ok (JArray elems (assoc_set k v extra))
  | _ => Throw TypeError
  end.

Definition js_delete (o : json) (k : string) : Result json :=
  match o with
  | JObject props => Ok (JObject (assoc_delete k props))
  | JArray elems extra => Ok (JArray elems (assoc_delete k extra))
  | JNull => Throw TypeError
  | _ => Ok o
  end.

(** ** [class DprintPluginManager] *)

(** [lockObject] is the object that the promise [#lockObject] resolves to:
    one object, shared by every method and mutated in place. *)
Record DprintPluginManager : Type := {
  cacheDir : string;
  lockFilePath : path;
  lockObject : json;
  formatters : gmap string Formatter;
}.

Record Session : Type := {
  world : World;
  this : DprintPluginManager;
}.

Definition in_world {A} (m : M World A) : M Session A :=
  fun s =>
    match m (world s) with
    | (r, w) => (r, {| world := w; this := this s |})
    end.

Definition set_lockObject (o : json) (s : Session) : Session :=
  {| world := world s;
     this := {| cacheDir := cacheDir (this s); lockFilePath := lockFilePath (this s);
                lockObject := o; formatters := formatters (this s) |} |}.

Definition set_formatter (url : string) (f : Formatter) (s : Session) : Session :=
  {| world := world s;
     this := {| cacheDir := cacheDir (this s); lockFilePath := lockFilePath (this s);
                lockObject := lockObject (this s);
                formatters := <[url := f]> (formatters (this s)) |} |}.

(** [constructor(cacheDir)]: the load of the lock file starts here. *)
Definition new_DprintPluginManager (dir : string) : M World DprintPluginManager :=
  let lockFile := resolve dir LOCK_FILE_NAME in
  o <- _getLockObject lockFile ;;
  ret {| cacheDir := dir; lockFilePath := lockFile; lockObject := o; formatters := ∅ |}.

(** [this._resolve(segment)] *)
Definition _resolve (segment : string) : M Session path :=
  dir <- gets (fun s => cacheDir (this s)) ;;
  ret (resolve dir segment).

(** The download at the end of [loadFormatterFromUrl]. *)
Definition download `{Platform} (url fileName : string) : M Session Formatter :=
  response <- in_world (fetch url) ;;
  let buffer := body response in
  formatter <- in_world (createFromBuffer buffer) ;;
  modify (set_formatter url formatter) ;;
  o <- gets (fun s => lockObject (this s)) ;;
  o' <- of_result
          (js_set o url
             (entry_object {| fileName := fileName; sha512 := _hashSha512 buffer |})) ;;
  modify (set_lockObject o') ;;
  dir <- gets (fun s => cacheDir (this s)) ;;
  in_world (Deno_mkdir dir) ;;
  p <- _resolve fileName ;;
  in_world (unawaited (Deno_writeFile p buffer)) ;;
  ret formatter.

(** The [try] block for a valid lock entry: [Some formatter] when the
    function returns from inside the block, [None] when control reaches the
    download. *)
Definition load_cached `{Platform} (url : string) (lockObjectEntry : _LockObjectEntry)
  : M Session (option Formatter) :=
  try_catch
    (p <- _resolve (fileName lockObjectEntry) ;;
     buffer <- in_world (Deno_readFile p) ;;
     let wasmHash := _hashSha512 buffer in
     let cachedHash := sha512 lockObjectEntry in
     if decide (wasmHash = cachedHash) then
       formatter <- in_world (createFromBuffer buffer) ;;
       modify (set_formatter url formatter) ;;
       ret (Some formatter)
     else
       in_world
         (console warn_level
            ("Checksum mismatch occurred for '" +:+ fileName lockObjectEntry
               +:+ "'. Redownloading from source...")) ;;
       ret None)
    (fun error =>
       match error with
       | Deno NotFound =>
           o <- gets (fun s => lockObject (this s)) ;;
           o' <- of_result (js_delete o url) ;;
           modify (set_lockObject o') ;;
           ret None
       | _ => throw error
       end).

Definition loadFormatterFromUrl `{Platform} (url : string) : M Session Formatter :=
  loaded <- gets (fun s => formatters (this s) !! url) ;;
  match loaded with
  | Some formatter => ret formatter
  | None =>
      fileName <- of_result (_urlToFileName url) ;;
      o <- gets (fun s => lockObject (this s)) ;;
      lockObjectEntry <- of_result (js_get o url) ;;
      cached <- match as_lock_entry lockObjectEntry with
                | Some entry => load_cached url entry
                | None => ret None
                end ;;
      match cached with
      | Some formatter => ret formatter
      | None => download url fileName
      end
  end.

(** The keep-set of [cleanCacheDir]: [entry.fileName] of every entry.  A
    value that is no string equals no base name and is left out. *)
Fixpoint keep_file_names (entries : list (string * json)) (filesToKeep : gset string)
  : Result (gset string) :=
  match entries with
  | [] => Ok filesToKeep
  | (_, entry) :: rest =>
      match js_get entry "fileName" with
      | Ok (Some (JString name)) => keep_file_names rest ({[name]} ∪ filesToKeep)
      | Ok _ => keep_file_names rest filesToKeep
      | Throw e => Throw e
      end
  end.

(** [basename] of std/path, on a POSIX system. *)
Definition basename : string → string := posix_basename.

(** The body of the loop over [Deno.readDir(this.#cacheDir)]. *)
Definition remove_unlisted (filesToKeep : gset string) (name : string) : M Session unit :=
  if negb (bool_decide (basename name ∈ filesToKeep)) then
    in_world (console log_level ("Cleaning up: " +:+ name)) ;;
    p <- _resolve name ;;
    in_world (unawaited (Deno_remove p))
  else ret tt.

Definition cleanCacheDir (removeLockFile : bool) : M Session unit :=
  let filesToKeep : gset string := if negb removeLockFile then {[LOCK_FILE_NAME]} else ∅ in
  o <- gets (fun s => lockObject (this s)) ;;
  entries <- of_result (Object_entries o) ;;
  filesToKeep <- of_result (keep_file_names entries filesToKeep) ;;
  dir <- gets (fun s => cacheDir (this s)) ;;
  names <- in_world (Deno_readDir dir) ;;
  for_each (remove_unlisted filesToKeep) names.

Definition writeLockFile `{Platform} (jsonFormatter : option Formatter) : M Session unit :=
  o <- gets (fun s => lockObject (this s)) ;;
  let jsonText := JSON_stringify o in
  target <- gets (fun s => lockFilePath (this s)) ;;
  jsonText <- match jsonFormatter with
              | Some f => Formatter_formatText f (path_string target) jsonText
              | None => ret jsonText
              end ;;
  in_world (Deno_writeFile target (TextEncoder_encode jsonText)).

(** ** [getFormatters] of [mod.ts] *)

Definition PLUGIN_INFOS_URL : string := "https://plugins.dprint.dev/info.json".

Definition strings_of (v : option json) : list string :=
  match v with
  | Some (JArray elems _) =>
      omap (fun e => match e with JString s => Some s | _ => None end) elems
  | _ => []
  end.

Definition plugin_info (o : json) : PluginInfo :=
  {| pi_url := string_property o "url";
     pi_configKey := string_property o "configKey";
     pi_fileExtensions :=
       match o with
       | JObject props => strings_of (assoc_get "fileExtensions" props)
       | _ => []
       end |}.

Definition latest_plugins (catalog : json) : list PluginInfo :=
  match catalog with
  | JObject props =>
      match assoc_get "latest" props with
      | Some (JArray elems _) => map plugin_info elems
      | _ => []
      end
  | _ => []
  end.

Record LoadedPlugin : Type := {
  name : string;
  formatter : Formatter;
  fileExtensions : list string;
}.

(** Up to the end of [Promise.all]; the plugins are resolved one after the
    other, in catalog order. *)
Definition getFormatters `{Platform} : M Session (list LoadedPlugin) :=
  response <- in_world (fetch PLUGIN_INFOS_URL) ;;
  if negb (ok response) then
    throw (JsError ("Failed to load list of formatters from: " +:+ PLUGIN_INFOS_URL))
  else
    json <- match JSON_parse (TextDecoder_decode (body response)) with
            | Some v => ret v
            | None => throw SyntaxError
            end ;;
    if negb (isDprintPluginsInfo (Some json)) then
      throw (JsError "Invalid plugin information format.")
    else
      map_m
        (fun formatterInfo =>
           f <- loadFormatterFromUrl (pi_url formatterInfo) ;;
           ret {| name := pi_configKey formatterInfo;
                  formatter := f;
                  fileExtensions := pi_fileExtensions formatterInfo |})
        (latest_plugins json).

(** ** The maps that [getFormatters] returns *)

Record FormatterMaps : Type := {
  pluginsByName : gmap string Formatter;
  pluginsByExtension : gmap string Formatter;
}.

(** One turn of the loop over [formatters].  [setConfig] hands the plugin
    the global configuration, the same for every plugin:
    [plugin_formatText] is the formatting under that configuration. *)
Definition index_plugin (maps : FormatterMaps) (plugin : LoadedPlugin) : FormatterMaps :=
  {| pluginsByName := <[name plugin := formatter plugin]> (pluginsByName maps);
     pluginsByExtension :=
       fold_left
         (fun byExtension fileExtension =>
            <["." +:+ fileExtension := formatter plugin]> byExtension)
         (fileExtensions plugin) (pluginsByExtension maps) |}.

Definition index_plugins (formatters : list LoadedPlugin) : FormatterMaps :=
  fold_left index_plugin formatters {| pluginsByName := ∅; pluginsByExtension := ∅ |}.

(** ** [main] of [mod.ts] *)

(** [parseArgs(Deno.args, ...)], as far as [main] reads it: [root] is [Some]
    when [typeof parsedArgs.root === "string"]. *)
Record Args : Type := {
  help : bool;
  dry_run : bool;
  verbose : bool;
  root : option string;
}.

(** An entry that [walk] yields. *)
Record WalkEntry : Type := {
  entry_path : path;
  isFile : bool;
}.

(** What [main] takes from the standard library and from the process:
    - [cwd]: [Deno.cwd()], and [resolve_cwd p]: [resolve(p)] of std/path;
    - [extname p]: [extname(p)] of std/path;
    - [getColorEnabled], [red], [gray]: std/fmt/colors;
    - [toUpperCase s]: [s.toUpperCase()];
    - [walk fs root skipped]: the entries that
      [walk(root, { skip: [globToRegExp(skipped + "/**")] })] yields on the
      file system [fs], and the exception that ends the iteration when one
      does;
    - [inspect e]: what [console.error] prints for a thrown value. *)
Class Process : Type := {
  cwd : string;
  resolve_cwd : string → string;
  extname : string → string;
  getColorEnabled : bool;
  red : string → string;
  gray : string → string;
  toUpperCase : string → string;
  walk : gmap string (gmap string node) → string → string
         → list WalkEntry * option Exception;
  inspect : Exception → string;
}.

Definition identity {T} (input : T) : T := input.

Definition usage : string :=
  join_with (str1 LF)
    ["USAGE:";
     "    deno run --allow-net --allow-read --allow-write format.ts [OPTIONS]";
     "";
     "OPTIONS:";
     "    -h, --help   Prints this help message.";
     "    --dry-run    Run the script as usual but don't actually format anything,";
     "                 but log things as if it did.";
     "    --root       Sets the root of the formatter. By default it uses the";
     "                 current working directory.";
     "";
     "                 Relative paths are still resolved relative to the";
     "                 current working directory.";
     "    --verbose    Prints longer output, including skipped files."].

Definition getFormatterForFile `{Process} (maps : FormatterMaps) (filePath : string)
  : option Formatter :=
  pluginsByExtension maps !! extname filePath.

Definition createLogOutput `{Process} (parsedArgs : Args)
    (tags : list string) (message : string) (color : string → string) : string :=
  let result := "" in
  let result :=
    if negb getColorEnabled || verbose parsedArgs
    then result +:+ join_with " " (map (fun tag => "[" +:+ toUpperCase tag +:+ "]") tags)
    else result in
  let result := result +:+ " " +:+ message in
  color result.

(** The body of the loop over the entries of [walk]; [continue] is the
    return of the body.  The read is outside the [try]: its failure leaves
    the loop. *)
Definition format_entry `{Platform} `{Process} (parsedArgs : Args) (maps : FormatterMaps)
    (entry : WalkEntry) : M World unit :=
  if isFile entry then
    let filePath := path_string (entry_path entry) in
    match getFormatterForFile maps filePath with
    | None =>
        if verbose parsedArgs then console log_level ("[SKIPPED] " +:+ filePath)
        else ret tt
    | Some parser =>
        bytes <- Deno_readFile (entry_path entry) ;;
        let contents := TextDecoder_decode bytes in
        formatted <- try_catch
                       (formattedContents <- Formatter_formatText parser filePath contents ;;
                        ret (Some formattedContents))
                       (fun error =>
                          console log_level (createLogOutput parsedArgs ["error"] filePath red) ;;
                          console error_level (inspect error) ;;
                          ret None) ;;
        match formatted with
        | None => ret tt
        | Some formattedContents =>
            let hasChanges := negb (String.eqb contents formattedContents) in
            (if negb (dry_run parsedArgs) && hasChanges
             then unawaited (Deno_writeFile (entry_path entry)
                               (TextEncoder_encode formattedContents))
             else ret tt) ;;
            let logText :=
              if hasChanges
              then createLogOutput parsedArgs ["formatted"] filePath identity
              else createLogOutput parsedArgs ["checked"] filePath gray in
            console log_level logText
        end
    end
  else ret tt.

(** A computation of the manager, run from the world alone. *)
Definition with_manager {A} (pluginManager : DprintPluginManager) (m : M Session A)
  : M World A :=
  fun w =>
    match m {| world := w; this := pluginManager |} with
    | (r, s) => (r, world s)
    end.

(** [main], from the parsed arguments on.  [Deno.exit()] ends the process:
    nothing follows the help text.  The entries of [walk] are those of the
    file system as the loop finds it; the writes of the loop replace the
    contents of files and change no listing. *)
Definition main `{Platform} `{Process} (parsedArgs : Args) : M World unit :=
  if help parsedArgs then console log_level usage
  else
    let DPRINT_CACHE_DIR := resolve_cwd ".dprint-cache" in
    pluginManager <- new_DprintPluginManager DPRINT_CACHE_DIR ;;
    with_manager pluginManager
      (formatters <- getFormatters ;;
       let maps := index_plugins formatters in
       let walkRoot :=
         match root parsedArgs with
         | Some given => resolve_cwd given
         | None => cwd
         end in
       fs <- gets (fun s => directories (world s)) ;;
       let walked := walk fs walkRoot DPRINT_CACHE_DIR in
       in_world (for_each (format_entry parsedArgs maps) (fst walked)) ;;
       match snd walked with
       | Some error => throw error
       | None => ret tt
       end ;;
       unawaited (cleanCacheDir false) ;;
       unawaited (writeLockFile (pluginsByName maps !! "json"))).

(** ** A small platform, to run the definitions on examples

    [sample_pathname] reads a URL of the form
    [scheme://authority/path?query#fragment] (no dot segments, no character
    that the URL parser would escape); [sample_digest] is a checksum that
    stands in for SHA-512; a module is instantiable when it starts with the
    WebAssembly magic number; formatting leaves the text as it is. *)

Definition is_letter (c : ascii) : bool :=
  let n := N_of_ascii c in
  (((97 <=? n) && (n <=? 122)) || ((65 <=? n) && (n <=? 90)))%N.

Definition ends_component (c : ascii) : bool :=
  Ascii.eqb c "/" || Ascii.eqb c "?" || Ascii.eqb c "#".

Fixpoint after_scheme (s : string) : option string :=
  match s with
  | String ":" (String "/" (String "/" r)) => Some r
  | String c r => if ends_component c then None else after_scheme r
  | EmptyString => None
  end.

Fixpoint skip_authority (s : string) : string :=
  match s with
  | String c r => if ends_component c then s else skip_authority r
  | EmptyString => s
  end.

Fixpoint take_path (s : string) : string :=
  match s with
  | String c r =>
      if Ascii.eqb c "?" || Ascii.eqb c "#" then EmptyString
      else String c (take_path r)
  | EmptyString => EmptyString
  end.

Definition sample_pathname (url : string) : option string :=
  match url with
  | String c _ =>
      if is_letter c then
        match after_scheme url with
        | Some r =>
            match take_path (skip_authority r) with
            | EmptyString => Some "/"
            | p => Some p
            end
        | None => None
        end
      else None
  | EmptyString => None
  end.

Definition sample_checksum (data : list byte) : N :=
  fold_left (fun acc b => ((acc * 31 + Byte.to_N b) mod 65536)%N) data 7%N.

Definition sample_digest (data : list byte) : string :=
  let n := sample_checksum data in
  String (hex_digit (n / 4096))
    (String (hex_digit ((n / 256) mod 16))
       (String (hex_digit ((n / 16) mod 16)) (str1 (hex_digit (n mod 16))))).

Definition wasm_magic (data : list byte) : bool :=
  match data with
  | x00 :: x61 :: x73 :: x6d :: _ => true
  | _ => false
  end.

Definition sample_platform : Platform :=
  {| sha512_hex := sample_digest;
     url_pathname := sample_pathname;
     wasm_instantiable := wasm_magic;
     plugin_formatText := fun _ _ text => Some text;
     number_is := fun lexeme n =>
       bool_decide (lexeme = NilEmpty.string_of_int (Z.to_int n)) |}.

Definition sample_module (tail : list byte) : list byte :=
  x00 :: x61 :: x73 :: x6d :: tail.

Definition no_network : gmap string Response := ∅.

Definition empty_world : World :=
  {| directories := ∅; remote := no_network; trace := []; allocated := 0 |}.

Definition sample_dir : string := "/work/.dprint-cache".
Definition json_plugin_url : string := "https://plugins.dprint.dev/json-0.19.3.wasm".
Definition mirror_plugin_url : string := "https://mirror.example/dprint/json-0.19.3.wasm".
Definition json_plugin_file : string := "json-0.19.3.wasm".
Definition wasm_a : list byte := sample_module [x01; x02].
Definition wasm_b : list byte := sample_module [x0a; x0b; x0c].

(** Both URLs answer; [ok_a] is the status of the first answer. *)
Definition sample_remote (ok_a : bool) : gmap string Response :=
  {[ json_plugin_url := {| ok := ok_a; body := wasm_a |};
     mirror_plugin_url := {| ok := true; body := wasm_b |} ]}.

(** A manager on a cache directory with the given entries and lock object. *)
Definition sample_session (entries : list (string * node)) (o : json)
    (net : gmap string Response) : Session :=
  {| world := {| directories := {[ sample_dir := list_to_map entries ]};
                 remote := net; trace := []; allocated := 0 |};
     this := {| cacheDir := sample_dir;
                lockFilePath := resolve sample_dir LOCK_FILE_NAME;
                lockObject := o;
                formatters := ∅ |} |}.

Definition sample_entry (data : list byte) : json :=
  entry_object {| fileName := json_plugin_file; sha512 := sample_digest data |}.

Definition sample_manifest (data : list byte) : json :=
  JObject [(json_plugin_url, sample_entry data)].

(** ** A small process, to run [main] on examples

    [sample_extname] is the text from the last dot of the base name on, when
    that dot is not the first character of the base name; colors are off;
    [sample_walk] yields the entries of the root directory itself, in the
    order of their names; [tidy_platform] is [sample_platform] with a
    formatter that ends the text with a line feed and refuses a text that
    starts with an exclamation mark. *)

Fixpoint extension_of (reversed seen : list ascii) : list ascii :=
  match reversed with
  | [] => []
  | c :: rest =>
      if Ascii.eqb c "."
      then match rest with
           | [] => []
           | _ => c :: seen
           end
      else extension_of rest (c :: seen)
  end.

Definition sample_extname (p : string) : string :=
  string_of_list_ascii
    (extension_of (rev (list_ascii_of_string (posix_basename p))) []).

Definition upper (c : ascii) : ascii :=
  let n := N_of_ascii c in
  if ((97 <=? n) && (n <=? 122))%N then ascii_of_N (n - 32) else c.

Fixpoint sample_toUpperCase (s : string) : string :=
  match s with
  | EmptyString => EmptyString
  | String c r => String (upper c) (sample_toUpperCase r)
  end.

Definition sample_walk (fs : gmap string (gmap string node)) (walkRoot skipped : string)
  : list WalkEntry * option Exception :=
  match fs !! walkRoot with
  | Some entries =>
      (map (fun kv => {| entry_path := resolve walkRoot (fst kv);
                         isFile := match snd kv with
                                   | Directory => false
                                   | _ => true
                                   end |})
         (map_to_list entries),
       None)
  | None => ([], Some (Deno NotFound))
  end.

Definition sample_process : Process :=
  {| cwd := "/work";
     resolve_cwd := fun p => "/work/" +:+ p;
     extname := sample_extname;
     getColorEnabled := false;
     red := fun text => text;
     gray := fun text => text;
     toUpperCase := sample_toUpperCase;
     walk := sample_walk;
     inspect := fun _ => "Error" |}.

Fixpoint ends_with_newline (s : string) : bool :=
  match s with
  | EmptyString => false
  | String c EmptyString => Ascii.eqb c LF
  | String _ r => ends_with_newline r
  end.

Definition tidy (text : string) : option string :=
  match text with
  | String "!" _ => None
  | _ => Some (if ends_with_newline text then text else text +:+ str1 LF)
  end.

Definition tidy_platform : Platform :=
  {| sha512_hex := sample_digest;
     url_pathname := sample_pathname;
     wasm_instantiable := wasm_magic;
     plugin_formatText := fun _ _ text => tidy text;
     number_is := fun lexeme n =>
       bool_decide (lexeme = NilEmpty.string_of_int (Z.to_int n)) |}.

Definition sample_catalog : json :=
  JObject
    [("schemaVersion", JNumber "2");
     ("pluginSystemSchemaVersion", JNumber "3");
     ("latest",
      JArray
        [JObject
           [("name", JString "dprint-plugin-json");
            ("version", JString "0.19.3");
            ("url", JString json_plugin_url);
            ("configKey", JString "json");
            ("fileExtensions", JArray [JString "json"] []);
            ("configSchemaUrl", JString "https://plugins.dprint.dev/schemas/json-0.19.3.json");
            ("configExcludes", JArray [] [])]]
        [])].

(** The catalog and the plugin both answer. *)
Definition catalog_remote : gmap string Response :=
  {[ PLUGIN_INFOS_URL :=
       {| ok := true; body := TextEncoder_encode (JSON_stringify sample_catalog) |};
     json_plugin_url := {| ok := true; body := wasm_a |} ]}.

(** A working directory with two files, and no cache directory yet. *)
Definition sample_disk : gmap string (gmap string node) :=
  {[ "/work" := {[ "data.json" := File (TextEncoder_encode "{ }");
                   "notes" := File (TextEncoder_encode "plain") ]} ]}.

Definition sample_world (net : gmap string Response) : World :=
  {| directories := sample_disk; remote := net; trace := []; allocated := 0 |}.

Definition sample_args (dry : bool) : Args :=
  {| help := false; dry_run := dry; verbose := true; root := None |}.

Definition json_formatter : Formatter := {| formatter_ref := 0; formatter_wasm := wasm_a |}.

Definition sample_maps : FormatterMaps :=
  index_plugins [{| name := "json"; formatter := json_formatter;
                    fileExtensions := ["json"] |}].

(** ** Notions used in the statements *)

Fixpoint all_ws (s : string) : bool :=
  match s with
  | EmptyString => true
  | String c r => is_ws c && all_ws r
  end.

(** [v] is read back from its serialization at any indentation, whatever
    text follows, by a parser whose fuel exceeds the length of that
    serialization. *)
Definition parses_back (v : json) : Prop :=
  ∀ indent : string, all_ws indent = true →
    (∀ rest, skip_ws (serialize indent v +:+ rest) = serialize indent v +:+ rest)
    ∧ (∀ fuel rest, String.length (serialize indent v) < fuel →
         parse_value fuel (serialize indent v +:+ rest) = Some (v, rest)).

(** One member of a serialized object, and the text between two members. *)
Definition member (inner : string) (kv : string * json) : string :=
  QuoteJSONString (fst kv) +:+ ": " +:+ serialize inner (snd kv).

Definition separator (inner : string) : string := "," +:+ str1 LF +:+ inner.

(** An object (its keys are distinct, as the keys of any JavaScript object)
    that [_isLockObjectEntry] accepts. *)
Definition valid_entry_object (v : json) : Prop :=
  ∃ ps, v = JObject ps ∧ NoDup (map fst ps) ∧ _isLockObjectEntry (Some v) = true.

(** A manifest: a plain object whose values are all valid entries. *)
Definition lock_manifest (o : json) : Prop :=
  ∃ props, o = JObject props ∧ NoDup (map fst props)
           ∧ Forall (fun kv => valid_entry_object (snd kv)) props.

(** The values that [JSON.parse] builds: the keys of every object are
    distinct and no array has a property besides its elements. *)
Fixpoint parsed_shape (v : json) : Prop :=
  match v with
  | JObject props =>
      NoDup (map fst props)
      ∧ (fix all (l : list (string * json)) : Prop :=
           match l with
           | [] => True
           | kv :: rest => parsed_shape (snd kv) ∧ all rest
           end) props
  | JArray elems extra =>
      extra = []
      ∧ (fix all (l : list json) : Prop :=
           match l with
           | [] => True
           | x :: rest => parsed_shape x ∧ all rest
           end) elems
  | _ => True
  end.

(** The renderer only reformats: what it returns for [text] is read by
    [load] as the same value as [text]. *)
Definition renderer_keeps_json `{Platform}
    (renderer : option Formatter) (filePath text : string) : Prop :=
  match renderer with
  | None => True
  | Some f =>
      ∀ out, plugin_formatText (formatter_wasm f) filePath text = Some out →
             JSON_parse (TextDecoder_decode (TextEncoder_encode out)) = JSON_parse text
  end.

Definition corrupted_message : string := "Lock file corrupted. Regenerating...".

Definition is_object (v : json) : Prop :=
  match v with
  | JObject _ | JArray _ _ => True
  | _ => False
  end.

(** An object with a string [fileName], a string [sha512] and no other
    property. *)
Definition entry_shaped (e : json) : Prop :=
  is_object e
  ∧ (∃ f h, js_get e "fileName" = Ok (Some (JString f))
            ∧ js_get e "sha512" = Ok (Some (JString h)))
  ∧ ∀ own k, Object_entries e = Ok own → In k (map fst own) →
             k = "fileName" ∨ k = "sha512".

(** The URLs requested in a trace, oldest first. *)
Definition fetched (t : list Event) : list string :=
  omap (fun ev => match ev with EvFetch url => Some url | _ => None end) t.

(** The directories once a write that nobody awaits has run. *)
Definition after_write (fs : gmap string (gmap string node)) (p : path) (data : list byte)
  : gmap string (gmap string node) :=
  match write_file fs p data with
  | Ok fs' => fs'
  | Throw _ => fs
  end.

Definition mismatch_message (file : string) : string :=
  "Checksum mismatch occurred for '" +:+ file +:+ "'. Redownloading from source...".

(** The Formatter and the state that a successful download leaves, [o']
    being the lock object with the new entry. *)
Definition downloaded (url fileName : string) (response : Response) (o' : json) (s : Session)
  : Formatter * Session :=
  let w := world s in
  let f := {| formatter_ref := allocated w; formatter_wasm := body response |} in
  let dir := cacheDir (this s) in
  (f,
   {| world :=
        {| directories :=
             after_write (make_directory (directories w) dir) (resolve dir fileName)
               (body response);
           remote := remote w;
           trace := trace w ++ [EvFetch url; EvInstantiate (body response); EvMkdir dir;
                                EvWriteFile (resolve dir fileName) (body response)];
           allocated := S (allocated w) |};
      this :=
        {| cacheDir := dir; lockFilePath := lockFilePath (this s);
           lockObject := o'; formatters := <[url := f]> (formatters (this s)) |} |}).

(** The entry [name] of [dir] can hold a file: it names no directory and is
    free or already a file. *)
Definition can_store (fs : gmap string (gmap string node)) (dir name : string) : Prop :=
  is_directory_name name = false
  ∧ has_slash name = false
  ∧ ∀ entries nd, fs !! dir = Some entries → entries !! name = Some nd → ∃ d, nd = File d.

(** [file] is the [fileName] of some entry of the lock object. *)
Definition named_by_manifest (o : json) (file : string) : Prop :=
  ∃ entries k e,
    Object_entries o = Ok entries ∧ (k, e) ∈ entries
    ∧ js_get e "fileName" = Ok (Some (JString file)).

(** The entries of the cache directory once every removal has run. *)
Definition reap_entries (filesToKeep : gset string) (names : list string)
    (entries : gmap string node) : gmap string node :=
  fold_left
    (fun m name => if bool_decide (basename name ∈ filesToKeep) then m else delete name m)
    names entries.



(** The trace [t'] continues [t] with events that all satisfy [P]. *)
Definition continues (P : Event → Prop) (t t' : list Event) : Prop :=
  ∃ new, t' = t ++ new ∧ Forall P new.

(** [text] is what the renderer, when there is one, makes of [jsonText] for
    the file [filePath]. *)
Definition rendered `{Platform} (renderer : option Formatter) (filePath jsonText text : string)
  : Prop :=
  match renderer with
  | Some f => plugin_formatText (formatter_wasm f) filePath jsonText = Some text
  | None => text = jsonText
  end.


(** [ev] changes nothing on the disk. *)
Definition read_only (ev : Event) : Prop :=
  match ev with
  | EvWriteFile _ _ | EvRemove _ | EvMkdir _ => False
  | _ => True
  end.

(** Every file that can be read in [fs] can be read in [fs']. *)
Definition keeps_readable (fs fs' : gmap string (gmap string node)) : Prop :=
  ∀ p bytes, read_file fs p = Ok bytes → ∃ bytes', read_file fs' p = Ok bytes'.



(** The network gives no catalog that [getFormatters] accepts: the request
    fails, or the answer is unsuccessful, or its body is no JSON text, or
    the JSON is not of the catalog format. *)
Definition unusable_catalog `{Platform} (net : gmap string Response) : Prop :=
  net !! PLUGIN_INFOS_URL = None
  ∨ ∃ response,
      net !! PLUGIN_INFOS_URL = Some response
      ∧ (ok response = false
         ∨ JSON_parse (TextDecoder_decode (body response)) = None
         ∨ ∃ json, JSON_parse (TextDecoder_decode (body response)) = Some json
                   ∧ isDprintPluginsInfo (Some json) = false).

(** The claim that a file-system failure other than a missing file leaves
    [_getLockObject] by an exception. *)
Definition io_failure_propagates : Prop :=
  ∀ (w : World) (p : path) (e : io_error),
    e ≠ NotFound →
    read_file (directories w) p = Throw (Deno e) →
    fst (_getLockObject p w) = Throw (Deno e).

(** * Properties *)

(** ** Strings *)

Lemma append_nil_l (b : string) : "" +:+ b = b.
Proof. reflexivity. Qed.

Lemma append_cons (c : ascii) (a b : string) : String c a +:+ b = String c (a +:+ b).
Proof. reflexivity. Qed.

Lemma append_nil_r (a : string) : a +:+ "" = a.
Proof. induction a as [|x a IH]; [reflexivity|]. rewrite append_cons. f_equal. exact IH. Qed.

Lemma append_assoc (a b c : string) : (a +:+ b) +:+ c = a +:+ (b +:+ c).
Proof.
  induction a as [|x a IH]; [reflexivity|].
  rewrite !append_cons. f_equal. exact IH.
Qed.

Lemma length_append (a b : string) :
  String.length (a +:+ b) = String.length a + String.length b.
Proof.
  induction a as [|x a IH]; [reflexivity|].
  rewrite append_cons. simpl. f_equal. exact IH.
Qed.

Ltac norm_app :=
  repeat (rewrite append_assoc || rewrite append_cons || rewrite append_nil_l).

Lemma skip_ws_app (a b : string) : all_ws a = true → skip_ws (a +:+ b) = skip_ws b.
Proof.
  induction a as [|c a IH]; [reflexivity|].
  rewrite append_cons. simpl. intros [Hc Ha]%andb_prop. rewrite Hc. auto.
Qed.

Lemma all_ws_app (a b : string) : all_ws a = true → all_ws b = true → all_ws (a +:+ b) = true.
Proof.
  induction a as [|c a IH]; [auto|].
  rewrite append_cons. simpl. intros [Hc Ha]%andb_prop Hb. rewrite Hc. auto.
Qed.

(** ** Association lists *)

Lemma assoc_get_in {A} (k : string) (v : A) (l : list (string * A)) :
  NoDup (map fst l) → (k, v) ∈ l → assoc_get k l = Some v.
Proof.
  induction l as [|[k' v'] l IH]; intros Hnd Hin.
  - inversion Hin.
  - simpl in *. apply NoDup_cons in Hnd as [Hk' Hnd].
    apply elem_of_cons in Hin as [Heq | Hin].
    + inversion Heq; subst. destruct (decide (k' = k')); [reflexivity | contradiction].
    + destruct (decide (k = k')) as [->|Hne]; [|auto].
      exfalso. apply Hk'. apply list_elem_of_In, in_map_iff. exists (k', v).
      split; [reflexivity | now apply list_elem_of_In].
Qed.

Lemma assoc_get_set_eq {A} (k : string) (v : A) (l : list (string * A)) :
  assoc_get k (assoc_set k v l) = Some v.
Proof.
  induction l as [|[k' v'] l IH]; simpl.
  - destruct (decide (k = k)); [reflexivity | contradiction].
  - destruct (decide (k = k')) as [->|Hne]; simpl.
    + destruct (decide (k' = k')); [reflexivity | contradiction].
    + destruct (decide (k = k')); [contradiction | exact IH].
Qed.

Lemma assoc_get_set_ne {A} (k k0 : string) (v : A) (l : list (string * A)) :
  k0 ≠ k → assoc_get k0 (assoc_set k v l) = assoc_get k0 l.
Proof.
  intros Hne. induction l as [|[k' v'] l IH]; simpl.
  - destruct (decide (k0 = k)); [contradiction | reflexivity].
  - destruct (decide (k = k')) as [->|Hk]; simpl.
    + destruct (decide (k0 = k')); [contradiction | reflexivity].
    + destruct (decide (k0 = k')); [reflexivity | exact IH].
Qed.

Lemma assoc_get_delete_ne {A} (k k0 : string) (l : list (string * A)) :
  k0 ≠ k → assoc_get k0 (assoc_delete k l) = assoc_get k0 l.
Proof.
  intros Hne. induction l as [|[k' v'] l IH]; simpl; [reflexivity|].
  destruct (decide (k = k')) as [->|Hk]; simpl.
  - destruct (decide (k0 = k')); [contradiction | reflexivity].
  - destruct (decide (k0 = k')); [reflexivity | exact IH].
Qed.

Lemma assoc_get_None {A} (k : string) (l : list (string * A)) :
  assoc_get k l = None ↔ k ∉ map fst l.
Proof.
  induction l as [|[k' v'] l IH]; simpl.
  - split; [intros _; apply not_elem_of_nil | reflexivity].
  - rewrite not_elem_of_cons. destruct (decide (k = k')) as [->|Hne].
    + split; [discriminate | intros [Hk _]; contradiction].
    + rewrite IH. tauto.
Qed.

Lemma assoc_delete_absent {A} (k : string) (l : list (string * A)) :
  k ∉ map fst l → assoc_delete k l = l.
Proof.
  induction l as [|[k' v'] l IH]; intros Hk; [reflexivity|].
  simpl in *. apply not_elem_of_cons in Hk as [Hne Hk].
  destruct (decide (k = k')); [contradiction|]. now rewrite IH.
Qed.

Lemma filter_other_keys_absent {A} (k : string) (l : list (string * A)) :
  k ∉ map fst l → filter (fun kv => fst kv ≠ k) l = l.
Proof.
  induction l as [|[k' v'] l IH]; intros Hk; [reflexivity|].
  simpl in Hk. apply not_elem_of_cons in Hk as [Hne Hk].
  rewrite filter_cons_True by (simpl; congruence). now rewrite IH.
Qed.

(** With distinct keys, [delete o[k]] leaves the pairs of every other key,
    in their order, and no pair of [k]. *)
Lemma assoc_delete_filter {A} (k : string) (l : list (string * A)) :
  NoDup (map fst l) → assoc_delete k l = filter (fun kv => fst kv ≠ k) l.
Proof.
  induction l as [|[k' v'] l IH]; intros Hnd; [reflexivity|].
  simpl in *. apply NoDup_cons in Hnd as [Hk' Hnd].
  destruct (decide (k = k')) as [->|Hne].
  - rewrite filter_cons_False by (simpl; tauto).
    now rewrite filter_other_keys_absent.
  - rewrite filter_cons_True by (simpl; congruence). now rewrite IH.
Qed.

Lemma assoc_get_delete_eq {A} (k : string) (l : list (string * A)) :
  NoDup (map fst l) → assoc_get k (assoc_delete k l) = None.
Proof.
  intros Hnd. apply assoc_get_None. rewrite assoc_delete_filter by assumption.
  rewrite list_elem_of_In, in_map_iff. intros ([k' v'] & Hk & Hin).
  apply list_elem_of_In, list_elem_of_filter in Hin as [Hne _]. simpl in *. congruence.
Qed.

Lemma assoc_set_fresh {A} (k : string) (v : A) (l : list (string * A)) :
  k ∉ map fst l → assoc_set k v l = l ++ [(k, v)].
Proof.
  induction l as [|[k' v'] l IH]; intros Hk; [reflexivity|].
  simpl in *. apply not_elem_of_cons in Hk as [Hne Hk].
  destruct (decide (k = k')); [contradiction|]. now rewrite IH.
Qed.

Lemma object_of_members_acc (ms acc : list (string * json)) :
  NoDup (map fst (acc ++ ms)) →
  fold_left (fun a kv => assoc_set (fst kv) (snd kv) a) ms acc = acc ++ ms.
Proof.
  revert acc. induction ms as [|[k v] ms IH]; intros acc Hnd.
  - now rewrite app_nil_r.
  - simpl. rewrite assoc_set_fresh.
    + rewrite IH; rewrite <- app_assoc; [reflexivity | exact Hnd].
    + rewrite map_app in Hnd. apply NoDup_app in Hnd as (_ & Hdisj & _).
      intros Hin. apply (Hdisj k Hin). simpl. left.
Qed.

Lemma object_of_members_nodup (ms : list (string * json)) :
  NoDup (map fst ms) → object_of_members ms = ms.
Proof. intros Hnd. unfold object_of_members. now rewrite object_of_members_acc. Qed.

(** ** [JSON.parse] after [JSON.stringify] *)

Lemma parse_quote_char (c : ascii) (X : string) :
  parse_string_body (quote_char c +:+ X)
  = match parse_string_body X with
    | Some (t, r) => Some (String c t, r)
    | None => None
    end.
Proof.
  destruct c as [[] [] [] [] [] [] [] []];
    match goal with
    | |- context [quote_char ?c] =>
        let q := eval vm_compute in (quote_char c) in
        change (quote_char c) with q
    end;
    rewrite ?append_cons, ?append_nil_l; simpl;
    destruct (parse_string_body X) as [[t r]|]; reflexivity.
Qed.

Lemma parse_quote_body (s rest : string) :
  parse_string_body (quote_body s +:+ String DQUOTE rest) = Some (s, rest).
Proof.
  induction s as [|c s IH].
  - reflexivity.
  - simpl quote_body. rewrite append_assoc, parse_quote_char, IH. reflexivity.
Qed.

Lemma quoted_append (s rest : string) :
  QuoteJSONString s +:+ rest = String DQUOTE (quote_body s +:+ String DQUOTE rest).
Proof.
  unfold QuoteJSONString, str1. rewrite append_cons, append_assoc.
  rewrite append_cons, append_nil_l. reflexivity.
Qed.

Lemma parses_back_string (s : string) : parses_back (JString s).
Proof.
  intros indent _. split.
  - intros rest. simpl serialize. rewrite quoted_append. reflexivity.
  - intros [|fuel] rest Hf; [lia|].
    simpl serialize. rewrite quoted_append. simpl.
    rewrite parse_quote_body. reflexivity.
Qed.

Lemma member_head (inner : string) (kv : string * json) (rest : string) :
  member inner kv +:+ rest
  = String DQUOTE (quote_body (fst kv)
       +:+ String DQUOTE (": " +:+ serialize inner (snd kv) +:+ rest)).
Proof. unfold member. rewrite append_assoc, quoted_append, append_assoc. reflexivity. Qed.

Lemma join_members_head (inner : string) (kv : string * json)
    (props : list (string * json)) (X : string) :
  ∃ Y, join_with (separator inner) (map (member inner) (kv :: props)) +:+ X
       = String DQUOTE Y.
Proof.
  destruct props as [|kv' props].
  - simpl join_with. rewrite member_head. eauto.
  - change (join_with ?s (map ?f (kv :: kv' :: props)))
      with (f kv +:+ s +:+ join_with s (map f (kv' :: props))).
    rewrite !append_assoc, member_head. eauto.
Qed.

(** The members of an object are read back one after the other, by
    induction on the list of members. *)
Lemma parse_members_back (inner indent rest : string) (props : list (string * json)) :
  all_ws inner = true → all_ws indent = true →
  props ≠ [] →
  Forall (fun kv => parses_back (snd kv)) props →
  ∀ fuel, String.length (join_with (separator inner) (map (member inner) props)) < fuel →
  parse_members fuel
    (join_with (separator inner) (map (member inner) props)
       +:+ str1 LF +:+ indent +:+ "}" +:+ rest)
  = Some (props, rest).
Proof.
  intros Hinner Hindent Hne Hall.
  induction Hall as [|[k v] props Hv Hall IH]; [congruence|].
  clear Hne. intros [|fuel] Hf; [lia|].
  destruct (Hv inner Hinner) as [Hhead Hparse]. simpl in Hhead, Hparse.
  destruct props as [|kv' props].
  - simpl join_with in *. rewrite member_head. simpl fst; simpl snd.
    simpl parse_members. rewrite parse_quote_body.
    simpl skip_ws. rewrite append_cons. simpl skip_ws.
    rewrite append_cons, append_nil_l, Hhead, Hparse.
    + unfold str1. rewrite append_cons, append_nil_l. simpl skip_ws.
      rewrite skip_ws_app by assumption. reflexivity.
    + unfold member in Hf. rewrite !length_append in Hf. simpl in Hf. lia.
  - assert (Hjoin : join_with (separator inner) (map (member inner) ((k, v) :: kv' :: props))
                    = member inner (k, v) +:+ separator inner
                        +:+ join_with (separator inner) (map (member inner) (kv' :: props)))
      by reflexivity.
    rewrite Hjoin in *. clear Hjoin.
    set (J := join_with (separator inner) (map (member inner) (kv' :: props))) in *.
    rewrite !append_assoc, member_head. simpl fst; simpl snd.
    simpl parse_members. rewrite parse_quote_body.
    simpl skip_ws. rewrite append_cons. simpl skip_ws.
    rewrite append_cons, append_nil_l, Hhead, Hparse.
    + unfold separator, str1. norm_app. simpl.
      rewrite skip_ws_app by assumption.
      assert (HJ : ∀ X, skip_ws (J +:+ X) = J +:+ X).
      { intros X. subst J.
        destruct (join_members_head inner kv' props X) as [Y ->]. reflexivity. }
      rewrite HJ, IH; [reflexivity | congruence |].
      unfold member in Hf. rewrite !length_append in Hf. simpl in Hf. lia.
    + unfold member in Hf. rewrite !length_append in Hf. simpl in Hf. lia.
Qed.

Lemma parses_back_object (props : list (string * json)) :
  NoDup (map fst props) →
  Forall (fun kv => parses_back (snd kv)) props →
  parses_back (JObject props).
Proof.
  intros Hnd Hall indent Hindent.
  destruct props as [|kv props].
  - split; [reflexivity|]. intros [|fuel] rest Hf; [simpl in Hf; lia|]. reflexivity.
  - assert (Hser : serialize indent (JObject (kv :: props))
                   = "{" +:+ str1 LF +:+ (indent +:+ gap)
                       +:+ join_with (separator (indent +:+ gap))
                             (map (member (indent +:+ gap)) (kv :: props))
                       +:+ str1 LF +:+ indent +:+ "}") by reflexivity.
    rewrite Hser. clear Hser.
    set (inner := indent +:+ gap).
    assert (Hinner : all_ws inner = true) by (apply all_ws_app; [assumption | reflexivity]).
    set (J := join_with (separator inner) (map (member inner) (kv :: props))).
    split.
    + intros rest. reflexivity.
    + intros [|fuel] rest Hf; [lia|].
      unfold str1. norm_app. simpl.
      rewrite skip_ws_app by assumption.
      destruct (join_members_head inner kv props
                  (String LF (indent +:+ String "}" rest))) as [Y HY].
      fold J in HY.
      pose proof (parse_members_back inner indent rest (kv :: props) Hinner Hindent
                    ltac:(congruence) Hall fuel) as Hm.
      fold J in Hm. unfold str1 in Hm. revert Hm. norm_app. rewrite HY.
      unfold DQUOTE. intros Hm. simpl.
      rewrite Hm.
      * now rewrite object_of_members_nodup.
      * rewrite !length_append in Hf. simpl in Hf. lia.
Qed.

Lemma JSON_parse_stringify (v : json) : parses_back v → JSON_parse (JSON_stringify v) = Some v.
Proof.
  intros Hv. destruct (Hv EmptyString eq_refl) as [Hhead Hparse].
  unfold JSON_parse, JSON_stringify.
  rewrite <- (append_nil_r (serialize "" v)) at 2.
  rewrite Hhead, append_nil_r.
  rewrite <- (append_nil_r (serialize "" v)) at 2.
  rewrite Hparse by lia. reflexivity.
Qed.

(** ** Lock entries and manifests *)

Lemma valid_entry_strings (ps : list (string * json)) :
  NoDup (map fst ps) →
  _isLockObjectEntry (Some (JObject ps)) = true →
  Forall (fun kv => ∃ s, snd kv = JString s) ps.
Proof.
  intros Hnd Hvalid. unfold _isLockObjectEntry, t_isObject in Hvalid.
  change (Object_entries (JObject ps)) with (Ok ps) in Hvalid.
  cbv beta iota in Hvalid. rewrite forallb_app in Hvalid.
  apply andb_prop in Hvalid as [_ Hown].
  rewrite forallb_forall in Hown.
  apply Forall_forall. intros [k v] Hin. simpl.
  specialize (Hown k).
  assert (Hk : In k (map fst ps)).
  { apply in_map_iff. exists (k, v). split; [reflexivity|]. now apply list_elem_of_In. }
  specialize (Hown Hk).
  rewrite (assoc_get_in k v ps Hnd Hin) in Hown.
  destruct (decide (k = "constructor" ∨ k = "__proto__")); [discriminate|].
  simpl in Hown.
  destruct (decide (k = "fileName")); [destruct v; try discriminate; eauto|].
  destruct (decide (k = "sha512")); [destruct v; try discriminate; eauto|].
  discriminate.
Qed.

Lemma valid_entry_parses_back (v : json) : valid_entry_object v → parses_back v.
Proof.
  intros (ps & -> & Hnd & Hvalid). apply parses_back_object; [assumption|].
  eapply Forall_impl; [apply valid_entry_strings; eassumption|].
  intros [k v] [s Hs]. simpl in *. subst. apply parses_back_string.
Qed.

Lemma lock_manifest_parses_back (o : json) : lock_manifest o → parses_back o.
Proof.
  intros (props & -> & Hnd & Hall). apply parses_back_object; [assumption|].
  eapply Forall_impl; [exact Hall|]. intros kv. apply valid_entry_parses_back.
Qed.

Lemma lock_manifest_valid (o : json) : lock_manifest o → _isValidLockObject o = Ok true.
Proof.
  intros (props & -> & _ & Hall). unfold _isValidLockObject. simpl. f_equal.
  induction Hall as [|[k v] props (ps & _ & _ & Hv) _ IH]; [reflexivity|].
  simpl in *. now rewrite Hv.
Qed.

(** What [_isLockObjectEntry] accepts has the shape of an entry. *)
Lemma valid_entry_shaped (e : json) : _isLockObjectEntry (Some e) = true → entry_shaped e.
Proof.
  unfold _isLockObjectEntry, t_isObject, entry_shaped, js_get. intros Hvalid.
  destruct e; try discriminate; (split; [exact I|]).
  all: destruct (Object_entries _) as [own|] eqn:Hown; [|discriminate].
  all: rewrite forallb_app in Hvalid; apply andb_prop in Hvalid as [Hspec Hkeys].
  all: split.
  1, 3: simpl in Hspec.
  1, 2: destruct (assoc_get "fileName" own) as [[]|]; try discriminate.
  1, 2: destruct (assoc_get "sha512" own) as [[]|]; try discriminate.
  1, 2: eauto.
  all: intros own' k [= <-] Hin.
  all: rewrite forallb_forall in Hkeys; specialize (Hkeys k Hin).
  all: destruct (decide (k = "constructor" ∨ k = "__proto__")); [discriminate|].
  all: simpl in Hkeys.
  all: destruct (decide (k = "fileName")); [auto|].
  all: destruct (decide (k = "sha512")); [auto | discriminate].
Qed.

Lemma all_lock_entries_false (entries : list (string * json)) (k : string) (e : json) :
  (k, e) ∈ entries → _isLockObjectEntry (Some e) = false → all_lock_entries entries = false.
Proof.
  intros Hin Hbad. induction entries as [|[k' e'] entries IH]; [inversion Hin|].
  cbn [all_lock_entries]. apply elem_of_cons in Hin as [Heq|Hin].
  - inversion Heq; subst. now rewrite Hbad.
  - destruct (_isLockObjectEntry (Some e')); [cbn [negb]; auto | reflexivity].
Qed.

(** The empty object is a manifest, and an assignment of a fresh entry to a
    manifest gives a manifest: what successful fetches build is one. *)
Lemma lock_manifest_empty : lock_manifest (JObject []).
Proof. exists []. repeat split; constructor. Qed.

Lemma NoDup_assoc_set {A} (k : string) (v : A) (l : list (string * A)) :
  NoDup (map fst l) → NoDup (map fst (assoc_set k v l)).
Proof.
  induction l as [|[k' v'] l IH]; intros Hnd; simpl.
  - apply NoDup_singleton.
  - simpl in Hnd. apply NoDup_cons in Hnd as [Hk' Hnd].
    destruct (decide (k = k')) as [->|Hne]; simpl.
    + apply NoDup_cons. auto.
    + apply NoDup_cons. split; [|auto].
      intros Hin. apply list_elem_of_In, in_map_iff in Hin as ([k1 v1] & Hk1 & Hin).
      simpl in Hk1. subst k1. apply Hk'. apply list_elem_of_In, in_map_iff.
      clear IH Hnd Hk'. induction l as [|[k2 v2] l IHl]; simpl in Hin.
      * destruct Hin as [[= -> _]|[]]. contradiction.
      * destruct (decide (k = k2)) as [->|Hk2].
        -- destruct Hin as [[= -> _]|Hin]; [contradiction|].
           exists (k', v1). split; [reflexivity | now right].
        -- destruct Hin as [[= -> ->]|Hin]; [exists (k', v1); split; [reflexivity | now left]|].
           destruct (IHl Hin) as (x & Hx & Hxin). exists x. split; [assumption | now right].
Qed.

Lemma Forall_assoc_set {A} (P : string * A → Prop) (k : string) (v : A)
    (l : list (string * A)) :
  P (k, v) → Forall P l → Forall P (assoc_set k v l).
Proof.
  intros Hv Hall. induction Hall as [|[k' v'] l Hx Hall IH]; simpl.
  - repeat constructor. assumption.
  - destruct (decide (k = k')); constructor; assumption.
Qed.

Lemma entry_object_valid (e : _LockObjectEntry) : valid_entry_object (entry_object e).
Proof.
  exists [("fileName", JString (fileName e)); ("sha512", JString (sha512 e))].
  split; [reflexivity|]. split; [|reflexivity].
  apply NoDup_cons. split; [|apply NoDup_singleton].
  intros [=]%list_elem_of_singleton.
Qed.

Lemma lock_manifest_set (o o' : json) (url : string) (e : _LockObjectEntry) :
  lock_manifest o → js_set o url (entry_object e) = Ok o' → lock_manifest o'.
Proof.
  intros (props & -> & Hnd & Hall) [= <-].
  exists (assoc_set url (entry_object e) props). split; [reflexivity|].
  split; [now apply NoDup_assoc_set|].
  apply (Forall_assoc_set (fun kv => valid_entry_object (snd kv))); [|assumption].
  apply entry_object_valid.
Qed.

(** ** The shape of parsed values *)

Lemma parsed_shape_object (props : list (string * json)) :
  parsed_shape (JObject props)
  ↔ NoDup (map fst props) ∧ Forall (fun kv => parsed_shape (snd kv)) props.
Proof.
  cbn [parsed_shape]. apply and_iff_compat_l.
  induction props as [|kv props IH]; [split; auto|].
  rewrite Forall_cons, IH. reflexivity.
Qed.

Lemma parsed_shape_array (elems : list json) (extra : list (string * json)) :
  parsed_shape (JArray elems extra) ↔ extra = [] ∧ Forall parsed_shape elems.
Proof.
  cbn [parsed_shape]. apply and_iff_compat_l.
  induction elems as [|x elems IH]; [split; auto|].
  rewrite Forall_cons, IH. reflexivity.
Qed.

Lemma Forall_assoc_set_acc {A} (P : string * A → Prop) (l acc : list (string * A)) :
  Forall P acc → Forall P l →
  Forall P (fold_left (fun a kv => assoc_set (fst kv) (snd kv) a) l acc).
Proof.
  intros Hacc Hl. revert acc Hacc. induction Hl as [|[k v] l Hkv Hl IH]; intros acc Hacc.
  - exact Hacc.
  - cbn [fold_left]. apply IH. now apply Forall_assoc_set.
Qed.

Lemma NoDup_object_of_members (ms : list (string * json)) :
  NoDup (map fst (object_of_members ms)).
Proof.
  unfold object_of_members.
  assert (Hgen : ∀ acc, NoDup (map fst acc) →
            NoDup (map fst (fold_left (fun a kv => assoc_set (fst kv) (snd kv) a) ms acc))).
  { induction ms as [|[k v] ms IH]; intros acc Hacc; [exact Hacc|].
    cbn [fold_left]. apply IH. now apply NoDup_assoc_set. }
  apply Hgen. constructor.
Qed.

Lemma parsed_shape_members (ms : list (string * json)) :
  Forall (fun kv => parsed_shape (snd kv)) ms →
  parsed_shape (JObject (object_of_members ms)).
Proof.
  intros Hms. apply parsed_shape_object. split; [apply NoDup_object_of_members|].
  unfold object_of_members. apply Forall_assoc_set_acc; auto.
Qed.

(** What the parser returns has the shape above: by induction on the fuel,
    for values, members and elements together. *)
Lemma parse_shape (fuel : nat) :
  (∀ s v r, parse_value fuel s = Some (v, r) → parsed_shape v)
  ∧ (∀ s ms r, parse_members fuel s = Some (ms, r) →
               Forall (fun kv => parsed_shape (snd kv)) ms)
  ∧ (∀ s es r, parse_elements fuel s = Some (es, r) → Forall parsed_shape es).
Proof.
  induction fuel as [|fuel (IHv & IHm & IHe)]; [repeat split; discriminate|].
  split; [|split].
  - intros s v r Hp. cbn [parse_value] in Hp.
    destruct s as [|c rest]; [discriminate|].
    repeat match type of Hp with
           | (if ?b then _ else _) = _ => destruct b
           end.
    + destruct (skip_ws rest) as [|c' r'] eqn:Hws.
      * destruct (parse_members fuel "") as [[ms r0]|] eqn:Hm; [|discriminate].
        injection Hp as <- <-. apply parsed_shape_members. eauto.
      * destruct (Ascii.eqb c' "}") eqn:Hc.
        -- apply Ascii.eqb_eq in Hc as ->. injection Hp as <- <-.
           apply parsed_shape_object. split; constructor.
        -- assert (Hp' : match parse_members fuel (String c' r') with
                         | Some (ms, r0) => Some (JObject (object_of_members ms), r0)
                         | None => None
                         end = Some (v, r)).
           { destruct c' as [[] [] [] [] [] [] [] []]; first [discriminate Hc | exact Hp]. }
           destruct (parse_members fuel (String c' r')) as [[ms r0]|] eqn:Hm; [|discriminate].
           injection Hp' as <- <-. apply parsed_shape_members. eauto.
    + destruct (skip_ws rest) as [|c' r'] eqn:Hws.
      * destruct (parse_elements fuel "") as [[es r0]|] eqn:He; [|discriminate].
        injection Hp as <- <-. apply parsed_shape_array. eauto.
      * destruct (Ascii.eqb c' "]") eqn:Hc.
        -- apply Ascii.eqb_eq in Hc as ->. injection Hp as <- <-.
           apply parsed_shape_array. split; [reflexivity | constructor].
        -- assert (Hp' : match parse_elements fuel (String c' r') with
                         | Some (es, r0) => Some (JArray es [], r0)
                         | None => None
                         end = Some (v, r)).
           { destruct c' as [[] [] [] [] [] [] [] []]; first [discriminate Hc | exact Hp]. }
           destruct (parse_elements fuel (String c' r')) as [[es r0]|] eqn:He; [|discriminate].
           injection Hp' as <- <-. apply parsed_shape_array. eauto.
    + destruct (parse_string_body rest) as [[t r0]|]; [|discriminate].
      injection Hp as <- <-. exact I.
    + match type of Hp with match ?x with _ => _ end = _ => destruct x end; [|discriminate].
      injection Hp as <- <-. exact I.
    + match type of Hp with match ?x with _ => _ end = _ => destruct x end; [|discriminate].
      injection Hp as <- <-. exact I.
    + match type of Hp with match ?x with _ => _ end = _ => destruct x end; [|discriminate].
      injection Hp as <- <-. exact I.
    + destruct (parse_number (String c rest)) as [[l r0]|]; [|discriminate].
      injection Hp as <- <-. exact I.
  - intros s ms r Hp. cbn [parse_members] in Hp.
    destruct s as [|c rest]; [discriminate|].
    destruct (Ascii.eqb c DQUOTE); [|discriminate].
    destruct (parse_string_body rest) as [[k r1]|]; [|discriminate].
    destruct (skip_ws r1) as [|c1 r2]; [discriminate|].
    destruct (Ascii.eqb c1 ":") eqn:Hc1;
      [apply Ascii.eqb_eq in Hc1 as ->
      | destruct c1 as [[] [] [] [] [] [] [] []]; first [discriminate Hc1 | discriminate Hp]].
    destruct (parse_value fuel (skip_ws r2)) as [[v r3]|] eqn:Hv; [|discriminate].
    destruct (skip_ws r3) as [|c3 r4]; [discriminate|].
    destruct (Ascii.eqb c3 ",") eqn:Hc3.
    + apply Ascii.eqb_eq in Hc3 as ->.
      destruct (parse_members fuel (skip_ws r4)) as [[ms' r5]|] eqn:Hm; [|discriminate].
      injection Hp as <- <-. constructor; eauto.
    + destruct (Ascii.eqb c3 "}") eqn:Hc3'.
      * apply Ascii.eqb_eq in Hc3' as ->. injection Hp as <- <-.
        constructor; [eauto | constructor].
      * destruct c3 as [[] [] [] [] [] [] [] []];
          first [discriminate Hc3 | discriminate Hc3' | discriminate Hp].
  - intros s es r Hp. cbn [parse_elements] in Hp.
    destruct (parse_value fuel s) as [[v r1]|] eqn:Hv; [|discriminate].
    destruct (skip_ws r1) as [|c1 r2]; [discriminate|].
    destruct (Ascii.eqb c1 ",") eqn:Hc1.
    + apply Ascii.eqb_eq in Hc1 as ->.
      destruct (parse_elements fuel (skip_ws r2)) as [[es' r3]|] eqn:He; [|discriminate].
      injection Hp as <- <-. constructor; eauto.
    + destruct (Ascii.eqb c1 "]") eqn:Hc1'.
      * apply Ascii.eqb_eq in Hc1' as ->. injection Hp as <- <-.
        constructor; [eauto | constructor].
      * destruct c1 as [[] [] [] [] [] [] [] []];
          first [discriminate Hc1 | discriminate Hc1' | discriminate Hp].
Qed.

Lemma JSON_parse_shape (text : string) (v : json) :
  JSON_parse text = Some v → parsed_shape v.
Proof.
  unfold JSON_parse. intros Hp.
  destruct (parse_value (S (String.length text)) (skip_ws text)) as [[v' r]|] eqn:Hv;
    [|discriminate].
  destruct (skip_ws r); [|discriminate]. injection Hp as <-.
  eapply (proj1 (parse_shape _)). exact Hv.
Qed.

(** No index of an array is called [fileName]. *)
Lemma index_key_fileName (i : nat) : index_key i ≠ "fileName".
Proof.
  unfold index_key. destruct (Nat.to_uint i); discriminate.
Qed.

Lemma assoc_get_indexed {A} (k : string) (l : list A) :
  (∀ i, index_key i ≠ k) → assoc_get k (indexed l) = None.
Proof.
  unfold indexed. generalize index_key as key. intros key Hkey. revert key Hkey.
  induction l as [|x l IH]; intros key Hkey; [reflexivity|].
  cbn [imap assoc_get]. destruct (decide (k = key 0)) as [->|_].
  - now destruct (Hkey 0).
  - apply (IH (key ∘ S)). intros i. apply Hkey.
Qed.

(** An entry that was parsed and passes the type guard is a plain object. *)
Lemma parsed_entry_valid (v : json) :
  parsed_shape v → _isLockObjectEntry (Some v) = true → valid_entry_object v.
Proof.
  intros Hshape Hvalid. destruct v as [| | | |elems extra|ps]; try discriminate.
  - apply parsed_shape_array in Hshape as [-> _]. exfalso.
    cbv [_isLockObjectEntry t_isObject Object_entries] in Hvalid.
    rewrite app_nil_r in Hvalid. cbn [map fst app forallb] in Hvalid.
    rewrite (assoc_get_indexed "fileName" elems index_key_fileName) in Hvalid.
    apply andb_prop in Hvalid as [Hvalid _].
    destruct (decide ("fileName" = "constructor" ∨ "fileName" = "__proto__")) as [[|]|];
      discriminate.
  - apply parsed_shape_object in Hshape as [Hnd _]. now exists ps.
Qed.




(** ** Text codecs *)

Lemma text_decode_encode (text : string) :
  (∀ r, text ≠ String "239" r) →
  TextDecoder_decode (TextEncoder_encode text) = text.
Proof.
  intros Hhead. unfold TextDecoder_decode, TextEncoder_encode.
  destruct text as [|c r]; [reflexivity|].
  assert (Hc : byte_of_ascii c ≠ xef).
  { intros Heq. apply (Hhead r). f_equal.
    rewrite <- (ascii_of_byte_of_ascii c), Heq. reflexivity. }
  assert (Hl : list_byte_of_string (String c r) = byte_of_ascii c :: list_byte_of_string r)
    by reflexivity.
  assert (Hs : string_of_list_byte (list_byte_of_string (String c r)) = String c r)
    by apply string_of_list_byte_of_string.
  rewrite Hl in *. destruct (byte_of_ascii c); try exact Hs. congruence.
Qed.

Lemma serialize_object_head (indent : string) (props : list (string * json)) :
  ∃ r, serialize indent (JObject props) = String "{" r.
Proof. destruct props; simpl; eauto. Qed.

(** ** The file system *)

Lemma lookup_path_throws (fs : gmap string (gmap string node)) (p : path) (e : Exception) :
  lookup_path fs p = Throw e → e = Deno NotFound.
Proof.
  unfold lookup_path.
  destruct (fs !! path_dir p) as [entries|]; [|congruence].
  destruct (is_directory_name (path_name p)); [congruence|].
  destruct (has_slash (path_name p)); [congruence|].
  destruct (entries !! path_name p); congruence.
Qed.

Lemma read_file_throws (fs : gmap string (gmap string node)) (p : path) (e : Exception) :
  read_file fs p = Throw e → ∃ d, e = Deno d.
Proof.
  unfold read_file.
  destruct (lookup_path fs p) as [[data| |d]|e'] eqn:Hl; intros Hr; inversion Hr; subst; eauto.
  apply lookup_path_throws in Hl. eauto.
Qed.

Lemma read_after_write (fs fs' : gmap string (gmap string node)) (p : path) (data : list byte) :
  write_file fs p data = Ok fs' → read_file fs' p = Ok data.
Proof.
  unfold write_file, read_file, lookup_path. intros Hw.
  destruct (fs !! path_dir p) as [entries|] eqn:Hdir; [|discriminate].
  destruct (is_directory_name (path_name p)) eqn:Hname; [discriminate|].
  destruct (has_slash (path_name p)) eqn:Hslash; [discriminate|].
  assert (fs' = <[path_dir p := <[path_name p := File data]> entries]> fs) as ->.
  { destruct (entries !! path_name p) as [[]|]; inversion Hw; reflexivity. }
  rewrite lookup_insert_eq, lookup_insert_eq. reflexivity.
Qed.

Lemma make_directory_lookup (fs : gmap string (gmap string node)) (dir : string) :
  ∃ entries, make_directory fs dir !! dir = Some entries
             ∧ (fs !! dir = None → entries = ∅)
             ∧ (∀ e, fs !! dir = Some e → entries = e).
Proof.
  unfold make_directory. destruct (fs !! dir) as [e|] eqn:Hdir.
  - exists e. rewrite Hdir. repeat split; congruence.
  - exists ∅. rewrite lookup_insert_eq. repeat split; congruence.
Qed.

Lemma write_after_mkdir (fs : gmap string (gmap string node)) (dir name : string)
    (data : list byte) :
  can_store fs dir name →
  ∃ entries,
    make_directory fs dir !! dir = Some entries
    ∧ after_write (make_directory fs dir) (resolve dir name) data
      = <[dir := <[name := File data]> entries]> (make_directory fs dir).
Proof.
  intros (Hname & Hslash & Hnode).
  destruct (make_directory_lookup fs dir) as (entries & Hdir & Hnew & Hold).
  exists entries. split; [assumption|].
  unfold after_write, write_file, lookup_path. cbn [resolve path_dir path_name].
  rewrite Hdir, Hname, Hslash.
  destruct (entries !! name) as [nd|] eqn:Hnd; [|reflexivity].
  destruct (fs !! dir) as [e|] eqn:Hfs.
  - rewrite (Hold e eq_refl) in Hnd. destruct (Hnode e nd eq_refl Hnd) as [d ->]. reflexivity.
  - rewrite (Hnew eq_refl) in Hnd. rewrite lookup_empty in Hnd. discriminate.
Qed.

Lemma read_written (fs : gmap string (gmap string node)) (dir name : string)
    (entries : gmap string node) (data : list byte) :
  is_directory_name name = false → has_slash name = false →
  read_file (<[dir := <[name := File data]> entries]> fs) (resolve dir name) = Ok data.
Proof.
  intros Hname Hslash. unfold read_file, lookup_path. cbn [resolve path_dir path_name].
  rewrite lookup_insert_eq, Hname, Hslash, lookup_insert_eq. reflexivity.
Qed.

Lemma can_store_written (fs : gmap string (gmap string node)) (dir name : string)
    (entries : gmap string node) (data : list byte) :
  is_directory_name name = false → has_slash name = false →
  can_store (<[dir := <[name := File data]> entries]> fs) dir name.
Proof.
  intros Hname Hslash. repeat split; try assumption.
  intros e nd. rewrite lookup_insert_eq. intros [= <-].
  rewrite lookup_insert_eq. intros [= <-]. eauto.
Qed.

(** ** [posix.basename] *)

Lemma take_component_no_slash (l : list ascii) : existsb is_slash (take_component l) = false.
Proof.
  induction l as [|c l IH]; [reflexivity|].
  simpl. destruct (is_slash c) eqn:Hc; [reflexivity|]. simpl. now rewrite Hc.
Qed.

Lemma existsb_rev {A} (f : A → bool) (l : list A) : existsb f (rev l) = existsb f l.
Proof.
  induction l as [|x l IH]; [reflexivity|].
  simpl. rewrite existsb_app, IH. simpl. rewrite orb_false_r. apply orb_comm.
Qed.

Lemma basename_no_slash (p : string) : has_slash (posix_basename p) = false.
Proof.
  unfold has_slash, posix_basename.
  rewrite list_ascii_of_string_of_list_ascii, existsb_rev.
  apply take_component_no_slash.
Qed.

Lemma drop_slashes_plain (l : list ascii) :
  existsb is_slash l = false → drop_slashes l = l.
Proof. destruct l as [|c l]; [reflexivity|]. simpl. now intros [-> _]%orb_false_elim. Qed.

Lemma take_component_plain (l : list ascii) :
  existsb is_slash l = false → take_component l = l.
Proof.
  induction l as [|c l IH]; [reflexivity|].
  simpl. intros [-> Hl]%orb_false_elim. now rewrite IH.
Qed.

(** The name of a directory entry is its own base name. *)
Lemma basename_plain (n : string) : has_slash n = false → basename n = n.
Proof.
  unfold has_slash, basename, posix_basename. intros Hn.
  rewrite drop_slashes_plain, take_component_plain by now rewrite existsb_rev.
  now rewrite rev_involutive, string_of_list_ascii_of_string.
Qed.

(** ** Running the monad *)

Ltac js_run :=
  cbv [loadFormatterFromUrl load_cached download writeLockFile cleanCacheDir
       bind ret throw try_catch gets modify of_result unawaited in_world
       Deno_readFile Deno_writeFile Deno_mkdir Deno_readDir Deno_remove fetch console
       createFromBuffer Formatter_formatText _resolve].

Ltac js_run_in H :=
  cbv [loadFormatterFromUrl load_cached download writeLockFile cleanCacheDir
       bind ret throw try_catch gets modify of_result unawaited in_world
       Deno_readFile Deno_writeFile Deno_mkdir Deno_readDir Deno_remove fetch console
       createFromBuffer Formatter_formatText _resolve] in H.

Ltac js_simpl :=
  cbv [record_event set_directories set_lockObject set_formatter];
  cbn [world this directories remote trace allocated cacheDir lockFilePath lockObject
       formatters fst snd].

(** Case analysis on the innermost scrutinee of a hypothesis. *)
Ltac break_inner H :=
  match type of H with
  | context [match ?x with _ => _ end] =>
      lazymatch x with
      | context [match _ with _ => _ end] => fail
      | _ => let E := fresh "E" in destruct x eqn:E
      end
  end.

Ltac js_cases H :=
  js_run_in H; revert H; js_simpl; intros H;
  repeat (break_inner H; try discriminate; revert H; js_simpl; intros H).

(** ** The lock store: [_getLockObject] and [writeLockFile] *)

(** Every path through [_getLockObject]. *)
Lemma getLockObject_unfold (p : path) (w : World) :
  _getLockObject p w
  = let w1 := record_event (EvReadFile p) w in
    match read_file (directories w) p with
    | Throw _ => (Ok (JObject []), w1)
    | Ok bytes =>
        match JSON_parse (TextDecoder_decode bytes) with
        | None => (Ok (JObject []), record_event (EvConsole error_level corrupted_message) w1)
        | Some v =>
            match _isValidLockObject v with
            | Ok true => (Ok v, w1)
            | Ok false =>
                (Ok (JObject []), record_event (EvConsole error_level corrupted_message) w1)
            | Throw _ => (Ok (JObject []), w1)
            end
        end
    end.
Proof.
  cbv [_getLockObject try_catch bind Deno_readFile modify gets of_result ret throw console].
  change (directories (record_event (EvReadFile p) w)) with (directories w).
  destruct (read_file (directories w) p) as [bytes|e] eqn:Hread.
  - destruct (JSON_parse (TextDecoder_decode bytes)) as [v|]; [|reflexivity].
    destruct (_isValidLockObject v) as [[|]|e] eqn:Hvalid; try reflexivity.
    unfold _isValidLockObject in Hvalid.
    destruct (Object_entries v) eqn:Hent; [discriminate|].
    destruct v; try discriminate. simpl in Hent. inversion Hent; subst.
    inversion Hvalid; subst. reflexivity.
  - apply read_file_throws in Hread as [d ->]. reflexivity.
Qed.

(** What [_getLockObject] returns, when it is a plain object, is a
    manifest. *)
Lemma loaded_manifest (p : path) (w : World) (props : list (string * json)) :
  fst (_getLockObject p w) = Ok (JObject props) → lock_manifest (JObject props).
Proof.
  rewrite getLockObject_unfold. cbv zeta.
  destruct (read_file (directories w) p) as [bytes|e];
    [|intros [= <-]; apply lock_manifest_empty].
  destruct (JSON_parse (TextDecoder_decode bytes)) as [v|] eqn:Hparse;
    [|intros [= <-]; apply lock_manifest_empty].
  destruct (_isValidLockObject v) as [[|]|e] eqn:Hvalid;
    try (intros [= <-]; apply lock_manifest_empty).
  cbn [fst]. intros [= ->].
  apply JSON_parse_shape, parsed_shape_object in Hparse as [Hnd Hshape].
  exists props. split; [reflexivity|]. split; [exact Hnd|].
  injection Hvalid as Hall. clear Hnd.
  induction Hshape as [|[k e] props He Hshape IH]; [constructor|].
  cbn [all_lock_entries] in Hall.
  destruct (_isLockObjectEntry (Some e)) eqn:Hentry; [|discriminate].
  constructor; [|now apply IH]. now apply parsed_entry_valid.
Qed.

Section LockStore.
Context `{Platform}.

(** C1.  A manifest that [writeLockFile] has written, with a renderer that
    only reformats or with none, is what [_getLockObject] then loads from
    the lock file.  The manifests of the statement are those of
    [lock_manifest]: every plain object that the load returns is one
    ([loaded_manifest]) and every resolve keeps it one
    ([resolve_keeps_manifest]). *)
Theorem persist_then_load (s s' : Session) (renderer : option Formatter) :
  lock_manifest (lockObject (this s)) →
  renderer_keeps_json renderer (path_string (lockFilePath (this s)))
    (JSON_stringify (lockObject (this s))) →
  writeLockFile renderer s = (Ok tt, s') →
  fst (_getLockObject (lockFilePath (this s')) (world s')) = Ok (lockObject (this s)).
Proof.
  intros Hman Hrender Hwrite.
  set (o := lockObject (this s)) in *.
  set (target := lockFilePath (this s)) in *.
  assert (Htext : ∃ text fs',
             JSON_parse (TextDecoder_decode (TextEncoder_encode text)) = Some o
             ∧ write_file (directories (world s)) target (TextEncoder_encode text) = Ok fs'
             ∧ directories (world s') = fs' ∧ lockFilePath (this s') = target).
  { cbv [writeLockFile bind gets in_world Deno_writeFile modify of_result ret
           Formatter_formatText throw] in Hwrite.
    fold o target in Hwrite.
    destruct renderer as [f|].
    - simpl in Hrender.
      destruct (plugin_formatText (formatter_wasm f) (path_string target) (JSON_stringify o))
        as [out|] eqn:Hout; [|discriminate].
      cbn [directories record_event world] in Hwrite.
      destruct (write_file (directories (world s)) target (TextEncoder_encode out))
        as [fs'|] eqn:Hw; inversion Hwrite; subst.
      exists out, fs'. repeat split; try assumption.
      rewrite (Hrender out eq_refl). now apply JSON_parse_stringify, lock_manifest_parses_back.
    - cbn [directories record_event world] in Hwrite.
      destruct (write_file (directories (world s)) target
                  (TextEncoder_encode (JSON_stringify o))) as [fs'|] eqn:Hw;
        inversion Hwrite; subst.
      exists (JSON_stringify o), fs'. repeat split; try assumption.
      rewrite text_decode_encode.
      + now apply JSON_parse_stringify, lock_manifest_parses_back.
      + destruct Hman as (props & Ho & _). rewrite Ho.
        destruct (serialize_object_head "" props) as [r Hr].
        unfold JSON_stringify. rewrite Hr. intros r'. discriminate. }
  destruct Htext as (text & fs' & Hparse & Hw & Hfs & Hpath).
  rewrite getLockObject_unfold, Hpath, Hfs, (read_after_write _ _ _ _ Hw). cbv zeta.
  rewrite Hparse, (lock_manifest_valid o Hman). reflexivity.
Qed.

End LockStore.

(** The recovery, where [_isValidLockObject] sees the defect.  A lock file
    that is no JSON text, or that has an entry which is not an object with
    exactly a string [fileName] and a string [sha512], or that
    [_isValidLockObject] refuses, loads as the empty manifest; nothing is
    thrown.  [_isValidLockObject] looks at the entries only: what it makes
    of a document that is no object is [non_object_document_is_loaded]. *)
Theorem load_malformed_gives_empty (w : World) (p : path) (bytes : list byte) :
  read_file (directories w) p = Ok bytes →
  (JSON_parse (TextDecoder_decode bytes) = None
   ∨ (∃ v entries k e,
        JSON_parse (TextDecoder_decode bytes) = Some v
        ∧ Object_entries v = Ok entries ∧ (k, e) ∈ entries ∧ ¬ entry_shaped e)
   ∨ (∃ v, JSON_parse (TextDecoder_decode bytes) = Some v
           ∧ _isValidLockObject v ≠ Ok true)) →
  fst (_getLockObject p w) = Ok (JObject []).
Proof.
  intros Hread Hbad. rewrite getLockObject_unfold, Hread. cbv zeta.
  destruct Hbad as [Hparse | [(v & entries & k & e & Hparse & Hent & Hin & Hshape) | (v & Hparse & Hinv)]];
    rewrite Hparse; [reflexivity | |].
  - unfold _isValidLockObject. rewrite Hent.
    rewrite (all_lock_entries_false entries k e Hin); [reflexivity|].
    destruct (_isLockObjectEntry (Some e)) eqn:Hv; [|reflexivity].
    exfalso. apply Hshape. now apply valid_entry_shaped.
  - destruct (_isValidLockObject v) as [[|]|]; [congruence | reflexivity | reflexivity].
Qed.

(** C3, as the code has it.  Whatever makes the read of the lock file fail,
    a missing file or any other failure, [_getLockObject] returns the empty
    manifest; it logs nothing and throws nothing. *)
Theorem load_swallows_io_failure (w : World) (p : path) (e : Exception) :
  read_file (directories w) p = Throw e →
  _getLockObject p w = (Ok (JObject []), record_event (EvReadFile p) w).
Proof. intros Hread. now rewrite getLockObject_unfold, Hread. Qed.

(** ** Plugin resolution: [loadFormatterFromUrl] *)

Section Resolve.
Context `{Platform}.

Lemma download_ok (url fileName : string) (response : Response) (o' : json) (s : Session) :
  remote (world s) !! url = Some response →
  wasm_instantiable (body response) = true →
  js_set (lockObject (this s)) url
    (entry_object {| fileName := fileName; sha512 := _hashSha512 (body response) |}) = Ok o' →
  download url fileName s
  = (Ok (fst (downloaded url fileName response o' s)), snd (downloaded url fileName response o' s)).
Proof.
  intros Hremote Hwasm Hset. js_run. js_simpl.
  rewrite Hremote, Hwasm. js_simpl. rewrite Hset. js_simpl.
  unfold downloaded, after_write. js_simpl.
  destruct (write_file _ _ _); js_simpl; rewrite <- !app_assoc; reflexivity.
Qed.

(** A URL that is neither loaded nor in the lock object is downloaded. *)
Lemma resolve_unknown (s : Session) (url name : string)
    (props : list (string * json)) (response : Response) :
  formatters (this s) !! url = None →
  _urlToFileName url = Ok name →
  lockObject (this s) = JObject props →
  assoc_get url props = None →
  remote (world s) !! url = Some response →
  wasm_instantiable (body response) = true →
  let o' := JObject (assoc_set url
                       (entry_object {| fileName := name;
                                        sha512 := _hashSha512 (body response) |}) props) in
  loadFormatterFromUrl url s
  = (Ok (fst (downloaded url name response o' s)), snd (downloaded url name response o' s)).
Proof.
  intros Hnew Hname Hobj Hget Hremote Hwasm o'.
  cbv [loadFormatterFromUrl bind gets of_result ret].
  rewrite Hnew, Hname, Hobj. cbn [js_get Object_entries]. rewrite Hget.
  cbn [as_lock_entry]. apply download_ok; try assumption.
  rewrite Hobj. reflexivity.
Qed.

(** C4.  The lock object has an entry for the URL and the file that the
    entry names is missing.  The [try] block ends in its [NotFound] handler,
    which deletes the entry: in the state [s1] that it leaves, where nothing
    has been fetched yet, the lock object has no entry for the URL and every
    other entry as before.  From there the URL is fetched, once, the module
    is instantiated, and the lock object gets the entry with the derived
    name and the hash of the fetched bytes, which are also the bytes of the
    one write, to the file of that name.  The entry is a new property of the
    lock object: it comes after the entries of the other URLs, which keep
    their order.  (The keys of [props] are distinct, as the keys of any
    object.) *)
Theorem resolve_missing_artifact (s : Session) (url name : string)
    (props : list (string * json)) (v : json) (entry : _LockObjectEntry)
    (response : Response) :
  formatters (this s) !! url = None →
  _urlToFileName url = Ok name →
  lockObject (this s) = JObject props →
  NoDup (map fst props) →
  assoc_get url props = Some v →
  as_lock_entry (Some v) = Some entry →
  read_file (directories (world s)) (resolve (cacheDir (this s)) (fileName entry))
    = Throw (Deno NotFound) →
  remote (world s) !! url = Some response →
  wasm_instantiable (body response) = true →
  ∃ f s1 s',
    load_cached url entry s = (Ok None, s1)
    ∧ download url name s1 = (Ok f, s')
    ∧ loadFormatterFromUrl url s = (Ok f, s')
    ∧ lockObject (this s1) = JObject (assoc_delete url props)
    ∧ js_get (lockObject (this s1)) url = Ok None
    ∧ (∀ other, other ≠ url →
         js_get (lockObject (this s1)) other = js_get (lockObject (this s)) other)
    ∧ fetched (trace (world s1)) = fetched (trace (world s))
    ∧ formatter_wasm f = body response
    ∧ lockObject (this s')
      = JObject (assoc_set url
                   (entry_object {| fileName := name;
                                    sha512 := _hashSha512 (body response) |})
                   (assoc_delete url props))
    ∧ lockObject (this s')
      = JObject (filter (fun kv => fst kv ≠ url) props
                   ++ [(url, entry_object {| fileName := name;
                                             sha512 := _hashSha512 (body response) |})])
    ∧ trace (world s')
      = trace (world s)
          ++ [EvReadFile (resolve (cacheDir (this s)) (fileName entry));
              EvFetch url;
              EvInstantiate (body response);
              EvMkdir (cacheDir (this s));
              EvWriteFile (resolve (cacheDir (this s)) name) (body response)]
    ∧ fetched (trace (world s')) = fetched (trace (world s)) ++ [url]
    ∧ directories (world s')
      = after_write (make_directory (directories (world s)) (cacheDir (this s)))
          (resolve (cacheDir (this s)) name) (body response).
Proof.
  intros Hnew Hname Hobj Hnd Hget Hentry Hread Hremote Hwasm.
  pose proof (assoc_get_delete_eq url props Hnd) as Hgone.
  eexists _, _, _. split; [|split; [|split]].
  - js_run. js_simpl. rewrite Hread. js_simpl. rewrite Hobj. cbn [js_delete]. js_simpl.
    reflexivity.
  - js_run. js_simpl. rewrite Hremote, Hwasm. js_simpl. cbn [js_set]. js_simpl.
    reflexivity.
  - js_run. js_simpl.
    rewrite Hnew, Hname, Hobj. cbn [js_get Object_entries]. rewrite Hget, Hentry.
    js_simpl. rewrite Hread.
    js_simpl. rewrite Hobj. cbn [js_delete]. js_simpl.
    rewrite Hremote, Hwasm. js_simpl. cbn [js_set].
    js_simpl. reflexivity.
  - js_simpl. rewrite Hobj. cbn [js_get Object_entries].
    split; [reflexivity|]. split; [now rewrite Hgone|].
    split; [intros other Hother; now rewrite assoc_get_delete_ne|].
    split; [unfold fetched; rewrite omap_app; cbn; apply app_nil_r|].
    rewrite <- !app_assoc. unfold after_write, fetched.
    rewrite <- (assoc_delete_filter url props Hnd).
    rewrite <- (assoc_set_fresh url _ (assoc_delete url props))
      by now apply assoc_get_None.
    destruct (write_file _ _ _); js_simpl; rewrite omap_app; repeat split; reflexivity.
Qed.

(** C5.  The file that the entry names is there and its hash is not the
    recorded one: a warning is logged, the URL is fetched, the only module
    instantiated is the fetched one, and the entry of the URL gets the
    derived name and the hash of the fetched bytes. *)
Theorem resolve_checksum_mismatch (s : Session) (url name : string)
    (props : list (string * json)) (v : json) (entry : _LockObjectEntry)
    (stale : list byte) (response : Response) :
  formatters (this s) !! url = None →
  _urlToFileName url = Ok name →
  lockObject (this s) = JObject props →
  assoc_get url props = Some v →
  as_lock_entry (Some v) = Some entry →
  read_file (directories (world s)) (resolve (cacheDir (this s)) (fileName entry)) = Ok stale →
  _hashSha512 stale ≠ sha512 entry →
  remote (world s) !! url = Some response →
  wasm_instantiable (body response) = true →
  ∃ f s',
    loadFormatterFromUrl url s = (Ok f, s')
    ∧ formatter_wasm f = body response
    ∧ lockObject (this s')
      = JObject (assoc_set url
                   (entry_object {| fileName := name;
                                    sha512 := _hashSha512 (body response) |}) props)
    ∧ trace (world s')
      = trace (world s)
          ++ [EvReadFile (resolve (cacheDir (this s)) (fileName entry));
              EvConsole warn_level (mismatch_message (fileName entry));
              EvFetch url;
              EvInstantiate (body response);
              EvMkdir (cacheDir (this s));
              EvWriteFile (resolve (cacheDir (this s)) name) (body response)]
    ∧ fetched (trace (world s')) = fetched (trace (world s)) ++ [url]
    ∧ directories (world s')
      = after_write (make_directory (directories (world s)) (cacheDir (this s)))
          (resolve (cacheDir (this s)) name) (body response).
Proof.
  intros Hnew Hname Hobj Hget Hentry Hread Hhash Hremote Hwasm.
  eexists _, _. split.
  - js_run. js_simpl.
    rewrite Hnew, Hname, Hobj. cbn [js_get Object_entries]. rewrite Hget, Hentry.
    js_simpl. rewrite Hread.
    destruct (decide (_hashSha512 stale = sha512 entry)); [contradiction|].
    js_simpl. rewrite Hremote, Hwasm. js_simpl. rewrite Hobj. cbn [js_set].
    js_simpl. reflexivity.
  - js_simpl. rewrite <- !app_assoc. unfold mismatch_message, after_write, fetched.
    destruct (write_file _ _ _); js_simpl; rewrite omap_app; repeat split; reflexivity.
Qed.

(** C7.  The file that the entry names is there and has the recorded hash:
    its bytes are instantiated, the Formatter is stored under the URL and
    returned; the only operations are the read and the instantiation, and
    the lock object and the directories stay as they are. *)
Theorem resolve_cache_hit (s : Session) (url name : string)
    (props : list (string * json)) (v : json) (entry : _LockObjectEntry)
    (bytes : list byte) :
  formatters (this s) !! url = None →
  _urlToFileName url = Ok name →
  lockObject (this s) = JObject props →
  assoc_get url props = Some v →
  as_lock_entry (Some v) = Some entry →
  read_file (directories (world s)) (resolve (cacheDir (this s)) (fileName entry)) = Ok bytes →
  _hashSha512 bytes = sha512 entry →
  wasm_instantiable bytes = true →
  ∃ f s',
    loadFormatterFromUrl url s = (Ok f, s')
    ∧ formatter_wasm f = bytes
    ∧ formatters (this s') !! url = Some f
    ∧ lockObject (this s') = lockObject (this s)
    ∧ directories (world s') = directories (world s)
    ∧ trace (world s')
      = trace (world s)
          ++ [EvReadFile (resolve (cacheDir (this s)) (fileName entry)); EvInstantiate bytes]
    ∧ fetched (trace (world s')) = fetched (trace (world s)).
Proof.
  intros Hnew Hname Hobj Hget Hentry Hread Hhash Hwasm.
  eexists _, _. split.
  - js_run. js_simpl.
    rewrite Hnew, Hname, Hobj. cbn [js_get Object_entries]. rewrite Hget, Hentry.
    js_simpl. rewrite Hread.
    destruct (decide (_hashSha512 bytes = sha512 entry)); [|contradiction].
    js_simpl. rewrite Hwasm. js_simpl. reflexivity.
  - js_simpl. rewrite lookup_insert_eq, <- app_assoc. unfold fetched.
    rewrite omap_app, app_nil_r. repeat split; reflexivity.
Qed.

Lemma load_cached_is_cached (url : string) (entry : _LockObjectEntry)
    (s s' : Session) (f : Formatter) :
  load_cached url entry s = (Ok (Some f), s') → formatters (this s') !! url = Some f.
Proof.
  intros Hload. js_cases Hload.
  all: inversion Hload; subst; js_simpl; apply lookup_insert_eq.
Qed.

Lemma download_is_cached (url name : string) (s s' : Session) (f : Formatter) :
  download url name s = (Ok f, s') → formatters (this s') !! url = Some f.
Proof.
  intros Hload. js_cases Hload.
  all: inversion Hload; subst; js_simpl; apply lookup_insert_eq.
Qed.

(** Whatever path a call takes, the Formatter it returns is the one stored
    under the URL when it returns. *)
Lemma loaded_is_cached (url : string) (s s' : Session) (f : Formatter) :
  loadFormatterFromUrl url s = (Ok f, s') → formatters (this s') !! url = Some f.
Proof.
  intros Hload.
  cbv [loadFormatterFromUrl bind gets of_result ret] in Hload.
  destruct (formatters (this s) !! url) as [f0|] eqn:Hold.
  - inversion Hload; subst. assumption.
  - destruct (_urlToFileName url) as [name|]; [|discriminate].
    destruct (js_get (lockObject (this s)) url) as [v|]; [|discriminate].
    destruct (as_lock_entry v) as [entry|].
    + destruct (load_cached url entry s) as [[[f1|]|] s1] eqn:Hcached.
      * inversion Hload; subst. eapply load_cached_is_cached; eassumption.
      * eapply download_is_cached; eassumption.
      * discriminate.
    + eapply download_is_cached; eassumption.
Qed.


(** C6.  After a call that returned a Formatter, a second call for the same
    URL returns that same Formatter and leaves the whole state, the trace of
    operations included, as it is. *)
Theorem resolve_twice (url : string) (s s' : Session) (f : Formatter) :
  loadFormatterFromUrl url s = (Ok f, s') →
  loadFormatterFromUrl url s' = (Ok f, s').
Proof.
  intros Hload. apply loaded_is_cached in Hload.
  js_run. rewrite Hload. reflexivity.
Qed.

(** A request that fails propagates, and the manager is left as it was. *)
Lemma resolve_network_error (s : Session) (url name : string) (props : list (string * json)) :
  formatters (this s) !! url = None →
  _urlToFileName url = Ok name →
  lockObject (this s) = JObject props →
  assoc_get url props = None →
  remote (world s) !! url = None →
  fst (loadFormatterFromUrl url s) = Throw NetworkError
  ∧ this (snd (loadFormatterFromUrl url s)) = this s.
Proof.
  intros Hnew Hname Hobj Hget Hremote.
  js_run. js_simpl. rewrite Hnew, Hname, Hobj. cbn [js_get Object_entries].
  rewrite Hget. cbn [as_lock_entry]. js_simpl. rewrite Hremote. js_simpl.
  split; [reflexivity | now destruct s as [w []]].
Qed.

(** An answer whose body is no module makes [createFromBuffer] throw: the
    exception propagates and the manager is left as it was. *)
Lemma resolve_rejects_invalid_module (s : Session) (url name : string)
    (props : list (string * json)) (response : Response) :
  formatters (this s) !! url = None →
  _urlToFileName url = Ok name →
  lockObject (this s) = JObject props →
  assoc_get url props = None →
  remote (world s) !! url = Some response →
  wasm_instantiable (body response) = false →
  fst (loadFormatterFromUrl url s) = Throw CompileError
  ∧ this (snd (loadFormatterFromUrl url s)) = this s.
Proof.
  intros Hnew Hname Hobj Hget Hremote Hwasm.
  js_run. js_simpl. rewrite Hnew, Hname, Hobj. cbn [js_get Object_entries].
  rewrite Hget. cbn [as_lock_entry]. js_simpl. rewrite Hremote, Hwasm. js_simpl.
  split; [reflexivity | now destruct s as [w []]].
Qed.

(** An unsuccessful answer to the request for the catalog propagates. *)
Lemma catalog_failure_propagates (s : Session) (response : Response) :
  remote (world s) !! PLUGIN_INFOS_URL = Some response →
  ok response = false →
  fst (getFormatters s)
  = Throw (JsError ("Failed to load list of formatters from: " +:+ PLUGIN_INFOS_URL)).
Proof.
  intros Hremote Hok. cbv [getFormatters bind in_world fetch modify gets ret throw].
  js_simpl. rewrite Hremote, Hok. reflexivity.
Qed.

(** An unsuccessful answer to the request for a plugin does not: its body is
    instantiated and recorded as any other. *)
Lemma resolve_accepts_error_response (s : Session) (url name : string)
    (props : list (string * json)) (response : Response) :
  formatters (this s) !! url = None →
  _urlToFileName url = Ok name →
  lockObject (this s) = JObject props →
  assoc_get url props = None →
  remote (world s) !! url = Some response →
  ok response = false →
  wasm_instantiable (body response) = true →
  ∃ f s',
    loadFormatterFromUrl url s = (Ok f, s')
    ∧ formatter_wasm f = body response
    ∧ ∃ props', lockObject (this s') = JObject props'
        ∧ as_lock_entry (assoc_get url props')
          = Some {| fileName := name; sha512 := _hashSha512 (body response) |}.
Proof.
  intros Hnew Hname Hobj Hget Hremote _ Hwasm.
  eexists _, _. split; [apply (resolve_unknown s url name props response); assumption|].
  cbn [downloaded fst snd this lockObject formatter_wasm]. split; [reflexivity|].
  eexists. split; [reflexivity|]. rewrite assoc_get_set_eq. reflexivity.
Qed.

(** C10.  Two different URLs whose path names have the same base name get
    the same file name; resolved one after the other, both get an entry with
    that name, and the file of that name holds the bytes of the first URL
    after the first call and the bytes of the second after the second. *)
Theorem same_basename_shares_cache_file (s : Session) (url1 url2 p1 p2 : string)
    (props : list (string * json)) (r1 r2 : Response) :
  url1 ≠ url2 →
  url_pathname url1 = Some p1 →
  url_pathname url2 = Some p2 →
  posix_basename p1 = posix_basename p2 →
  formatters (this s) !! url1 = None →
  formatters (this s) !! url2 = None →
  lockObject (this s) = JObject props →
  assoc_get url1 props = None →
  assoc_get url2 props = None →
  remote (world s) !! url1 = Some r1 →
  remote (world s) !! url2 = Some r2 →
  wasm_instantiable (body r1) = true →
  wasm_instantiable (body r2) = true →
  can_store (directories (world s)) (cacheDir (this s)) (posix_basename p1) →
  let name := posix_basename p1 in
  let file := resolve (cacheDir (this s)) name in
  _urlToFileName url1 = Ok name
  ∧ _urlToFileName url2 = Ok name
  ∧ ∃ f1 s1 f2 s2 props',
      loadFormatterFromUrl url1 s = (Ok f1, s1)
      ∧ read_file (directories (world s1)) file = Ok (body r1)
      ∧ loadFormatterFromUrl url2 s1 = (Ok f2, s2)
      ∧ lockObject (this s2) = JObject props'
      ∧ as_lock_entry (assoc_get url1 props')
        = Some {| fileName := name; sha512 := _hashSha512 (body r1) |}
      ∧ as_lock_entry (assoc_get url2 props')
        = Some {| fileName := name; sha512 := _hashSha512 (body r2) |}
      ∧ read_file (directories (world s2)) file = Ok (body r2).
Proof.
  intros Hne Hp1 Hp2 Hbase Hnew1 Hnew2 Hobj Hget1 Hget2 Hr1 Hr2 Hw1 Hw2 Hstore name file.
  assert (Hname1 : _urlToFileName url1 = Ok name) by (unfold _urlToFileName; now rewrite Hp1).
  assert (Hname2 : _urlToFileName url2 = Ok name)
    by (unfold _urlToFileName; rewrite Hp2, <- Hbase; reflexivity).
  split; [assumption|]. split; [assumption|].
  pose proof (resolve_unknown s url1 name props r1 Hnew1 Hname1 Hobj Hget1 Hr1 Hw1) as Hload1.
  cbv zeta in Hload1.
  set (o1 := JObject (assoc_set url1
                (entry_object {| fileName := name; sha512 := _hashSha512 (body r1) |}) props))
    in *.
  set (s1 := snd (downloaded url1 name r1 o1 s)) in *.
  destruct Hstore as (Hdirname & Hslash & Hnode).
  destruct (write_after_mkdir (directories (world s)) (cacheDir (this s)) name (body r1))
    as (entries & Hdir & Hafter); [repeat split; assumption|].
  assert (Hfs1 : directories (world s1)
                 = <[cacheDir (this s) := <[name := File (body r1)]> entries]>
                     (make_directory (directories (world s)) (cacheDir (this s))))
    by exact Hafter.
  assert (Hstore1 : can_store (directories (world s1)) (cacheDir (this s1)) name).
  { rewrite Hfs1. now apply can_store_written. }
  assert (Hget2' : assoc_get url2 (assoc_set url1
                     (entry_object {| fileName := name; sha512 := _hashSha512 (body r1) |})
                     props) = None).
  { rewrite assoc_get_set_ne by congruence. assumption. }
  assert (Hnew2' : formatters (this s1) !! url2 = None).
  { subst s1. cbn [downloaded snd this formatters]. now rewrite lookup_insert_ne. }
  pose proof (resolve_unknown s1 url2 name _ r2 Hnew2' Hname2 eq_refl Hget2' Hr2 Hw2) as Hload2.
  cbv zeta in Hload2.
  set (o2 := JObject (assoc_set url2
                (entry_object {| fileName := name; sha512 := _hashSha512 (body r2) |})
                (assoc_set url1
                   (entry_object {| fileName := name; sha512 := _hashSha512 (body r1) |})
                   props))) in *.
  set (s2 := snd (downloaded url2 name r2 o2 s1)) in *.
  destruct (write_after_mkdir (directories (world s1)) (cacheDir (this s1)) name (body r2))
    as (entries2 & Hdir2 & Hafter2); [assumption|].
  eexists _, s1, _, s2, _. split; [exact Hload1|].
  split; [rewrite Hfs1; now apply read_written|].
  split; [exact Hload2|].
  split; [reflexivity|].
  split; [rewrite assoc_get_set_ne by congruence; rewrite assoc_get_set_eq; reflexivity|].
  split; [rewrite assoc_get_set_eq; reflexivity|].
  change (directories (world s2))
    with (after_write (make_directory (directories (world s1)) (cacheDir (this s1)))
            (resolve (cacheDir (this s1)) name) (body r2)).
  rewrite Hafter2. now apply read_written.
Qed.

End Resolve.

(** ** The cache reaper: [cleanCacheDir] *)

Lemma keep_file_names_spec (entries : list (string * json)) (init keep : gset string) :
  keep_file_names entries init = Ok keep →
  ∀ f, f ∈ keep ↔
       f ∈ init ∨ ∃ k e, (k, e) ∈ entries ∧ js_get e "fileName" = Ok (Some (JString f)).
Proof.
  revert init. induction entries as [|[k e] entries IH]; intros init Hkeep f.
  - inversion Hkeep; subst. split; [auto|]. intros [?|(k & e & Hin & _)]; [assumption|].
    inversion Hin.
  - cbn [keep_file_names] in Hkeep.
    destruct (js_get e "fileName") as [[v|]|] eqn:Hget; [| |discriminate].
    + destruct v as [| | |name| |].
      all: try (rewrite (IH _ Hkeep f); split;
                [intros [?|(k' & e' & Hin & Hf)]; [auto|right; exists k', e'; split; [now right|assumption]]
                |intros [?|(k' & e' & Hin & Hf)]; [auto|];
                 apply elem_of_cons in Hin as [Heq|Hin];
                 [inversion Heq; subst; congruence | right; eauto]]).
      rewrite (IH _ Hkeep f). rewrite elem_of_union, elem_of_singleton. split.
      * intros [[->|?]|(k' & e' & Hin & Hf)]; [right; exists k, e; split; [left|assumption] | auto |].
        right. exists k', e'. split; [now right | assumption].
      * intros [?|(k' & e' & Hin & Hf)]; [auto|].
        apply elem_of_cons in Hin as [Heq|Hin].
        -- inversion Heq; subst. rewrite Hget in Hf. inversion Hf; subst. auto.
        -- right. eauto.
    + rewrite (IH _ Hkeep f). split.
      * intros [?|(k' & e' & Hin & Hf)]; [auto|]. right. exists k', e'. split; [now right|assumption].
      * intros [?|(k' & e' & Hin & Hf)]; [auto|].
        apply elem_of_cons in Hin as [Heq|Hin]; [inversion Heq; subst; congruence | right; eauto].
Qed.

Lemma reap_entries_lookup (keep : gset string) (names : list string)
    (m : gmap string node) (n : string) :
  reap_entries keep names m !! n
  = if decide (n ∈ names ∧ basename n ∉ keep) then None else m !! n.
Proof.
  unfold reap_entries. revert m. induction names as [|x names IH]; intros m.
  - cbn [fold_left]. case_decide as Hd; [|reflexivity]. destruct Hd as [Hin _]. inversion Hin.
  - cbn [fold_left]. rewrite IH. clear IH.
    destruct (decide (n ∈ names ∧ basename n ∉ keep)) as [[Hin Hk]|Hnot].
    + case_decide as Hn; [reflexivity|]. exfalso. apply Hn. split; [now right | assumption].
    + destruct (bool_decide (basename x ∈ keep)) eqn:Hx.
      * apply bool_decide_eq_true in Hx.
        case_decide as Hd; [|reflexivity]. destruct Hd as [Hin Hk].
        exfalso. apply elem_of_cons in Hin as [->|Hin]; [contradiction | apply Hnot; auto].
      * apply bool_decide_eq_false in Hx.
        destruct (decide (n = x)) as [->|Hne].
        -- rewrite lookup_delete_eq. case_decide as Hn; [reflexivity|].
           exfalso. apply Hn. split; [left | assumption].
        -- rewrite lookup_delete_ne by congruence.
           case_decide as Hd; [|reflexivity]. destruct Hd as [Hin Hk].
           exfalso. apply elem_of_cons in Hin as [->|Hin]; [contradiction | apply Hnot; auto].
Qed.

Lemma reap_step (keep : gset string) (dir name : string) (s : Session)
    (m : gmap string node) :
  cacheDir (this s) = dir →
  directories (world s) !! dir = Some m →
  ∃ s',
    remove_unlisted keep name s = (Ok tt, s')
    ∧ this s' = this s
    ∧ directories (world s') !! dir
      = Some (if bool_decide (basename name ∈ keep) then m else delete name m).
Proof.
  intros Hdir Hm. unfold remove_unlisted.
  destruct (bool_decide (basename name ∈ keep)); cbn [negb].
  { exists s. auto. }
  js_run. js_simpl. rewrite Hdir. unfold remove_entry.
  cbn [path_dir path_name resolve]. rewrite Hm.
  destruct (m !! name) as [nd|] eqn:Hnd; js_simpl; eexists; (split; [reflexivity|]);
    js_simpl; (split; [reflexivity|]).
  - apply lookup_insert_eq.
  - rewrite Hm. f_equal. symmetry. now apply delete_id.
Qed.

(** The loop over the listing, by induction on the listing. *)
Lemma reap_loop (keep : gset string) (dir : string) (names : list string) (s : Session)
    (m : gmap string node) :
  cacheDir (this s) = dir →
  directories (world s) !! dir = Some m →
  ∃ s',
    for_each (remove_unlisted keep) names s = (Ok tt, s')
    ∧ this s' = this s
    ∧ directories (world s') !! dir = Some (reap_entries keep names m).
Proof.
  revert s m. induction names as [|x names IH]; intros s m Hdir Hm.
  - exists s. repeat split; assumption.
  - cbn [for_each]. unfold reap_entries. cbn [fold_left].
    fold (reap_entries keep names
            (if bool_decide (basename x ∈ keep) then m else delete x m)).
    unfold bind at 1.
    destruct (reap_step keep dir x s m Hdir Hm) as (s1 & Hstep & Hthis1 & Hfs1).
    rewrite Hstep.
    destruct (IH s1 _ ltac:(now rewrite Hthis1) Hfs1) as (s' & Hrun & Hthis & Hfs).
    exists s'. split; [exact Hrun|]. split; [congruence | assumption].
Qed.

(** What [cleanCacheDir] leaves.  Every entry left in the cache directory
    is the lock file (when it is kept) or has the base name that some entry
    of the lock object gives as its [fileName]; and an entry of the
    directory whose name is, letter for letter, the [fileName] of an entry
    of the lock object is still there, unchanged.  A [fileName] that names
    its file in another way (with a separator) protects nothing:
    [listed_file_is_reaped]. *)
Theorem reap_leaves_listed_files (s s' : Session) (removeLockFile : bool)
    (before : gmap string node) :
  cleanCacheDir removeLockFile s = (Ok tt, s') →
  directories (world s) !! cacheDir (this s) = Some before →
  ∃ after,
    directories (world s') !! cacheDir (this s) = Some after
    ∧ lockObject (this s') = lockObject (this s)
    ∧ (∀ n, is_Some (after !! n) →
            (removeLockFile = false ∧ basename n = LOCK_FILE_NAME)
            ∨ named_by_manifest (lockObject (this s)) (basename n))
    ∧ ((∀ n, is_Some (before !! n) → has_slash n = false) →
       ∀ file, named_by_manifest (lockObject (this s)) file → after !! file = before !! file).
Proof.
  intros Hclean Hbefore.
  cbv [cleanCacheDir bind gets of_result] in Hclean.
  destruct (Object_entries (lockObject (this s))) as [entries|] eqn:Hentries; [|discriminate].
  set (init := if negb removeLockFile then {[LOCK_FILE_NAME]} else ∅ : gset string) in *.
  destruct (keep_file_names entries init) as [keep|] eqn:Hkeep; [|discriminate].
  cbv [in_world Deno_readDir bind gets modify ret throw] in Hclean.
  revert Hclean. js_simpl. rewrite Hbefore. intros Hclean.
  set (names := map fst (map_to_list before)) in *.
  set (s1 := {| world := _; this := this s |}) in Hclean.
  destruct (reap_loop keep (cacheDir (this s)) names s1 before eq_refl Hbefore)
    as (s2 & Hrun & Hthis & Hafter).
  rewrite Hrun in Hclean. inversion Hclean; subst s'. clear Hclean.
  exists (reap_entries keep names before).
  split; [exact Hafter|]. split; [now rewrite Hthis|].
  pose proof (keep_file_names_spec entries init keep Hkeep) as Hspec.
  assert (Hnames : ∀ n, n ∈ names ↔ is_Some (before !! n)).
  { intros n. unfold names. rewrite list_elem_of_In, in_map_iff. split.
    - intros ([n' nd] & <- & Hin). apply list_elem_of_In, elem_of_map_to_list in Hin.
      simpl. eauto.
    - intros [nd Hnd]. exists (n, nd). split; [reflexivity|].
      now apply list_elem_of_In, elem_of_map_to_list. }
  split.
  - intros n. rewrite reap_entries_lookup.
    case_decide as Hnot; [intros [? ?]; discriminate|].
    intros Hsome. apply Hnames in Hsome.
    destruct (decide (basename n ∈ keep)) as [Hk|Hk]; [|exfalso; apply Hnot; auto].
    apply Hspec in Hk as [Hinit | (k & e & Hin & Hf)].
    + left. unfold init in Hinit. destruct removeLockFile; cbn [negb] in Hinit.
      * now apply not_elem_of_empty in Hinit.
      * apply elem_of_singleton in Hinit. auto.
    + right. exists entries, k, e. auto.
  - intros Hplain file (entries' & k & e & Hent & Hin & Hf).
    rewrite Hentries in Hent. inversion Hent; subst entries'.
    rewrite reap_entries_lookup.
    case_decide as Hd; [|reflexivity]. destruct Hd as [Hn Hk].
    exfalso. apply Hk. rewrite basename_plain by now apply Hplain, Hnames.
    apply Hspec. right. eauto.
Qed.

(** * Further properties of the code *)

(** ** The lock store *)

(** X1.  [_getLockObject] never throws, whatever the lock file is or holds:
    it reads the file once, logs at most the one warning, and leaves the
    file system, the network and the Formatter count as they are. *)
Theorem load_never_throws (p : path) (w : World) :
  ∃ o w',
    _getLockObject p w = (Ok o, w')
    ∧ directories w' = directories w
    ∧ remote w' = remote w
    ∧ allocated w' = allocated w
    ∧ (trace w' = trace w ++ [EvReadFile p]
       ∨ trace w' = trace w ++ [EvReadFile p; EvConsole error_level corrupted_message]).
Proof.
  rewrite getLockObject_unfold. cbv zeta.
  assert (Hwarn : trace (record_event (EvConsole error_level corrupted_message)
                           (record_event (EvReadFile p) w))
                  = trace w ++ [EvReadFile p; EvConsole error_level corrupted_message]).
  { cbn [record_event trace]. now rewrite <- app_assoc. }
  destruct (read_file (directories w) p) as [bytes|e].
  - destruct (JSON_parse (TextDecoder_decode bytes)) as [v|].
    + destruct (_isValidLockObject v) as [[|]|e]; eexists _, _;
        (split; [reflexivity|]); repeat split; auto.
    + eexists _, _. split; [reflexivity|]. repeat split; auto.
  - eexists _, _. split; [reflexivity|]. repeat split; auto.
Qed.

(** X2.  A plain object that [_getLockObject] returns is a manifest: its
    keys are distinct and every value is an object with a string [fileName],
    a string [sha512] and nothing else. *)
Theorem loaded_object_is_manifest (p : path) (w : World) (props : list (string * json)) :
  fst (_getLockObject p w) = Ok (JObject props) →
  lock_manifest (JObject props)
  ∧ ∀ k e, (k, e) ∈ props → entry_shaped e ∧ is_Some (as_lock_entry (Some e)).
Proof.
  intros Hload. pose proof (loaded_manifest p w props Hload) as Hman.
  split; [exact Hman|].
  destruct Hman as (props' & [= <-] & _ & Hall).
  intros k e Hin. rewrite Forall_forall in Hall.
  destruct (Hall (k, e) Hin) as (ps & He & Hnd & Hvalid). cbn [snd] in *.
  split; [now apply valid_entry_shaped|].
  unfold as_lock_entry. rewrite Hvalid. eauto.
Qed.

(** X3.  Only the entries of the parsed value are validated, not the value
    itself: a lock file that holds a value without entries (a number, a
    boolean, an empty string or an empty array as well as an empty object)
    has no entry to refuse, and [_getLockObject] returns that value as the
    lock object, without a warning. *)
Theorem load_returns_value_without_entries (p : path) (w : World) (bytes : list byte)
    (v : json) :
  read_file (directories w) p = Ok bytes →
  JSON_parse (TextDecoder_decode bytes) = Some v →
  Object_entries v = Ok [] →
  _getLockObject p w = (Ok v, record_event (EvReadFile p) w).
Proof.
  intros Hread Hparse Hnone. rewrite getLockObject_unfold, Hread. cbv zeta.
  rewrite Hparse. unfold _isValidLockObject. rewrite Hnone. reflexivity.
Qed.

(** ** Plugin resolution *)

Section ResolveMore.
Context `{Platform}.

(** X4.  The file name that [_urlToFileName] derives is one path component:
    it holds no separator and is its own base name, so the file written
    under it lies in the cache directory and is the one that the reaper
    compares with. *)
Theorem file_name_is_component (url name : string) :
  _urlToFileName url = Ok name →
  has_slash name = false ∧ basename name = name.
Proof.
  unfold _urlToFileName. destruct (url_pathname url) as [pathname|]; [|discriminate].
  intros [= <-]. pose proof (basename_no_slash pathname) as Hplain.
  split; [exact Hplain | now apply basename_plain].
Qed.

(** X5.  A URL that [new URL] refuses and that is not loaded makes
    [loadFormatterFromUrl] throw at once: nothing is read, fetched or
    changed. *)
Theorem resolve_invalid_url (s : Session) (url : string) :
  formatters (this s) !! url = None →
  url_pathname url = None →
  loadFormatterFromUrl url s = (Throw TypeError, s).
Proof.
  intros Hnew Hurl. cbv [loadFormatterFromUrl bind gets of_result _urlToFileName].
  now rewrite Hnew, Hurl.
Qed.

(** X6.  A first download: the URL is neither loaded nor in the lock object.
    The call fetches it once and returns a Formatter of the fetched bytes,
    stored under the URL; the lock object records the derived name with the
    hash of those bytes; and the cache directory, created when missing,
    holds the bytes under that name. *)
Theorem first_download_is_stored (s : Session) (url name : string)
    (props : list (string * json)) (response : Response) :
  formatters (this s) !! url = None →
  _urlToFileName url = Ok name →
  lockObject (this s) = JObject props →
  assoc_get url props = None →
  remote (world s) !! url = Some response →
  wasm_instantiable (body response) = true →
  can_store (directories (world s)) (cacheDir (this s)) name →
  ∃ f s' props',
    loadFormatterFromUrl url s = (Ok f, s')
    ∧ formatter_wasm f = body response
    ∧ formatters (this s') !! url = Some f
    ∧ lockObject (this s') = JObject props'
    ∧ as_lock_entry (assoc_get url props')
      = Some {| fileName := name; sha512 := _hashSha512 (body response) |}
    ∧ read_file (directories (world s')) (resolve (cacheDir (this s)) name)
      = Ok (body response)
    ∧ fetched (trace (world s')) = fetched (trace (world s)) ++ [url].
Proof.
  intros Hnew Hname Hobj Hget Hremote Hwasm Hstore.
  pose proof (resolve_unknown s url name props response Hnew Hname Hobj Hget Hremote Hwasm)
    as Hload. cbv zeta in Hload.
  destruct (write_after_mkdir (directories (world s)) (cacheDir (this s)) name (body response)
              Hstore) as (entries & Hdir & Hafter).
  destruct Hstore as (Hdirname & Hslash & _).
  eexists _, _, _. split; [exact Hload|].
  cbn [downloaded fst snd world this formatters lockObject directories trace formatter_wasm].
  split; [reflexivity|]. split; [apply lookup_insert_eq|]. split; [reflexivity|].
  split; [now rewrite assoc_get_set_eq|].
  split; [rewrite Hafter; now apply read_written|].
  unfold fetched. rewrite omap_app. reflexivity.
Qed.

(** X7.  The [catch] only handles a missing file.  When the read of the
    cached file fails in any other way, the exception leaves the call:
    nothing is fetched, and the manager and the directories stay as they
    are. *)
Theorem resolve_read_failure_propagates (s : Session) (url name : string)
    (props : list (string * json)) (v : json) (entry : _LockObjectEntry) (e : Exception) :
  formatters (this s) !! url = None →
  _urlToFileName url = Ok name →
  lockObject (this s) = JObject props →
  assoc_get url props = Some v →
  as_lock_entry (Some v) = Some entry →
  read_file (directories (world s)) (resolve (cacheDir (this s)) (fileName entry)) = Throw e →
  e ≠ Deno NotFound →
  ∃ s',
    loadFormatterFromUrl url s = (Throw e, s')
    ∧ this s' = this s
    ∧ directories (world s') = directories (world s)
    ∧ trace (world s')
      = trace (world s) ++ [EvReadFile (resolve (cacheDir (this s)) (fileName entry))].
Proof.
  intros Hnew Hname Hobj Hget Hentry Hread Hother.
  exists {| world := record_event
                       (EvReadFile (resolve (cacheDir (this s)) (fileName entry))) (world s);
            this := this s |}.
  split; [|repeat split; reflexivity].
  js_run. js_simpl.
  rewrite Hnew, Hname, Hobj. cbn [js_get Object_entries]. rewrite Hget, Hentry.
  js_simpl. rewrite Hread.
  destruct e as [[| |msg]| | | | | | |]; try reflexivity. now destruct Hother.
Qed.

(** X8.  Likewise for a cached file that has the recorded hash and is no
    module: the failure of [createFromBuffer] leaves the call, the file is
    not fetched again, and the lock object keeps the entry. *)
Theorem resolve_cached_module_invalid (s : Session) (url name : string)
    (props : list (string * json)) (v : json) (entry : _LockObjectEntry)
    (bytes : list byte) :
  formatters (this s) !! url = None →
  _urlToFileName url = Ok name →
  lockObject (this s) = JObject props →
  assoc_get url props = Some v →
  as_lock_entry (Some v) = Some entry →
  read_file (directories (world s)) (resolve (cacheDir (this s)) (fileName entry)) = Ok bytes →
  _hashSha512 bytes = sha512 entry →
  wasm_instantiable bytes = false →
  ∃ s',
    loadFormatterFromUrl url s = (Throw CompileError, s')
    ∧ this s' = this s
    ∧ directories (world s') = directories (world s)
    ∧ fetched (trace (world s')) = fetched (trace (world s)).
Proof.
  intros Hnew Hname Hobj Hget Hentry Hread Hhash Hwasm.
  eexists. split.
  - js_run. js_simpl.
    rewrite Hnew, Hname, Hobj. cbn [js_get Object_entries]. rewrite Hget, Hentry.
    js_simpl. rewrite Hread.
    destruct (decide (_hashSha512 bytes = sha512 entry)); [|contradiction].
    js_simpl. rewrite Hwasm. js_simpl. reflexivity.
  - js_simpl. split; [now destruct s as [w []]|]. split; [reflexivity|].
    unfold fetched. rewrite <- app_assoc, omap_app. cbn. now rewrite app_nil_r.
Qed.

(** X9.  A download that fails leaves nothing behind.  When the request is
    not answered, or is answered with bytes that are no module, the call
    throws, the manager is as before (no Formatter stored, no entry
    recorded) and nothing is written: the directories are as before. *)
Theorem failed_download_leaves_nothing (s : Session) (url name : string)
    (props : list (string * json)) :
  formatters (this s) !! url = None →
  _urlToFileName url = Ok name →
  lockObject (this s) = JObject props →
  assoc_get url props = None →
  (remote (world s) !! url = None
   ∨ ∃ response, remote (world s) !! url = Some response
                 ∧ wasm_instantiable (body response) = false) →
  ∃ e s',
    loadFormatterFromUrl url s = (Throw e, s')
    ∧ this s' = this s
    ∧ directories (world s') = directories (world s).
Proof.
  intros Hnew Hname Hobj Hget Hfail.
  destruct Hfail as [Hremote | (response & Hremote & Hwasm)].
  - exists NetworkError. eexists. split.
    + js_run. js_simpl. rewrite Hnew, Hname, Hobj. cbn [js_get Object_entries].
      rewrite Hget. cbn [as_lock_entry]. js_simpl. rewrite Hremote. js_simpl. reflexivity.
    + js_simpl. split; [now destruct s as [w []] | reflexivity].
  - exists CompileError. eexists. split.
    + js_run. js_simpl. rewrite Hnew, Hname, Hobj. cbn [js_get Object_entries].
      rewrite Hget. cbn [as_lock_entry]. js_simpl. rewrite Hremote, Hwasm. js_simpl.
      reflexivity.
    + js_simpl. split; [now destruct s as [w []] | reflexivity].
Qed.

(** X10.  The entry of a missing file is deleted before the download: when
    that download then fails, the call throws and the lock object has lost
    the entry of the URL (a lookup of the URL finds nothing), with every
    other entry in place and in its order.  No Formatter is recorded and the
    disk is as before.  (The keys of [props] are distinct, as the keys of
    any object.) *)
Theorem failed_refresh_drops_entry (s : Session) (url name : string)
    (props : list (string * json)) (v : json) (entry : _LockObjectEntry) :
  formatters (this s) !! url = None →
  _urlToFileName url = Ok name →
  lockObject (this s) = JObject props →
  NoDup (map fst props) →
  assoc_get url props = Some v →
  as_lock_entry (Some v) = Some entry →
  read_file (directories (world s)) (resolve (cacheDir (this s)) (fileName entry))
    = Throw (Deno NotFound) →
  remote (world s) !! url = None →
  ∃ s',
    loadFormatterFromUrl url s = (Throw NetworkError, s')
    ∧ lockObject (this s') = JObject (assoc_delete url props)
    ∧ lockObject (this s') = JObject (filter (fun kv => fst kv ≠ url) props)
    ∧ js_get (lockObject (this s')) url = Ok None
    ∧ (∀ other, other ≠ url →
         js_get (lockObject (this s')) other = js_get (lockObject (this s)) other)
    ∧ formatters (this s') = formatters (this s)
    ∧ directories (world s') = directories (world s).
Proof.
  intros Hnew Hname Hobj Hnd Hget Hentry Hread Hremote.
  eexists. split.
  - js_run. js_simpl.
    rewrite Hnew, Hname, Hobj. cbn [js_get Object_entries]. rewrite Hget, Hentry.
    js_simpl. rewrite Hread.
    js_simpl. rewrite Hobj. cbn [js_delete]. js_simpl.
    rewrite Hremote. js_simpl. reflexivity.
  - js_simpl. rewrite Hobj. cbn [js_get Object_entries].
    split; [reflexivity|].
    split; [now rewrite assoc_delete_filter|].
    split; [now rewrite assoc_get_delete_eq|].
    split; [intros other Hother; now rewrite assoc_get_delete_ne|].
    split; reflexivity.
Qed.

End ResolveMore.

Section ResolveInvariants.
Context `{Platform}.

Lemma continues_refl (P : Event → Prop) (t : list Event) : continues P t t.
Proof. exists []. split; [now rewrite app_nil_r | constructor]. Qed.

Lemma continues_trans (P : Event → Prop) (t1 t2 t3 : list Event) :
  continues P t1 t2 → continues P t2 t3 → continues P t1 t3.
Proof.
  intros (n1 & -> & H1) (n2 & -> & H2). exists (n1 ++ n2).
  split; [now rewrite app_assoc | now apply Forall_app].
Qed.

Lemma continues_weaken (P Q : Event → Prop) (t t' : list Event) :
  (∀ ev, P ev → Q ev) → continues P t t' → continues Q t t'.
Proof.
  intros HPQ (new & -> & Hall). exists new. split; [reflexivity|].
  eapply Forall_impl; eassumption.
Qed.

Lemma continues_snoc (P : Event → Prop) (t t' : list Event) (ev : Event) :
  continues P t t' → P ev → continues P t (t' ++ [ev]).
Proof.
  intros (new & -> & Hall) Hev. exists (new ++ [ev]).
  split; [now rewrite app_assoc | apply Forall_app; auto].
Qed.


(** What [loadFormatterFromUrl] does to the lock object, on every path: the
    entry of the URL is kept, deleted, set, or deleted and set. *)
Lemma resolve_lock_object (url : string) (s : Session) (props : list (string * json)) :
  lockObject (this s) = JObject props →
  ∃ props', lockObject (this (snd (loadFormatterFromUrl url s))) = JObject props'
    ∧ (props' = props ∨ props' = assoc_delete url props
       ∨ (∃ e, props' = assoc_set url (entry_object e) props)
       ∨ (∃ e, props' = assoc_set url (entry_object e) (assoc_delete url props))).
Proof.
  intros Hobj. destruct (loadFormatterFromUrl url s) as [r s'] eqn:Hload.
  cbn [snd]. js_cases Hload.
  all: inversion Hload; subst; js_simpl; clear Hload.
  all: rewrite ?Hobj in *.
  all: repeat match goal with
         | E : js_delete (JObject _) _ = _ |- _ => cbn [js_delete] in E; inversion E; subst; clear E
         | E : js_set (JObject _) _ _ = _ |- _ => cbn [js_set] in E; inversion E; subst; clear E
         end.
  all: eauto 8.
Qed.


End ResolveInvariants.

Section ResolveFrame.
Context `{Platform}.

(** X11.  [loadFormatterFromUrl] touches the entry and the Formatter of its
    own URL only: whatever path it takes and however it ends, the lock
    object is still an object, and the entry and the Formatter of every
    other URL are as before. *)
Theorem resolve_leaves_other_urls (url other : string) (s : Session)
    (props : list (string * json)) :
  lockObject (this s) = JObject props →
  other ≠ url →
  ∃ props',
    lockObject (this (snd (loadFormatterFromUrl url s))) = JObject props'
    ∧ assoc_get other props' = assoc_get other props
    ∧ formatters (this (snd (loadFormatterFromUrl url s))) !! other
      = formatters (this s) !! other.
Proof.
  intros Hobj Hne.
  destruct (resolve_lock_object url s props Hobj) as (props' & Hobj' & Hcases).
  exists props'. split; [exact Hobj'|]. split.
  - destruct Hcases as [-> | [-> | [[e ->] | [e ->]]]];
      rewrite ?assoc_get_set_ne, ?assoc_get_delete_ne by assumption; reflexivity.
  - clear Hobj' Hcases. destruct (loadFormatterFromUrl url s) as [r s'] eqn:Hload.
    cbn [snd]. js_cases Hload.
    all: inversion Hload; subst; js_simpl; clear Hload.
    all: rewrite ?lookup_insert_ne by congruence; reflexivity.
Qed.

(** X12.  When a call for a URL that was not loaded returns, the lock object
    has a valid entry for that URL: every plugin that a run has resolved is
    listed in the manifest that the run writes. *)
Theorem resolved_url_is_recorded (url : string) (s s' : Session) (f : Formatter)
    (props : list (string * json)) :
  lockObject (this s) = JObject props →
  formatters (this s) !! url = None →
  loadFormatterFromUrl url s = (Ok f, s') →
  ∃ props' entry,
    lockObject (this s') = JObject props'
    ∧ as_lock_entry (assoc_get url props') = Some entry.
Proof.
  intros Hobj Hnew Hload. js_cases Hload.
  all: inversion Hload; subst; js_simpl; clear Hload.
  all: rewrite ?Hobj in *.
  all: repeat match goal with
         | E : js_delete (JObject _) _ = _ |- _ =>
             cbn [js_delete] in E; inversion E; subst; clear E
         | E : js_set (JObject _) _ _ = _ |- _ =>
             cbn [js_set] in E; inversion E; subst; clear E
         | E : js_get (JObject _) _ = _ |- _ =>
             cbn [js_get Object_entries] in E; inversion E; subst; clear E
         end.
  all: try congruence.
  all: eexists _, _; (split; [reflexivity|]); rewrite ?assoc_get_set_eq; try eassumption;
    reflexivity.
Qed.


End ResolveFrame.

(** ** From one run to the next *)

Lemma write_file_ok (fs : gmap string (gmap string node)) (dir name : string)
    (entries : gmap string node) (data : list byte) :
  fs !! dir = Some entries →
  is_directory_name name = false → has_slash name = false →
  (∀ nd, entries !! name = Some nd → ∃ d, nd = File d) →
  write_file fs (resolve dir name) data = Ok (<[dir := <[name := File data]> entries]> fs).
Proof.
  intros Hdir Hname Hslash Hnode.
  unfold write_file, lookup_path. cbn [resolve path_dir path_name].
  rewrite Hdir, Hname, Hslash.
  destruct (entries !! name) as [nd|] eqn:Hnd; [|reflexivity].
  destruct (Hnode nd eq_refl) as [d ->]. reflexivity.
Qed.

Lemma read_file_lookup (fs : gmap string (gmap string node)) (dir name : string)
    (entries : gmap string node) (data : list byte) :
  fs !! dir = Some entries →
  is_directory_name name = false → has_slash name = false →
  entries !! name = Some (File data) →
  read_file fs (resolve dir name) = Ok data.
Proof.
  intros Hdir Hname Hslash Hnd.
  unfold read_file, lookup_path. cbn [resolve path_dir path_name].
  now rewrite Hdir, Hname, Hslash, Hnd.
Qed.

(** The text of a manifest, once in the lock file, loads as that manifest. *)
Lemma manifest_text_loads (o : json) (w : World) (target : path) :
  lock_manifest o →
  read_file (directories w) target = Ok (TextEncoder_encode (JSON_stringify o)) →
  _getLockObject target w = (Ok o, record_event (EvReadFile target) w).
Proof.
  intros Hman Hread. rewrite getLockObject_unfold, Hread. cbv zeta.
  rewrite text_decode_encode.
  - rewrite (JSON_parse_stringify o (lock_manifest_parses_back o Hman)).
    now rewrite (lock_manifest_valid o Hman).
  - destruct Hman as (props & -> & _).
    destruct (serialize_object_head "" props) as [r Hr].
    unfold JSON_stringify. rewrite Hr. intros r'. discriminate.
Qed.

Section NextRun.
Context `{Platform}.

(** [writeLockFile] without a renderer, on both outcomes of the write. *)
Lemma persist_plain (s : Session) :
  let target := lockFilePath (this s) in
  let data := TextEncoder_encode (JSON_stringify (lockObject (this s))) in
  let w := record_event (EvWriteFile target data) (world s) in
  writeLockFile None s
  = match write_file (directories (world s)) target data with
    | Ok fs' => (Ok tt, {| world := set_directories fs' w; this := this s |})
    | Throw e => (Throw e, {| world := w; this := this s |})
    end.
Proof.
  cbv [writeLockFile bind gets in_world Deno_writeFile modify of_result ret]. js_simpl.
  destruct (write_file _ _ _); reflexivity.
Qed.

(** A cached file with the recorded hash is instantiated. *)
Lemma cache_hit_run (s : Session) (url name : string)
    (props : list (string * json)) (v : json) (entry : _LockObjectEntry)
    (bytes : list byte) :
  formatters (this s) !! url = None →
  _urlToFileName url = Ok name →
  lockObject (this s) = JObject props →
  assoc_get url props = Some v →
  as_lock_entry (Some v) = Some entry →
  read_file (directories (world s)) (resolve (cacheDir (this s)) (fileName entry)) = Ok bytes →
  _hashSha512 bytes = sha512 entry →
  wasm_instantiable bytes = true →
  ∃ f s',
    loadFormatterFromUrl url s = (Ok f, s')
    ∧ formatter_wasm f = bytes
    ∧ fetched (trace (world s')) = fetched (trace (world s))
    ∧ directories (world s') = directories (world s)
    ∧ lockObject (this s') = lockObject (this s).
Proof.
  intros Hnew Hname Hobj Hget Hentry Hread Hhash Hwasm.
  eexists _, _. split.
  - js_run. js_simpl.
    rewrite Hnew, Hname, Hobj. cbn [js_get Object_entries]. rewrite Hget, Hentry.
    js_simpl. rewrite Hread.
    destruct (decide (_hashSha512 bytes = sha512 entry)); [|contradiction].
    js_simpl. rewrite Hwasm. js_simpl. reflexivity.
  - js_simpl. rewrite <- app_assoc. unfold fetched.
    rewrite omap_app, app_nil_r. repeat split; reflexivity.
Qed.

(** X14.  What one run downloads, the next run finds.  A plugin is
    downloaded and the manifest written; a manager constructed afterwards on
    the same cache directory loads that manifest and resolves the URL from
    the cached file: it returns a Formatter of the same bytes and issues no
    request.  The derived name must not be the name of the lock file. *)
Theorem next_run_hits_cache (s : Session) (url name : string)
    (props : list (string * json)) (response : Response) :
  lockObject (this s) = JObject props →
  lock_manifest (JObject props) →
  assoc_get url props = None →
  formatters (this s) !! url = None →
  _urlToFileName url = Ok name →
  lockFilePath (this s) = resolve (cacheDir (this s)) LOCK_FILE_NAME →
  remote (world s) !! url = Some response →
  wasm_instantiable (body response) = true →
  can_store (directories (world s)) (cacheDir (this s)) name →
  can_store (directories (world s)) (cacheDir (this s)) LOCK_FILE_NAME →
  name ≠ LOCK_FILE_NAME →
  ∃ f s1 s2 pluginManager w f' s3,
    loadFormatterFromUrl url s = (Ok f, s1)
    ∧ writeLockFile None s1 = (Ok tt, s2)
    ∧ new_DprintPluginManager (cacheDir (this s)) (world s2) = (Ok pluginManager, w)
    ∧ lockObject pluginManager = lockObject (this s1)
    ∧ loadFormatterFromUrl url {| world := w; this := pluginManager |} = (Ok f', s3)
    ∧ formatter_wasm f' = body response
    ∧ fetched (trace (world s3)) = fetched (trace (world s1)).
Proof.
  intros Hobj Hman Hget Hnew Hname Hlock Hremote Hwasm Hstore Hstore_lock Hne.
  set (dir := cacheDir (this s)) in *.
  set (entry := {| fileName := name; sha512 := _hashSha512 (body response) |}).
  set (props1 := assoc_set url (entry_object entry) props).
  (* the download *)
  pose proof (resolve_unknown s url name props response Hnew Hname Hobj Hget Hremote Hwasm)
    as Hload. cbv zeta in Hload. fold dir entry props1 in Hload.
  set (s1 := snd (downloaded url name response (JObject props1) s)) in *.
  destruct (write_after_mkdir (directories (world s)) dir name (body response) Hstore)
    as (entries & Hdir & Hafter).
  destruct (make_directory_lookup (directories (world s)) dir)
    as (entries0 & Hdir0 & Hfresh & Hold).
  assert (entries0 = entries) as -> by congruence.
  set (entries1 := <[name := File (body response)]> entries).
  set (fs1 := <[dir := entries1]> (make_directory (directories (world s)) dir)).
  assert (Hfs1 : directories (world s1) = fs1) by exact Hafter.
  assert (Hman1 : lock_manifest (JObject props1)).
  { apply (lock_manifest_set (JObject props) _ url entry Hman). reflexivity. }
  destruct Hstore as (Hn1 & Hn2 & _).
  destruct Hstore_lock as (Hl1 & Hl2 & Hl3).
  (* the lock file *)
  set (text := TextEncoder_encode (JSON_stringify (JObject props1))).
  assert (Hwrite : write_file fs1 (resolve dir LOCK_FILE_NAME) text
                   = Ok (<[dir := <[LOCK_FILE_NAME := File text]> entries1]> fs1)).
  { apply write_file_ok; [apply lookup_insert_eq | assumption | assumption |].
    intros nd. unfold entries1. rewrite lookup_insert_ne by assumption. intros Hnd.
    destruct (directories (world s) !! dir) as [e|] eqn:Hfs.
    - rewrite (Hold e eq_refl) in Hnd. exact (Hl3 e nd eq_refl Hnd).
    - rewrite (Hfresh eq_refl), lookup_empty in Hnd. discriminate. }
  set (fs2 := <[dir := <[LOCK_FILE_NAME := File text]> entries1]> fs1) in *.
  pose proof (persist_plain s1) as Hpersist. cbv zeta in Hpersist.
  assert (Hpath1 : lockFilePath (this s1) = resolve dir LOCK_FILE_NAME) by exact Hlock.
  assert (Hobj1 : lockObject (this s1) = JObject props1) by reflexivity.
  rewrite Hpath1, Hobj1, Hfs1 in Hpersist. fold text in Hpersist.
  rewrite Hwrite in Hpersist.
  set (s2 := {| world := set_directories fs2
                           (record_event (EvWriteFile (resolve dir LOCK_FILE_NAME) text)
                              (world s1));
                this := this s1 |}) in *.
  (* the next manager *)
  assert (Hread_lock : read_file (directories (world s2)) (resolve dir LOCK_FILE_NAME)
                       = Ok text).
  { apply (read_after_write fs1). exact Hwrite. }
  pose proof (manifest_text_loads (JObject props1) (world s2) (resolve dir LOCK_FILE_NAME)
                Hman1 Hread_lock) as Hloaded.
  set (w := record_event (EvReadFile (resolve dir LOCK_FILE_NAME)) (world s2)) in *.
  set (pluginManager := {| cacheDir := dir; lockFilePath := resolve dir LOCK_FILE_NAME;
                           lockObject := JObject props1; formatters := ∅ |}).
  assert (Hnext : new_DprintPluginManager dir (world s2) = (Ok pluginManager, w)).
  { cbv [new_DprintPluginManager bind ret]. rewrite Hloaded. reflexivity. }
  (* the cache hit *)
  assert (Hread : read_file (directories (world {| world := w; this := pluginManager |}))
                    (resolve (cacheDir (this {| world := w; this := pluginManager |}))
                       (fileName entry))
                  = Ok (body response)).
  { apply (read_file_lookup fs2 dir name (<[LOCK_FILE_NAME := File text]> entries1));
      [apply lookup_insert_eq | assumption | assumption |].
    rewrite lookup_insert_ne by congruence. apply lookup_insert_eq. }
  destruct (cache_hit_run {| world := w; this := pluginManager |} url name props1
              (entry_object entry) entry (body response))
    as (f' & s3 & Hhit & Hf' & Hfetched & _ & _);
    [apply lookup_empty | assumption | reflexivity | apply assoc_get_set_eq
    | reflexivity | exact Hread | reflexivity | assumption |].
  exists (fst (downloaded url name response (JObject props1) s)), s1, s2, pluginManager, w,
    f', s3.
  split; [exact Hload|]. split; [exact Hpersist|]. split; [exact Hnext|].
  split; [reflexivity|]. split; [exact Hhit|]. split; [exact Hf'|].
  rewrite Hfetched. unfold fetched. cbn [world trace w s2 set_directories record_event].
  rewrite !omap_app. cbn [omap]. now rewrite !app_nil_r.
Qed.

End NextRun.

(** ** The cache reaper *)

(** The keep-set is computed whenever no entry is [null]. *)
Lemma keep_file_names_total (entries : list (string * json)) (init : gset string) :
  Forall (fun kv => snd kv ≠ JNull) entries →
  ∃ keep, keep_file_names entries init = Ok keep.
Proof.
  intros Hall. revert init. induction Hall as [|[k e] entries He Hall IH]; intros init.
  - eexists. reflexivity.
  - cbn [keep_file_names]. cbn [snd] in He.
    destruct e as [| | | | |]; try contradiction; cbn [js_get Object_entries];
      try apply IH;
      match goal with
      | |- context [assoc_get ?k ?l] =>
          destruct (assoc_get k l) as [[| | |name| |]|]; apply IH
      end.
Qed.

Lemma manifest_keep_set (o : json) (init : gset string) :
  lock_manifest o →
  ∃ entries keep, Object_entries o = Ok entries ∧ keep_file_names entries init = Ok keep.
Proof.
  intros (props & -> & _ & Hall).
  destruct (keep_file_names_total props init) as [keep Hkeep].
  - eapply Forall_impl; [exact Hall|]. intros [k e] (ps & He & _). cbn [snd] in *.
    rewrite He. discriminate.
  - exists props, keep. auto.
Qed.

(** The names of a listing are the keys of the directory. *)
Lemma listing_names (m : gmap string node) (n : string) :
  n ∈ map fst (map_to_list m) ↔ is_Some (m !! n).
Proof.
  rewrite list_elem_of_In, in_map_iff. split.
  - intros ([n' nd] & <- & Hin). apply list_elem_of_In, elem_of_map_to_list in Hin.
    cbn [fst]. eauto.
  - intros [nd Hnd]. exists (n, nd). split; [reflexivity|].
    now apply list_elem_of_In, elem_of_map_to_list.
Qed.

(** [cleanCacheDir] on an existing cache directory, once its keep-set is
    known: the listing, then the loop. *)
Lemma reap_run (removeLockFile : bool) (s : Session) (entries : list (string * json))
    (keep : gset string) (before : gmap string node) :
  Object_entries (lockObject (this s)) = Ok entries →
  keep_file_names entries (if negb removeLockFile then {[LOCK_FILE_NAME]} else ∅) = Ok keep →
  directories (world s) !! cacheDir (this s) = Some before →
  cleanCacheDir removeLockFile s
  = for_each (remove_unlisted keep) (map fst (map_to_list before))
      {| world := record_event (EvReadDir (cacheDir (this s))) (world s); this := this s |}.
Proof.
  intros Hentries Hkeep Hbefore.
  cbv [cleanCacheDir bind gets of_result]. rewrite Hentries, Hkeep.
  cbv [in_world Deno_readDir bind gets modify ret throw]. js_simpl.
  now rewrite Hbefore.
Qed.

(** The inverse reading: a run that returns has listed the directory. *)
Lemma reap_returns (removeLockFile : bool) (s s' : Session) :
  cleanCacheDir removeLockFile s = (Ok tt, s') →
  ∃ entries keep before,
    Object_entries (lockObject (this s)) = Ok entries
    ∧ keep_file_names entries (if negb removeLockFile then {[LOCK_FILE_NAME]} else ∅) = Ok keep
    ∧ directories (world s) !! cacheDir (this s) = Some before.
Proof.
  intros Hclean. cbv [cleanCacheDir bind gets of_result] in Hclean.
  destruct (Object_entries (lockObject (this s))) as [entries|]; [|discriminate].
  destruct (keep_file_names entries _) as [keep|] eqn:Hkeep; [|discriminate].
  cbv [in_world Deno_readDir bind gets modify ret throw] in Hclean.
  revert Hclean. js_simpl.
  destruct (directories (world s) !! cacheDir (this s)) as [before|]; [|discriminate].
  intros _. exists entries, keep, before. auto.
Qed.

(** A loop in which every name is kept does nothing. *)
Lemma reap_nothing (keep : gset string) (names : list string) (s : Session) :
  Forall (fun n => basename n ∈ keep) names →
  for_each (remove_unlisted keep) names s = (Ok tt, s).
Proof.
  induction 1 as [|n names Hn Hall IH]; [reflexivity|].
  cbn [for_each]. unfold bind at 1. unfold remove_unlisted at 1.
  rewrite bool_decide_eq_true_2 by assumption. cbn [negb]. unfold ret at 1. exact IH.
Qed.

(** X15.  [cleanCacheDir] only removes entries of the cache directory.  The
    manager is left as it is, every entry that remains was there before
    with the same content, and unless [removeLockFile] is given the lock
    file is kept, whether the lock object lists it or not. *)
Theorem reap_only_removes (s s' : Session) (removeLockFile : bool)
    (before : gmap string node) :
  cleanCacheDir removeLockFile s = (Ok tt, s') →
  directories (world s) !! cacheDir (this s) = Some before →
  ∃ after,
    directories (world s') !! cacheDir (this s) = Some after
    ∧ this s' = this s
    ∧ after ⊆ before
    ∧ (removeLockFile = false → after !! LOCK_FILE_NAME = before !! LOCK_FILE_NAME).
Proof.
  intros Hclean Hbefore.
  destruct (reap_returns removeLockFile s s' Hclean)
    as (entries & keep & before' & Hentries & Hkeep & Hbefore').
  assert (before' = before) as -> by congruence.
  rewrite (reap_run removeLockFile s entries keep before Hentries Hkeep Hbefore) in Hclean.
  destruct (reap_loop keep (cacheDir (this s)) (map fst (map_to_list before))
              {| world := record_event (EvReadDir (cacheDir (this s))) (world s);
                 this := this s |} before eq_refl Hbefore)
    as (s2 & Hrun & Hthis & Hafter).
  rewrite Hrun in Hclean. injection Hclean as <-.
  exists (reap_entries keep (map fst (map_to_list before)) before).
  split; [exact Hafter|]. split; [exact Hthis|]. split.
  - apply map_subseteq_spec. intros n nd. rewrite reap_entries_lookup.
    case_decide; [discriminate | auto].
  - intros ->. rewrite reap_entries_lookup.
    case_decide as Hd; [|reflexivity]. destruct Hd as [_ Hk]. exfalso. apply Hk.
    apply (keep_file_names_spec _ _ _ Hkeep). left. cbn [negb].
    apply elem_of_singleton. reflexivity.
Qed.

(** X16.  [cleanCacheDir] is idempotent: after a pass that returned, a
    second pass lists the directory and finds nothing to remove. *)
Theorem reap_twice (s s1 : Session) (removeLockFile : bool) :
  cleanCacheDir removeLockFile s = (Ok tt, s1) →
  cleanCacheDir removeLockFile s1
  = (Ok tt, {| world := record_event (EvReadDir (cacheDir (this s1))) (world s1);
               this := this s1 |}).
Proof.
  intros Hclean.
  destruct (reap_returns removeLockFile s s1 Hclean)
    as (entries & keep & before & Hentries & Hkeep & Hbefore).
  rewrite (reap_run removeLockFile s entries keep before Hentries Hkeep Hbefore) in Hclean.
  destruct (reap_loop keep (cacheDir (this s)) (map fst (map_to_list before))
              {| world := record_event (EvReadDir (cacheDir (this s))) (world s);
                 this := this s |} before eq_refl Hbefore)
    as (s2 & Hrun & Hthis & Hafter).
  rewrite Hrun in Hclean. injection Hclean as <-.
  cbn [this] in Hthis.
  set (after := reap_entries keep (map fst (map_to_list before)) before) in *.
  rewrite (reap_run removeLockFile s2 entries keep after);
    rewrite ?Hthis; try assumption.
  apply reap_nothing. apply Forall_forall. intros n Hn.
  apply listing_names in Hn as [nd Hnd]. unfold after in Hnd.
  rewrite reap_entries_lookup in Hnd.
  case_decide as Hd; [discriminate|].
  destruct (decide (basename n ∈ keep)) as [Hk|Hk]; [exact Hk|].
  exfalso. apply Hd. split; [|exact Hk]. apply listing_names. eauto.
Qed.

(** X17.  [cleanCacheDir] needs the cache directory: when it does not
    exist, the listing fails with [NotFound], which leaves the call, and
    nothing is removed. *)
Theorem reap_missing_directory (s : Session) (removeLockFile : bool) :
  lock_manifest (lockObject (this s)) →
  directories (world s) !! cacheDir (this s) = None →
  cleanCacheDir removeLockFile s
  = (Throw (Deno NotFound),
     {| world := record_event (EvReadDir (cacheDir (this s))) (world s); this := this s |}).
Proof.
  intros Hman Hnone.
  destruct (manifest_keep_set (lockObject (this s))
              (if negb removeLockFile then {[LOCK_FILE_NAME]} else ∅) Hman)
    as (entries & keep & Hentries & Hkeep).
  cbv [cleanCacheDir bind gets of_result]. rewrite Hentries, Hkeep.
  cbv [in_world Deno_readDir bind gets modify ret throw]. js_simpl.
  now rewrite Hnone.
Qed.

Lemma assoc_set_in {A} (k : string) (v : A) (l : list (string * A)) :
  (k, v) ∈ assoc_set k v l.
Proof.
  induction l as [|[k' v'] l IH]; cbn [assoc_set]; [left|].
  destruct (decide (k = k')); [left | right; exact IH].
Qed.

Section ResolveThenReap.
Context `{Platform}.

(** X18.  A plugin that was just downloaded survives the reaper: its file
    name is in the lock object, so [cleanCacheDir], with or without
    [removeLockFile], leaves the file with the fetched bytes in place. *)
Theorem downloaded_survives_reap (s : Session) (url name : string)
    (props : list (string * json)) (response : Response) (removeLockFile : bool) :
  formatters (this s) !! url = None →
  _urlToFileName url = Ok name →
  lockObject (this s) = JObject props →
  lock_manifest (JObject props) →
  assoc_get url props = None →
  remote (world s) !! url = Some response →
  wasm_instantiable (body response) = true →
  can_store (directories (world s)) (cacheDir (this s)) name →
  ∃ f s1 s2,
    loadFormatterFromUrl url s = (Ok f, s1)
    ∧ cleanCacheDir removeLockFile s1 = (Ok tt, s2)
    ∧ read_file (directories (world s2)) (resolve (cacheDir (this s)) name)
      = Ok (body response).
Proof.
  intros Hnew Hname Hobj Hman Hget Hremote Hwasm Hstore.
  set (dir := cacheDir (this s)) in *.
  set (entry := {| fileName := name; sha512 := _hashSha512 (body response) |}).
  set (props1 := assoc_set url (entry_object entry) props).
  pose proof (resolve_unknown s url name props response Hnew Hname Hobj Hget Hremote Hwasm)
    as Hload. cbv zeta in Hload. fold dir entry props1 in Hload.
  set (s1 := snd (downloaded url name response (JObject props1) s)) in *.
  destruct (write_after_mkdir (directories (world s)) dir name (body response) Hstore)
    as (entries & Hdir & Hafter).
  set (entries1 := <[name := File (body response)]> entries).
  assert (Hfs1 : directories (world s1) !! cacheDir (this s1) = Some entries1).
  { change (directories (world s1))
      with (after_write (make_directory (directories (world s)) dir) (resolve dir name)
              (body response)).
    rewrite Hafter. apply lookup_insert_eq. }
  assert (Hman1 : lock_manifest (lockObject (this s1))).
  { apply (lock_manifest_set (JObject props) _ url entry Hman). reflexivity. }
  set (init := if negb removeLockFile then {[LOCK_FILE_NAME]} else ∅ : gset string).
  destruct (manifest_keep_set (lockObject (this s1)) init Hman1)
    as (entries' & keep & Hentries & Hkeep).
  assert (entries' = props1) as -> by (cbn in Hentries; congruence).
  pose proof (reap_run removeLockFile s1 props1 keep entries1 Hentries Hkeep Hfs1) as Hreap.
  destruct (reap_loop keep (cacheDir (this s1)) (map fst (map_to_list entries1))
              {| world := record_event (EvReadDir (cacheDir (this s1))) (world s1);
                 this := this s1 |} entries1 eq_refl Hfs1)
    as (s2 & Hrun & Hthis & Hafter2).
  rewrite Hrun in Hreap.
  exists (fst (downloaded url name response (JObject props1) s)), s1, s2.
  split; [exact Hload|]. split; [exact Hreap|].
  destruct Hstore as (Hn1 & Hn2 & _).
  apply (read_file_lookup _ dir name _ (body response) Hafter2 Hn1 Hn2).
  rewrite reap_entries_lookup. case_decide as Hd; [|apply lookup_insert_eq].
  destruct Hd as [_ Hk]. exfalso. apply Hk.
  rewrite (basename_plain name Hn2).
  apply (keep_file_names_spec _ _ _ Hkeep). right.
  exists url, (entry_object entry). split; [apply assoc_set_in | reflexivity].
Qed.

End ResolveThenReap.

(** ** Writing the lock file *)

Lemma read_other_after_write (fs fs' : gmap string (gmap string node)) (target p : path)
    (data : list byte) :
  write_file fs target data = Ok fs' →
  p ≠ target →
  read_file fs' p = read_file fs p.
Proof.
  intros Hwrite Hne. unfold write_file in Hwrite.
  destruct (fs !! path_dir target) as [entries|] eqn:Hdir.
  - assert (Hfs' : has_slash (path_name target) = false
                   ∧ fs' = <[path_dir target := <[path_name target := File data]> entries]> fs).
    { destruct (lookup_path fs target) as [[d| |e]|[[| |m]| | | | | | |]];
        try discriminate;
        destruct (has_slash (path_name target)); try discriminate;
        injection Hwrite as <-; auto. }
    destruct Hfs' as [Hslash ->].
    unfold read_file, lookup_path.
    destruct (decide (path_dir p = path_dir target)) as [Heq|Hdiff].
    + rewrite Heq, lookup_insert_eq, Hdir.
      destruct (is_directory_name (path_name p)); [reflexivity|].
      destruct (has_slash (path_name p)); [reflexivity|].
      rewrite lookup_insert_ne; [reflexivity|].
      intros Hname. apply Hne. destruct p, target. cbn in *. congruence.
    + rewrite lookup_insert_ne by congruence. reflexivity.
  - destruct (lookup_path fs target) as [[d| |e]|[[| |m]| | | | | | |]]; discriminate.
Qed.

Section Persist.
Context `{Platform}.

(** X19.  [writeLockFile] touches the lock file and nothing else.  However
    the call ends, the manager is as before and every path but the lock file
    reads as before.  The renderer runs before the write: when it throws,
    the call throws its error and nothing has been issued, the state is the
    one before the call.  Otherwise one write is issued, of the encoded text
    (the serialized lock object, as the renderer left it when there is one)
    to the lock file, and when the call returns the lock file holds that
    text.  Nothing is said of what a write that fails leaves of the lock
    file: [Deno.writeFile] truncates the file before it writes. *)
Theorem persist_touches_lock_file_only (s : Session) (renderer : option Formatter) :
  let r := writeLockFile renderer s in
  let target := lockFilePath (this s) in
  let jsonText := JSON_stringify (lockObject (this s)) in
  this (snd r) = this s
  ∧ (∀ p, p ≠ target →
       read_file (directories (world (snd r))) p = read_file (directories (world s)) p)
  ∧ ((∃ f, renderer = Some f
           ∧ plugin_formatText (formatter_wasm f) (path_string target) jsonText = None
           ∧ r = (Throw FormatError, s))
     ∨ (∃ text, rendered renderer (path_string target) jsonText text
                ∧ trace (world (snd r))
                  = trace (world s) ++ [EvWriteFile target (TextEncoder_encode text)]
                ∧ (fst r = Ok tt →
                   read_file (directories (world (snd r))) target
                   = Ok (TextEncoder_encode text)))).
Proof.
  cbv zeta.
  cbv [writeLockFile bind gets in_world Deno_writeFile modify of_result ret
         Formatter_formatText throw].
  set (target := lockFilePath (this s)).
  set (jsonText := JSON_stringify (lockObject (this s))).
  assert (Hwrite : ∀ text,
    rendered renderer (path_string target) jsonText text →
    let r := match write_file (directories (world s)) target (TextEncoder_encode text) with
             | Ok fs' =>
                 (Ok tt,
                  {| world := set_directories fs'
                                (record_event (EvWriteFile target (TextEncoder_encode text))
                                   (world s));
                     this := this s |})
             | Throw e =>
                 (Throw e,
                  {| world := record_event (EvWriteFile target (TextEncoder_encode text))
                                (world s);
                     this := this s |})
             end in
    this (snd r) = this s
    ∧ (∀ p, p ≠ target →
         read_file (directories (world (snd r))) p = read_file (directories (world s)) p)
    ∧ trace (world (snd r))
      = trace (world s) ++ [EvWriteFile target (TextEncoder_encode text)]
    ∧ (fst r = Ok tt →
       read_file (directories (world (snd r))) target = Ok (TextEncoder_encode text))).
  { intros text Htext. cbv zeta.
    destruct (write_file (directories (world s)) target (TextEncoder_encode text))
      as [fs'|e] eqn:Hw; js_simpl.
    - split; [reflexivity|]. split.
      + intros p Hp. eapply read_other_after_write; eassumption.
      + split; [reflexivity|]. intros _. eapply read_after_write. exact Hw.
    - split; [reflexivity|]. split; [reflexivity|]. split; [reflexivity | discriminate]. }
  destruct renderer as [f|].
  - destruct (plugin_formatText (formatter_wasm f) (path_string target) jsonText)
      as [out|] eqn:Hout.
    + js_simpl. specialize (Hwrite out Hout). cbv zeta in Hwrite.
      destruct (write_file (directories (world s)) target (TextEncoder_encode out));
        destruct Hwrite as (Hthis & Hothers & Htrace & Hfile);
        (split; [exact Hthis|]); (split; [exact Hothers|]); right; exists out; auto.
    + js_simpl. split; [reflexivity|]. split; [reflexivity|].
      left. exists f. split; [reflexivity|]. split; [exact Hout|].
      now destruct s as [w []].
  - js_simpl. specialize (Hwrite jsonText eq_refl). cbv zeta in Hwrite.
    destruct (write_file (directories (world s)) target (TextEncoder_encode jsonText));
      destruct Hwrite as (Hthis & Hothers & Htrace & Hfile);
      (split; [exact Hthis|]); (split; [exact Hothers|]); right; exists jsonText;
      (split; [reflexivity|]); auto.
Qed.

(** X20.  [writeLockFile] does not create the cache directory.  On a run
    that has downloaded nothing into a cache directory that does not exist,
    the write fails with [NotFound] and no lock file appears. *)
Theorem persist_needs_directory (s : Session) :
  directories (world s) !! path_dir (lockFilePath (this s)) = None →
  ∃ s',
    writeLockFile None s = (Throw (Deno NotFound), s')
    ∧ directories (world s') = directories (world s)
    ∧ this s' = this s.
Proof.
  intros Hnone. rewrite persist_plain. cbv zeta.
  unfold write_file, lookup_path. rewrite Hnone.
  eexists. split; [reflexivity|]. split; reflexivity.
Qed.

End Persist.

(** ** The catalog: [getFormatters] *)

Section Loops.
Context {S A B : Type} (R : S → S → Prop).
Hypothesis R_refl : ∀ s, R s s.
Hypothesis R_trans : ∀ s1 s2 s3, R s1 s2 → R s2 s3 → R s1 s3.


Lemma for_each_steps (f : A → M S unit) (l : list A) :
  (∀ x s, R s (snd (f x s))) → ∀ s, R s (snd (for_each f l s)).
Proof.
  intros Hf. induction l as [|x l IH]; intros s; [apply R_refl|].
  cbn [for_each]. unfold bind at 1. specialize (Hf x s).
  destruct (f x s) as [[y|e] s1]; cbn [snd] in *; [|exact Hf].
  eauto.
Qed.



End Loops.



Section Catalog.
Context `{Platform}.


Lemma catalog_unusable (s : Session) :
  unusable_catalog (remote (world s)) →
  ∃ e,
    getFormatters s
    = (Throw e, {| world := record_event (EvFetch PLUGIN_INFOS_URL) (world s);
                   this := this s |}).
Proof.
  intros Hbad. cbv [getFormatters]. unfold bind at 1.
  cbv [in_world fetch bind modify gets ret throw]. js_simpl.
  destruct Hbad as [-> | (response & -> & Hbad)]; [eauto|].
  destruct (ok response); cbn [negb]; [|eauto].
  destruct Hbad as [Hok | [-> | (json & -> & ->)]]; [discriminate | eauto | cbn [negb]; eauto].
Qed.

(** X21.  A catalog that cannot be used stops [getFormatters] before any
    plugin is touched.  When the request for it fails, or its status is not
    successful, or its body is no JSON text, or the JSON is not of the
    catalog format, the call throws; the request for the catalog is the only
    operation, and the manager is as before. *)
Theorem catalog_rejected (s : Session) :
  unusable_catalog (remote (world s)) →
  ∃ e s',
    getFormatters s = (Throw e, s')
    ∧ this s' = this s
    ∧ directories (world s') = directories (world s)
    ∧ trace (world s') = trace (world s) ++ [EvFetch PLUGIN_INFOS_URL].
Proof.
  intros Hbad. destruct (catalog_unusable s Hbad) as [e Hrun].
  eexists _, _. split; [exact Hrun|]. repeat split; reflexivity.
Qed.


End Catalog.

(** ** The catalog format: [isDprintPluginsInfo] *)

(** A value that [t.isObject(spec)] accepts passes, at every key of the
    spec, the validator of that key. *)
Lemma t_isObject_field (spec : list (string * Validator)) (props : list (string * json))
    (k : string) (check : Validator) :
  t_isObject spec (Some (JObject props)) = true →
  assoc_get k spec = Some check →
  check (assoc_get k props) = true.
Proof.
  cbn [t_isObject Object_entries]. intros Hall Hk.
  rewrite forallb_forall in Hall.
  assert (Hin : In k (map fst spec ++ map fst props)).
  { apply in_or_app. left. clear Hall. induction spec as [|[k' c'] spec IH]; [discriminate|].
    cbn [assoc_get] in Hk. cbn [map fst]. destruct (decide (k = k')); [now left | right; auto]. }
  specialize (Hall k Hin). rewrite Hk in Hall.
  now destruct (decide (k = "constructor" ∨ k = "__proto__")).
Qed.

(** A parsed value that [t.isObject(spec)] accepts is a plain object, as
    soon as the spec has a key that is no index and must be present. *)
Lemma t_isObject_parsed (spec : list (string * Validator)) (v : json)
    (k : string) (check : Validator) :
  parsed_shape v →
  t_isObject spec (Some v) = true →
  assoc_get k spec = Some check → check None = false → (∀ i, index_key i ≠ k) →
  ∃ props, v = JObject props.
Proof.
  intros Hshape Hvalid Hk Hnone Hindex.
  destruct v as [| | | |elems extra|props]; try discriminate; [|eauto].
  apply parsed_shape_array in Hshape as [-> _]. exfalso.
  cbn [t_isObject Object_entries] in Hvalid. rewrite app_nil_r in Hvalid.
  rewrite forallb_forall in Hvalid.
  assert (Hin : In k (map fst spec ++ map fst (indexed elems))).
  { apply in_or_app. left. clear Hvalid. induction spec as [|[k' c'] spec IH]; [discriminate|].
    cbn [assoc_get] in Hk. cbn [map fst]. destruct (decide (k = k')); [now left | right; auto]. }
  specialize (Hvalid k Hin). rewrite Hk, (assoc_get_indexed k elems Hindex), Hnone in Hvalid.
  now destruct (decide (k = "constructor" ∨ k = "__proto__")).
Qed.

Lemma index_key_head (i : nat) (c : ascii) (r : string) :
  index_key i = String c r → is_digit c = true.
Proof.
  unfold index_key. destruct (Nat.to_uint i); cbn; intros [= <- _]; reflexivity.
Qed.

Lemma strings_of_array (elems : list json) (extra : list (string * json)) :
  t_isArray t_isString (Some (JArray elems extra)) = true →
  elems = map JString (strings_of (Some (JArray elems extra))).
Proof.
  cbn [t_isArray strings_of]. induction elems as [|e elems IH]; [reflexivity|].
  cbn [forallb]. intros [He Hall]%andb_prop.
  destruct e; try discriminate. cbn. f_equal. now apply IH.
Qed.

Section CatalogFormat.
Context `{Platform}.

(** X23.  What [isDprintPluginsInfo] guarantees of a parsed catalog: it is
    an object whose [latest] is an array of objects, each with a string
    [url], a string [configKey] and a [fileExtensions] array of strings.
    The plugins that [getFormatters] goes through are exactly these, with
    no field missing. *)
Theorem accepted_catalog_fields (text : string) (catalog : json) :
  JSON_parse text = Some catalog →
  isDprintPluginsInfo (Some catalog) = true →
  ∃ elems,
    js_get catalog "latest" = Ok (Some (JArray elems []))
    ∧ latest_plugins catalog = map plugin_info elems
    ∧ Forall
        (fun e =>
           js_get e "url" = Ok (Some (JString (pi_url (plugin_info e))))
           ∧ js_get e "configKey" = Ok (Some (JString (pi_configKey (plugin_info e))))
           ∧ js_get e "fileExtensions"
             = Ok (Some (JArray (map JString (pi_fileExtensions (plugin_info e))) [])))
        elems.
Proof.
  intros Hparse Hvalid. apply JSON_parse_shape in Hparse.
  assert (Hindex : ∀ k c r, k = String c r → is_digit c = false → ∀ i, index_key i ≠ k).
  { intros k c r -> Hc i Heq. apply index_key_head in Heq. congruence. }
  destruct (t_isObject_parsed _ catalog "latest" _ Hparse Hvalid eq_refl eq_refl
              (Hindex "latest" "l"%char "atest" eq_refl eq_refl)) as [props ->].
  pose proof (t_isObject_field _ props "latest" _ Hvalid eq_refl) as Hlatest.
  apply parsed_shape_object in Hparse as [_ Hshapes].
  destruct (assoc_get "latest" props) as [latest|] eqn:Hget; [|discriminate].
  assert (Hshape : parsed_shape latest).
  { clear Hvalid Hlatest. induction Hshapes as [|[k v] props Hv Hshapes IH]; [discriminate|].
    cbn [assoc_get] in Hget. destruct (decide ("latest" = k)); [|auto].
    injection Hget as <-. exact Hv. }
  destruct latest as [| | | |elems extra|]; try discriminate.
  apply parsed_shape_array in Hshape as [-> Helems].
  exists elems. split; [cbn [js_get Object_entries]; now rewrite Hget|].
  split; [cbn [latest_plugins]; now rewrite Hget|].
  cbn [t_isArray] in Hlatest. rewrite forallb_forall in Hlatest.
  apply Forall_forall. intros e Hin.
  rewrite Forall_forall in Helems. specialize (Helems e Hin).
  specialize (Hlatest e ltac:(now apply list_elem_of_In)).
  destruct (t_isObject_parsed _ e "url" _ Helems Hlatest eq_refl eq_refl
              (Hindex "url" "u"%char "rl" eq_refl eq_refl)) as [fields ->].
  pose proof (t_isObject_field _ fields "url" _ Hlatest eq_refl) as Hurl.
  pose proof (t_isObject_field _ fields "configKey" _ Hlatest eq_refl) as Hkey.
  pose proof (t_isObject_field _ fields "fileExtensions" _ Hlatest eq_refl) as Hexts.
  apply parsed_shape_object in Helems as [_ Hfields].
  cbn [js_get Object_entries plugin_info pi_url pi_configKey pi_fileExtensions
         string_property].
  destruct (assoc_get "url" fields) as [[| | |url| |]|]; try discriminate.
  destruct (assoc_get "configKey" fields) as [[| | |key| |]|]; try discriminate.
  destruct (assoc_get "fileExtensions" fields) as [[| | | |exts extra|]|] eqn:Hget_exts;
    try discriminate.
  assert (extra = []) as ->.
  { clear -Hfields Hget_exts. induction Hfields as [|[k v] fields Hv Hfields IH]; [discriminate|].
    cbn [assoc_get] in Hget_exts. destruct (decide ("fileExtensions" = k)); [|auto].
    injection Hget_exts as ->. cbn [snd] in Hv. now apply parsed_shape_array in Hv as [-> _]. }
  repeat split. do 3 f_equal. now apply strings_of_array.
Qed.

End CatalogFormat.

(** ** The maps of [getFormatters] *)

Lemma index_plugins_snoc (l : list LoadedPlugin) (plugin : LoadedPlugin) :
  index_plugins (l ++ [plugin]) = index_plugin (index_plugins l) plugin.
Proof. unfold index_plugins. now rewrite fold_left_app. Qed.

Lemma extension_fold_lookup (f : Formatter) (exts : list string)
    (m : gmap string Formatter) (k : string) :
  fold_left (fun byExtension fileExtension => <["." +:+ fileExtension := f]> byExtension)
    exts m !! k
  = if decide (k ∈ map (String.append ".") exts) then Some f else m !! k.
Proof.
  revert m. induction exts as [|e exts IH]; intros m.
  - cbn [fold_left map]. case_decide as Hd; [inversion Hd | reflexivity].
  - cbn [fold_left map]. rewrite IH.
    destruct (decide (k ∈ map (String.append ".") exts)) as [Hin|Hnotin].
    + rewrite decide_True by now right. reflexivity.
    + destruct (decide (k = "." +:+ e)) as [->|Hne].
      * rewrite decide_True by left. apply lookup_insert_eq.
      * rewrite lookup_insert_ne by congruence.
        rewrite decide_False; [reflexivity|].
        intros [?|?]%elem_of_cons; contradiction.
Qed.

Lemma dotted_elem (ext : string) (exts : list string) :
  "." +:+ ext ∈ map (String.append ".") exts ↔ ext ∈ exts.
Proof.
  rewrite !list_elem_of_In, in_map_iff. split.
  - intros (e & He & Hin). injection He as He. cbv [append] in He. now subst e.
  - intros Hin. eauto.
Qed.

(** Splitting a list at its last element. *)
Lemma snoc_split {A} (l before after : list A) (x y : A) :
  l ++ [x] = before ++ y :: after →
  (after = [] ∧ l = before ∧ x = y)
  ∨ ∃ after', after = after' ++ [x] ∧ l = before ++ y :: after'.
Proof.
  intros Heq. destruct after as [|z after _] using rev_ind.
  - left. apply app_inj_tail in Heq as [-> ->]. auto.
  - right. exists after. rewrite app_comm_cons, app_assoc in Heq.
    apply app_inj_tail in Heq as [-> ->]. auto.
Qed.

Section Index.
Context `{Process}.

(** X24.  The two maps of [getFormatters] list the catalog, a later plugin
    overriding an earlier one.  [pluginsByName] maps a name to the Formatter
    of the last plugin with that [configKey] and holds no other name;
    [pluginsByExtension] maps a key to a Formatter exactly when the key is a
    dot followed by a file extension of some plugin, and the Formatter is
    that of the last plugin that lists the extension. *)
Theorem plugin_index (formatters : list LoadedPlugin) (key : string) (f : Formatter) :
  (pluginsByName (index_plugins formatters) !! key = Some f
   ↔ ∃ before plugin after,
       formatters = before ++ plugin :: after
       ∧ name plugin = key
       ∧ f = formatter plugin
       ∧ Forall (fun later => name later ≠ key) after)
  ∧ (pluginsByExtension (index_plugins formatters) !! key = Some f
     ↔ ∃ before plugin after ext,
         formatters = before ++ plugin :: after
         ∧ ext ∈ fileExtensions plugin
         ∧ key = "." +:+ ext
         ∧ f = formatter plugin
         ∧ Forall (fun later => ext ∉ fileExtensions later) after).
Proof.
  induction formatters as [|p l [IHname IHext]] using rev_ind.
  { cbn. rewrite !lookup_empty. split; (split; [discriminate|]).
    - intros (before & plugin & after & Heq & _). now destruct before.
    - intros (before & plugin & after & ext & Heq & _). now destruct before. }
  rewrite index_plugins_snoc. cbn [index_plugin pluginsByName pluginsByExtension]. split.
  - (* by name *)
    destruct (decide (name p = key)) as [<-|Hne].
    + rewrite lookup_insert_eq. split.
      * intros [= <-]. exists l, p, []. repeat split; auto.
      * intros (before & plugin & after & Heq & Hname & -> & Hlater).
        apply snoc_split in Heq as [(-> & -> & ->) | (after' & -> & ->)]; [reflexivity|].
        apply Forall_app in Hlater as [_ Hp]. apply Forall_inv in Hp. cbv beta in Hp.
        contradiction.
    + rewrite lookup_insert_ne by assumption. rewrite IHname. split.
      * intros (before & plugin & after & -> & Hname & -> & Hlater).
        exists before, plugin, (after ++ [p]).
        rewrite <- app_assoc. repeat split; auto.
        apply Forall_app. split; [exact Hlater|]. constructor; [assumption | constructor].
      * intros (before & plugin & after & Heq & Hname & -> & Hlater).
        apply snoc_split in Heq as [(-> & -> & ->) | (after' & -> & ->)]; [contradiction|].
        apply Forall_app in Hlater as [Hlater _].
        exists before, plugin, after'. repeat split; auto.
  - (* by extension *)
    rewrite extension_fold_lookup.
    destruct (decide (key ∈ map (String.append ".") (fileExtensions p))) as [Hin|Hnotin].
    + split.
      * intros [= <-]. apply list_elem_of_In, in_map_iff in Hin as (ext & <- & Hin).
        exists l, p, [], ext. apply list_elem_of_In in Hin. repeat split; auto.
      * intros (before & plugin & after & ext & Heq & Hext & -> & -> & Hlater).
        apply snoc_split in Heq as [(-> & -> & ->) | (after' & -> & ->)]; [reflexivity|].
        apply Forall_app in Hlater as [_ Hp]. apply Forall_inv in Hp. cbv beta in Hp.
        apply (proj1 (dotted_elem _ _)) in Hin. contradiction.
    + rewrite IHext. split.
      * intros (before & plugin & after & ext & -> & Hext & -> & -> & Hlater).
        exists before, plugin, (after ++ [p]), ext.
        rewrite <- app_assoc. repeat split; auto.
        apply Forall_app. split; [exact Hlater|]. constructor; [|constructor].
        now rewrite <- dotted_elem.
      * intros (before & plugin & after & ext & Heq & Hext & -> & -> & Hlater).
        apply snoc_split in Heq as [(-> & -> & ->) | (after' & -> & ->)].
        -- apply (proj2 (dotted_elem _ _)) in Hext. contradiction.
        -- apply Forall_app in Hlater as [Hlater _].
           exists before, plugin, after', ext. repeat split; auto.
Qed.

(** X25.  Every key of [pluginsByExtension] starts with a dot: a file whose
    [extname] is empty has no formatter, whatever the catalog lists. *)
Theorem no_extension_no_formatter (formatters : list LoadedPlugin) (filePath : string) :
  extname filePath = "" →
  getFormatterForFile (index_plugins formatters) filePath = None.
Proof.
  intros Hext. unfold getFormatterForFile. rewrite Hext.
  induction formatters as [|p l IH] using rev_ind; [apply lookup_empty|].
  rewrite index_plugins_snoc. cbn [index_plugin pluginsByExtension].
  rewrite extension_fold_lookup. rewrite decide_False; [exact IH|].
  intros Hin. apply list_elem_of_In, in_map_iff in Hin as (ext & Hdot & _). discriminate.
Qed.

End Index.

(** ** The formatting loop of [main] *)

Lemma readable_is_writable (fs : gmap string (gmap string node)) (p : path)
    (bytes data : list byte) :
  read_file fs p = Ok bytes → ∃ fs', write_file fs p data = Ok fs'.
Proof.
  unfold read_file, write_file, lookup_path.
  destruct (fs !! path_dir p) as [entries|]; [|discriminate].
  destruct (is_directory_name (path_name p)); [discriminate|].
  destruct (has_slash (path_name p)); [discriminate|].
  destruct (entries !! path_name p) as [[d| |e]|]; try discriminate. eauto.
Qed.

Lemma after_write_keeps_readable (fs : gmap string (gmap string node)) (q : path)
    (data : list byte) :
  keeps_readable fs (after_write fs q data).
Proof.
  intros p bytes Hread. unfold after_write.
  destruct (write_file fs q data) as [fs'|e] eqn:Hw; [|eauto].
  assert (Hdec : p = q ∨ p ≠ q).
  { destruct p as [pd pn], q as [qd qn].
    destruct (decide (pd = qd)) as [->|]; [|right; congruence].
    destruct (decide (pn = qn)) as [->|]; [left; reflexivity | right; congruence]. }
  destruct Hdec as [->|Hne].
  - exists data. eapply read_after_write. exact Hw.
  - exists bytes. rewrite <- Hread. eapply read_other_after_write; eassumption.
Qed.

Section FormatLoop.
Context `{Platform} `{Process}.
Variables (parsedArgs : Args) (maps : FormatterMaps).

Ltac run_entry :=
  cbv [format_entry bind ret throw try_catch gets modify of_result unawaited
       Deno_readFile Deno_writeFile console Formatter_formatText];
  cbn [directories record_event set_directories trace fst snd].

(** Every outcome of one turn of the loop. *)
Lemma format_entry_cases (entry : WalkEntry) (w : World) :
  let p := entry_path entry in
  let w' := snd (format_entry parsedArgs maps entry w) in
  continues (fun ev => read_only ev
                       ∨ (dry_run parsedArgs = false
                          ∧ isFile entry = true
                          ∧ ∃ data, ev = EvWriteFile p data))
    (trace w) (trace w')
  ∧ (directories w' = directories w
     ∨ (dry_run parsedArgs = false
        ∧ ∃ data, directories w' = after_write (directories w) p data))
  ∧ remote w' = remote w.
Proof.
  cbv zeta. unfold format_entry.
  destruct (isFile entry) eqn:Hfile; [|repeat split; auto using continues_refl].
  destruct (getFormatterForFile maps (path_string (entry_path entry))) as [parser|].
  2:{ destruct (verbose parsedArgs); cbv [console modify ret]; cbn [snd record_event trace
        directories remote]; repeat split; auto using continues_refl.
      apply continues_snoc; [apply continues_refl | left; exact I]. }
  run_entry.
  destruct (read_file (directories w) (entry_path entry)) as [bytes|e]; cbn [snd trace
    directories remote record_event].
  2:{ repeat split; auto. apply continues_snoc; [apply continues_refl | left; exact I]. }
  destruct (plugin_formatText (formatter_wasm parser) (path_string (entry_path entry))
              (TextDecoder_decode bytes)) as [out|];
    cbn [snd trace directories remote record_event].
  2:{ repeat split; auto.
      repeat (apply continues_snoc; [|left; exact I]). apply continues_refl. }
  destruct (dry_run parsedArgs); cbn [negb andb].
  { cbn [snd trace directories remote record_event]. repeat split; auto.
    repeat (apply continues_snoc; [|left; exact I]). apply continues_refl. }
  destruct (negb (TextDecoder_decode bytes =? out)%string);
    cbn [snd trace directories remote record_event set_directories].
  - pose proof (eq_refl : after_write (directories w) (entry_path entry)
                            (TextEncoder_encode out) = _) as Hafter.
    unfold after_write at 1 in Hafter.
    destruct (write_file (directories w) (entry_path entry) (TextEncoder_encode out));
      cbn [snd trace directories remote record_event set_directories].
    + split; [|split; [right; split; [reflexivity | eauto] | reflexivity]].
      apply continues_snoc; [|left; exact I].
      apply continues_snoc; [|right; eauto 6].
      apply continues_snoc; [apply continues_refl | left; exact I].
    + split; [|split; [left; reflexivity | reflexivity]].
      apply continues_snoc; [|left; exact I].
      apply continues_snoc; [|right; eauto 6].
      apply continues_snoc; [apply continues_refl | left; exact I].
  - repeat split; auto.
    repeat (apply continues_snoc; [|left; exact I]). apply continues_refl.
Qed.

(** One turn returns unless the read fails. *)
Lemma format_entry_returns (entry : WalkEntry) (w : World) :
  (isFile entry = true →
   is_Some (getFormatterForFile maps (path_string (entry_path entry))) →
   ∃ bytes, read_file (directories w) (entry_path entry) = Ok bytes) →
  fst (format_entry parsedArgs maps entry w) = Ok tt.
Proof.
  intros Hreadable. unfold format_entry.
  destruct (isFile entry); [|reflexivity].
  destruct (getFormatterForFile maps (path_string (entry_path entry))) as [parser|].
  2:{ destruct (verbose parsedArgs); reflexivity. }
  destruct (Hreadable eq_refl ltac:(eauto)) as [bytes Hread].
  run_entry. rewrite Hread. cbn [fst snd].
  destruct (plugin_formatText _ _ _) as [out|]; cbn [fst snd]; [|reflexivity].
  destruct (negb (dry_run parsedArgs) && negb (TextDecoder_decode bytes =? out)%string);
    reflexivity.
Qed.

(** With [--dry-run] the loop issues no change to the disk. *)
Lemma dry_run_loop_silent (entries : list WalkEntry) (w : World) :
  dry_run parsedArgs = true →
  directories (snd (for_each (format_entry parsedArgs maps) entries w)) = directories w
  ∧ continues read_only (trace w)
      (trace (snd (for_each (format_entry parsedArgs maps) entries w))).
Proof.
  intros Hdry.
  apply (for_each_steps
           (fun w w' => directories w' = directories w
                        ∧ continues read_only (trace w) (trace w'))).
  - intros w0. split; [reflexivity | apply continues_refl].
  - intros w1 w2 w3 [Hd1 Ht1] [Hd2 Ht2]. split; [congruence|].
    eapply continues_trans; eassumption.
  - intros entry w0.
    destruct (format_entry_cases entry w0) as (Htrace & Hdirs & _).
    split.
    + destruct Hdirs as [Hsame | [Hwet _]]; [exact Hsame | congruence].
    + eapply continues_weaken; [|exact Htrace].
      intros ev [Hro | [Hwet _]]; [exact Hro | congruence].
Qed.


(** X26.  With [--dry-run] the formatting loop changes nothing on the disk:
    whatever the entries and the formatters, and however the loop ends, no
    write, removal or directory creation is issued, the directories are as
    before, and so is every file in them. *)
Theorem dry_run_changes_nothing (entries : list WalkEntry) (w : World) :
  dry_run parsedArgs = true →
  let w' := snd (for_each (format_entry parsedArgs maps) entries w) in
  directories w' = directories w
  ∧ continues read_only (trace w) (trace w')
  ∧ ∀ p, read_file (directories w') p = read_file (directories w) p.
Proof.
  intros Hdry. cbv zeta.
  destruct (dry_run_loop_silent entries w Hdry) as [Hdirs Htrace].
  split; [exact Hdirs|]. split; [exact Htrace|]. intros p. now rewrite Hdirs.
Qed.

(** X27.  A file that fails to format never stops the run, and neither does
    a file without a formatter: the loop over the entries returns whenever
    every file that has a formatter can be read and, unless [--dry-run] is
    given, can be written.  The write of the loop is awaited by nobody and
    its failure is caught by nobody: the statement is about the runs in
    which no such write fails, and says nothing of the others. *)
Theorem loop_survives_format_errors (entries : list WalkEntry) (w : World) :
  (∀ entry, entry ∈ entries →
     isFile entry = true →
     is_Some (getFormatterForFile maps (path_string (entry_path entry))) →
     (∃ bytes, read_file (directories w) (entry_path entry) = Ok bytes)
     ∧ (dry_run parsedArgs = false →
        ∀ data, ∃ fs', write_file (directories w) (entry_path entry) data = Ok fs')) →
  fst (for_each (format_entry parsedArgs maps) entries w) = Ok tt.
Proof.
  intros Haccess.
  assert (Hreadable : ∀ entry, entry ∈ entries →
            isFile entry = true →
            is_Some (getFormatterForFile maps (path_string (entry_path entry))) →
            ∃ bytes, read_file (directories w) (entry_path entry) = Ok bytes).
  { intros entry Hin Hfile Hparser. now destruct (Haccess entry Hin Hfile Hparser). }
  clear Haccess.
  revert w Hreadable.
  induction entries as [|entry entries IH]; intros w Hreadable; [reflexivity|].
  cbn [for_each]. unfold bind at 1.
  pose proof (format_entry_returns entry w (Hreadable entry ltac:(left))) as Hok.
  destruct (format_entry_cases entry w) as (_ & Hdirs & _).
  destruct (format_entry parsedArgs maps entry w) as [r w1]. cbn [fst snd] in *. subst r.
  apply IH. intros entry' Hin Hfile Hparser.
  destruct (Hreadable entry' ltac:(now right) Hfile Hparser) as [bytes Hread].
  destruct Hdirs as [-> | (_ & data & ->)]; [eauto|].
  eapply after_write_keeps_readable. exact Hread.
Qed.

(** X28.  What the loop does to one file that its formatter accepts.  The
    file is read once.  When formatting changes the text and [--dry-run] is
    not given, the encoded formatted text is written to the file, which then
    holds it; in every other case no write is issued and the file is as it
    was.  No other path is touched. *)
Theorem formatted_file_is_rewritten (entry : WalkEntry) (w : World) (parser : Formatter)
    (bytes : list byte) (out : string) :
  isFile entry = true →
  getFormatterForFile maps (path_string (entry_path entry)) = Some parser →
  read_file (directories w) (entry_path entry) = Ok bytes →
  plugin_formatText (formatter_wasm parser) (path_string (entry_path entry))
    (TextDecoder_decode bytes) = Some out →
  let p := entry_path entry in
  let rewritten := negb (dry_run parsedArgs) && negb (TextDecoder_decode bytes =? out)%string in
  ∃ w' logText,
    format_entry parsedArgs maps entry w = (Ok tt, w')
    ∧ trace w'
      = trace w ++ [EvReadFile p]
          ++ (if rewritten then [EvWriteFile p (TextEncoder_encode out)] else [])
          ++ [EvConsole log_level logText]
    ∧ read_file (directories w') p
      = Ok (if rewritten then TextEncoder_encode out else bytes)
    ∧ ∀ q, q ≠ p → read_file (directories w') q = read_file (directories w) q.
Proof.
  intros Hfile Hparser Hread Hout. cbv zeta.
  unfold format_entry. rewrite Hfile, Hparser. run_entry. rewrite Hread, Hout.
  cbn [fst snd].
  destruct (negb (dry_run parsedArgs) && negb (TextDecoder_decode bytes =? out)%string).
  - destruct (readable_is_writable (directories w) (entry_path entry) bytes
                (TextEncoder_encode out) Hread) as [fs' Hw].
    cbn [fst snd trace directories record_event set_directories].
    rewrite Hw. cbn [fst snd trace directories record_event set_directories].
    eexists _, _. split; [reflexivity|].
    cbn [trace directories record_event set_directories].
    split; [now rewrite <- !app_assoc|].
    split; [eapply read_after_write; exact Hw|].
    intros q Hq. eapply read_other_after_write; eassumption.
  - cbn [fst snd trace directories record_event].
    eexists _, _. split; [reflexivity|].
    cbn [trace directories record_event set_directories].
    split; [now rewrite <- !app_assoc|].
    split; [exact Hread | reflexivity].
Qed.

End FormatLoop.

(** ** [main] *)





Section Main.
Context `{Platform} `{Process}.


(** The constructor: a manager on the given directory, after one read of
    the lock file and at most the one warning. *)
Lemma new_manager (dir : string) (w : World) :
  ∃ o w',
    new_DprintPluginManager dir w
    = (Ok {| cacheDir := dir; lockFilePath := resolve dir LOCK_FILE_NAME;
             lockObject := o; formatters := ∅ |}, w')
    ∧ directories w' = directories w
    ∧ remote w' = remote w
    ∧ continues (fun ev => ev = EvReadFile (resolve dir LOCK_FILE_NAME)
                           ∨ ev = EvConsole error_level corrupted_message)
        (trace w) (trace w').
Proof.
  cbv [new_DprintPluginManager bind ret]. rewrite getLockObject_unfold. cbv zeta.
  set (P := fun ev => ev = EvReadFile (resolve dir LOCK_FILE_NAME)
                      ∨ ev = EvConsole error_level corrupted_message).
  assert (H1 : continues P (trace w)
                 (trace (record_event (EvReadFile (resolve dir LOCK_FILE_NAME)) w))).
  { cbn [record_event trace]. apply continues_snoc; [apply continues_refl | now left]. }
  assert (H2 : continues P (trace w)
                 (trace (record_event (EvConsole error_level corrupted_message)
                           (record_event (EvReadFile (resolve dir LOCK_FILE_NAME)) w)))).
  { cbn [record_event trace]. apply continues_snoc; [|now right].
    apply continues_snoc; [apply continues_refl | now left]. }
  destruct (read_file (directories w) (resolve dir LOCK_FILE_NAME)) as [bytes|e].
  - destruct (JSON_parse (TextDecoder_decode bytes)) as [v|].
    + destruct (_isValidLockObject v) as [[|]|e]; eexists _, _;
        (split; [reflexivity|]); repeat split; assumption.
    + eexists _, _. split; [reflexivity|]. repeat split; assumption.
  - eexists _, _. split; [reflexivity|]. repeat split; assumption.
Qed.


(** X30.  Without a usable catalog nothing is formatted.  [main] reads the
    lock file, requests the catalog and throws: these, and the warning for a
    corrupted lock file, are its only operations.  No file is walked, read
    for formatting, written or removed, and neither the reaper nor
    [writeLockFile] runs. *)
Theorem main_stops_without_catalog (parsedArgs : Args) (w : World) :
  help parsedArgs = false →
  unusable_catalog (remote w) →
  let lockFile := resolve (resolve_cwd ".dprint-cache") LOCK_FILE_NAME in
  ∃ e w',
    main parsedArgs w = (Throw e, w')
    ∧ directories w' = directories w
    ∧ fetched (trace w') = fetched (trace w) ++ [PLUGIN_INFOS_URL]
    ∧ continues (fun ev => ev = EvReadFile lockFile
                           ∨ ev = EvConsole error_level corrupted_message
                           ∨ ev = EvFetch PLUGIN_INFOS_URL)
        (trace w) (trace w').
Proof.
  intros Hhelp Hbad. cbv zeta. unfold main. rewrite Hhelp. cbv zeta.
  set (dir := resolve_cwd ".dprint-cache").
  unfold bind at 1.
  destruct (new_manager dir w) as (o & w0 & -> & Hdirs & Hremote & new & Htrace & Hnew).
  cbn [snd]. unfold with_manager. unfold bind at 1.
  set (s0 := {| world := w0; this := _ |}).
  destruct (catalog_unusable s0) as [e ->]; [cbn [s0 world]; now rewrite Hremote|].
  exists e. eexists. split; [reflexivity|]. cbn [world record_event directories trace s0].
  split; [exact Hdirs|]. rewrite Htrace. split.
  - unfold fetched. rewrite !omap_app. cbn [omap]. f_equal.
    rewrite <- (app_nil_r (omap _ (trace w))) at 2. f_equal.
    clear Htrace. induction Hnew as [|ev new [-> | ->] Hnew IH]; [reflexivity | exact IH ..].
  - exists (new ++ [EvFetch PLUGIN_INFOS_URL]). split; [now rewrite app_assoc|].
    apply Forall_app. split.
    + eapply Forall_impl; [exact Hnew|]. intros ev [-> | ->]; auto.
    + constructor; [auto | constructor].
Qed.

End Main.

(** ** The statements on concrete inputs *)

#[local] Existing Instance sample_platform.

Lemma run_result {S A} (m : M S A) (s : S) (r : Result A) :
  fst (m s) = r → m s = (r, snd (m s)).
Proof. intros <-. apply surjective_pairing. Qed.

Example basename_of_pathname : posix_basename "/dprint/json-0.19.3.wasm//" = json_plugin_file.
Proof. reflexivity. Qed.

Example parse_truncated : JSON_parse "{ [1, 2" = None.
Proof. reflexivity. Qed.

Example stringify_then_parse :
  JSON_parse (JSON_stringify (sample_manifest wasm_a)) = Some (sample_manifest wasm_a).
Proof. vm_compute. reflexivity. Qed.

(** C2 does not hold of a document whose top level is no object.
    [_isValidLockObject] tests the values of [Object.entries(lockObject)]
    and never the document itself.  A number, a boolean and an array without
    elements have no entry to refuse, an array of valid entries has only
    valid ones: each of these documents is returned as the lock object,
    without a warning, where the manifest schema has none of them and the
    claim has the empty manifest.  ([null] is recovered, because
    [Object.entries(null)] throws, and so is a text that is not empty,
    whose entries are its characters.) *)
Theorem non_object_document_is_loaded :
  let lockFile := resolve sample_dir LOCK_FILE_NAME in
  let load (text : string) :=
    _getLockObject lockFile
      (world (sample_session [(LOCK_FILE_NAME, File (TextEncoder_encode text))]
                (JObject []) no_network)) in
  let quiet := [EvReadFile lockFile] in
  let entries := JArray [sample_entry wasm_a] [] in
  (fst (load "[]") = Ok (JArray [] []) ∧ trace (snd (load "[]")) = quiet)
  ∧ (fst (load "5") = Ok (JNumber "5") ∧ trace (snd (load "5")) = quiet)
  ∧ (fst (load "true") = Ok (JBool true) ∧ trace (snd (load "true")) = quiet)
  ∧ (fst (load (JSON_stringify entries)) = Ok entries
     ∧ trace (snd (load (JSON_stringify entries))) = quiet
     ∧ _isValidLockObject entries = Ok true)
  ∧ fst (load "null") = Ok (JObject [])
  ∧ fst (load (JSON_stringify (JString "lock"))) = Ok (JObject []).
Proof.
  intros lockFile load quiet entries.
  split; [split; vm_compute; reflexivity|].
  split; [split; vm_compute; reflexivity|].
  split; [split; vm_compute; reflexivity|].
  split; [split; [|split]; vm_compute; reflexivity|].
  split; vm_compute; reflexivity.
Qed.

(** C8 does not hold of a lock object whose [fileName] is not, letter for
    letter, the name that the file has in the cache directory.
    [_isLockObjectEntry] accepts any string, [loadFormatterFromUrl] resolves
    the [fileName] against the cache directory, and [cleanCacheDir]
    compares it as it is written with the base name of each directory entry.
    With the entry [{ fileName: "./json-0.19.3.wasm", ... }], the name of
    the file [json-0.19.3.wasm] of the cache directory, the lock file loads
    as the manifest and the reaper removes that file; with
    [{ fileName: "plugins/json-0.19.3.wasm", ... }] it removes the directory
    [plugins], with all that is in it. *)
Theorem listed_file_is_reaped :
  let manifest name :=
    JObject [(json_plugin_url,
              entry_object {| fileName := name; sha512 := sample_digest wasm_a |})] in
  let lock name := File (TextEncoder_encode (JSON_stringify (manifest name))) in
  let dotted := "./json-0.19.3.wasm" in
  let nested := "plugins/json-0.19.3.wasm" in
  let s1 := sample_session [(LOCK_FILE_NAME, lock dotted); (json_plugin_file, File wasm_a)]
              (manifest dotted) no_network in
  let s2 := sample_session [(LOCK_FILE_NAME, lock nested); ("plugins", Directory)]
              (manifest nested) no_network in
  let after s := directories (world (snd (cleanCacheDir false s))) !! sample_dir in
  (fst (_getLockObject (lockFilePath (this s1)) (world s1)) = Ok (manifest dotted)
   ∧ named_by_manifest (lockObject (this s1)) dotted
   ∧ read_file (directories (world s1)) (resolve sample_dir json_plugin_file) = Ok wasm_a
   ∧ fst (cleanCacheDir false s1) = Ok tt
   ∧ trace (world (snd (cleanCacheDir false s1)))
     = [EvReadDir sample_dir;
        EvConsole log_level "Cleaning up: json-0.19.3.wasm";
        EvRemove (resolve sample_dir json_plugin_file)]
   ∧ after s1 = Some {[ LOCK_FILE_NAME := lock dotted ]})
  ∧ (fst (_getLockObject (lockFilePath (this s2)) (world s2)) = Ok (manifest nested)
     ∧ named_by_manifest (lockObject (this s2)) nested
     ∧ fst (cleanCacheDir false s2) = Ok tt
     ∧ trace (world (snd (cleanCacheDir false s2)))
       = [EvReadDir sample_dir;
          EvConsole log_level "Cleaning up: plugins";
          EvRemove (resolve sample_dir "plugins")]
     ∧ after s2 = Some {[ LOCK_FILE_NAME := lock nested ]}).
Proof.
  intros manifest lock dotted nested s1 s2 after.
  assert (Hnamed : ∀ name, named_by_manifest (manifest name) name).
  { intros name. eexists _, json_plugin_url, _.
    split; [reflexivity|]. split; [left | reflexivity]. }
  split.
  - split; [vm_compute; reflexivity|]. split; [apply Hnamed|].
    split; [vm_compute; reflexivity|]. split; [vm_compute; reflexivity|].
    split; vm_compute; reflexivity.
  - split; [vm_compute; reflexivity|]. split; [apply Hnamed|].
    split; [vm_compute; reflexivity|].
    split; vm_compute; reflexivity.
Qed.

(** A first run on a cache directory that holds one file nobody lists: one
    fetch, then the reaper, then the lock file. *)
Example first_run :
  let s0 := sample_session [("old.wasm", File wasm_b)] (JObject []) (sample_remote true) in
  let run :=
    (f <- loadFormatterFromUrl json_plugin_url ;;
     cleanCacheDir false ;;
     writeLockFile (Some f)) in
  let fs := directories (world (snd (run s0))) in
  fst (run s0) = Ok tt
  ∧ read_file fs (resolve sample_dir json_plugin_file) = Ok wasm_a
  ∧ read_file fs (resolve sample_dir "old.wasm") = Throw (Deno NotFound)
  ∧ read_file fs (resolve sample_dir LOCK_FILE_NAME)
    = Ok (TextEncoder_encode (JSON_stringify (sample_manifest wasm_a)))
  ∧ fetched (trace (world (snd (run s0)))) = [json_plugin_url].
Proof. intros s0 run fs. repeat split; vm_compute; reflexivity. Qed.

Lemma persist_then_load_witness :
  let s := sample_session [] (sample_manifest wasm_a) no_network in
  let renderer := Some {| formatter_ref := 0; formatter_wasm := wasm_b |} in
  let s' := snd (writeLockFile renderer s) in
  fst (_getLockObject (lockFilePath (this s')) (world s')) = Ok (lockObject (this s)).
Proof.
  intros s renderer s'.
  assert (Hman : lock_manifest (lockObject (this s))).
  { apply (lock_manifest_set (JObject []) _ json_plugin_url
             {| fileName := json_plugin_file; sha512 := sample_digest wasm_a |}
             lock_manifest_empty).
    reflexivity. }
  assert (Hrender : renderer_keeps_json renderer (path_string (lockFilePath (this s)))
                      (JSON_stringify (lockObject (this s)))).
  { intros out [= <-]. vm_compute. reflexivity. }
  assert (Hwrite : fst (writeLockFile renderer s) = Ok tt) by (vm_compute; reflexivity).
  exact (persist_then_load s s' renderer Hman Hrender
           (run_result (writeLockFile renderer) s (Ok tt) Hwrite)).
Defined.

Lemma load_malformed_gives_empty_witness :
  let text := JSON_stringify (JObject [("u", JObject [("fileName", JNumber "7")])]) in
  fst (_getLockObject (resolve sample_dir LOCK_FILE_NAME)
         (world (sample_session [(LOCK_FILE_NAME, File (TextEncoder_encode text))]
                   (JObject []) no_network)))
  = Ok (JObject []).
Proof.
  intros text.
  apply (load_malformed_gives_empty _ _ (TextEncoder_encode text)).
  - vm_compute. reflexivity.
  - right. left.
    exists (JObject [("u", JObject [("fileName", JNumber "7")])]),
      [("u", JObject [("fileName", JNumber "7")])], "u",
      (JObject [("fileName", JNumber "7")]).
    split; [vm_compute; reflexivity|]. split; [reflexivity|]. split; [left|].
    intros (_ & (f & h & Hf & _) & _). vm_compute in Hf. discriminate.
Defined.

(** C3 as the spec states it fails: a lock file that cannot be read for lack
    of permission loads as the empty manifest. *)
Lemma permission_denied_is_swallowed : ¬ io_failure_propagates.
Proof.
  intros Hclaim.
  specialize (Hclaim
                (world (sample_session [(LOCK_FILE_NAME, Inaccessible PermissionDenied)]
                          (JObject []) no_network))
                (resolve sample_dir LOCK_FILE_NAME) PermissionDenied
                ltac:(discriminate) ltac:(vm_compute; reflexivity)).
  vm_compute in Hclaim. discriminate.
Qed.

Lemma load_swallows_io_failure_witness :
  let w := world (sample_session [(LOCK_FILE_NAME, Inaccessible PermissionDenied)]
                    (JObject []) no_network) in
  let p := resolve sample_dir LOCK_FILE_NAME in
  _getLockObject p w = (Ok (JObject []), record_event (EvReadFile p) w).
Proof.
  intros w p.
  apply (load_swallows_io_failure w p (Deno PermissionDenied)). vm_compute. reflexivity.
Defined.

Lemma resolve_missing_artifact_witness :
  let stale := sample_entry wasm_b in
  let other := (mirror_plugin_url, sample_entry wasm_b) in
  let s := sample_session [] (JObject [(json_plugin_url, stale); other])
             (sample_remote true) in
  ∃ f s1 s',
    load_cached json_plugin_url
      {| fileName := json_plugin_file; sha512 := sample_digest wasm_b |} s = (Ok None, s1)
    ∧ lockObject (this s1) = JObject [other]
    ∧ fetched (trace (world s1)) = []
    ∧ loadFormatterFromUrl json_plugin_url s = (Ok f, s')
    ∧ formatter_wasm f = wasm_a
    ∧ lockObject (this s') = JObject [other; (json_plugin_url, sample_entry wasm_a)]
    ∧ trace (world s')
      = [EvReadFile (resolve sample_dir json_plugin_file);
         EvFetch json_plugin_url;
         EvInstantiate wasm_a;
         EvMkdir sample_dir;
         EvWriteFile (resolve sample_dir json_plugin_file) wasm_a]
    ∧ fetched (trace (world s')) = [json_plugin_url]
    ∧ read_file (directories (world s')) (resolve sample_dir json_plugin_file) = Ok wasm_a.
Proof.
  intros stale other s.
  destruct (resolve_missing_artifact s
              json_plugin_url json_plugin_file
              [(json_plugin_url, stale); other] stale
              {| fileName := json_plugin_file; sha512 := sample_digest wasm_b |}
              {| ok := true; body := wasm_a |})
    as (f & s1 & s' & Hcached & _ & Hload & Hlock1 & _ & _ & Hfetched1 & Hf & _ & Hlock
        & Htrace & Hfetched & Hdirs);
    [first [vm_compute; reflexivity | apply (bool_decide_unpack _); vm_compute; exact I] ..|].
  exists f, s1, s'. split; [exact Hcached|].
  split; [rewrite Hlock1; vm_compute; reflexivity|].
  split; [rewrite Hfetched1; vm_compute; reflexivity|].
  split; [exact Hload|]. split; [exact Hf|].
  split; [rewrite Hlock; vm_compute; reflexivity|].
  split; [rewrite Htrace; vm_compute; reflexivity|].
  split; [rewrite Hfetched; vm_compute; reflexivity|].
  rewrite Hdirs. vm_compute. reflexivity.
Defined.

Lemma resolve_checksum_mismatch_witness :
  let s := sample_session [(json_plugin_file, File wasm_b)] (sample_manifest wasm_a)
             (sample_remote true) in
  ∃ f s',
    loadFormatterFromUrl json_plugin_url s = (Ok f, s')
    ∧ formatter_wasm f = wasm_a
    ∧ lockObject (this s') = sample_manifest wasm_a
    ∧ trace (world s')
      = [EvReadFile (resolve sample_dir json_plugin_file);
         EvConsole warn_level (mismatch_message json_plugin_file);
         EvFetch json_plugin_url;
         EvInstantiate wasm_a;
         EvMkdir sample_dir;
         EvWriteFile (resolve sample_dir json_plugin_file) wasm_a]
    ∧ fetched (trace (world s')) = [json_plugin_url]
    ∧ read_file (directories (world s')) (resolve sample_dir json_plugin_file) = Ok wasm_a.
Proof.
  intros s.
  destruct (resolve_checksum_mismatch s
              json_plugin_url json_plugin_file
              [(json_plugin_url, sample_entry wasm_a)] (sample_entry wasm_a)
              {| fileName := json_plugin_file; sha512 := sample_digest wasm_a |}
              wasm_b {| ok := true; body := wasm_a |})
    as (f & s' & Hload & Hf & Hlock & Htrace & Hfetched & Hdirs);
    [vm_compute; (reflexivity || discriminate) ..|].
  exists f, s'. split; [exact Hload|]. split; [exact Hf|].
  split; [rewrite Hlock; vm_compute; reflexivity|].
  split; [rewrite Htrace; vm_compute; reflexivity|].
  split; [rewrite Hfetched; vm_compute; reflexivity|].
  rewrite Hdirs. vm_compute. reflexivity.
Defined.

Lemma resolve_twice_witness :
  let s := sample_session [] (JObject []) (sample_remote true) in
  let f := {| formatter_ref := 0; formatter_wasm := wasm_a |} in
  fst (loadFormatterFromUrl json_plugin_url s) = Ok f
  ∧ loadFormatterFromUrl json_plugin_url (snd (loadFormatterFromUrl json_plugin_url s))
    = (Ok f, snd (loadFormatterFromUrl json_plugin_url s)).
Proof.
  intros s f.
  assert (Hfirst : fst (loadFormatterFromUrl json_plugin_url s) = Ok f)
    by (vm_compute; reflexivity).
  split; [exact Hfirst|].
  exact (resolve_twice json_plugin_url s (snd (loadFormatterFromUrl json_plugin_url s)) f
           (run_result (loadFormatterFromUrl json_plugin_url) s (Ok f) Hfirst)).
Defined.

Lemma resolve_cache_hit_witness :
  let s := sample_session [(json_plugin_file, File wasm_a)] (sample_manifest wasm_a)
             no_network in
  let url := json_plugin_url in
  let entry := {| fileName := json_plugin_file; sha512 := sample_digest wasm_a |} in
  let bytes := wasm_a in
  ∃ f s',
    loadFormatterFromUrl url s = (Ok f, s')
    ∧ formatter_wasm f = bytes
    ∧ formatters (this s') !! url = Some f
    ∧ lockObject (this s') = lockObject (this s)
    ∧ directories (world s') = directories (world s)
    ∧ trace (world s')
      = trace (world s)
          ++ [EvReadFile (resolve (cacheDir (this s)) (fileName entry)); EvInstantiate bytes]
    ∧ fetched (trace (world s')) = fetched (trace (world s)).
Proof.
  intros s url entry bytes.
  assert (H1 : formatters (this s) !! url = None) by (vm_compute; reflexivity).
  assert (H2 : _urlToFileName url = Ok json_plugin_file) by (vm_compute; reflexivity).
  assert (H3 : lockObject (this s) = JObject [(json_plugin_url, sample_entry wasm_a)])
    by reflexivity.
  assert (H4 : assoc_get url [(json_plugin_url, sample_entry wasm_a)]
               = Some (sample_entry wasm_a)) by (vm_compute; reflexivity).
  assert (H5 : as_lock_entry (Some (sample_entry wasm_a)) = Some entry)
    by (vm_compute; reflexivity).
  assert (H6 : read_file (directories (world s)) (resolve (cacheDir (this s)) (fileName entry))
               = Ok bytes) by (vm_compute; reflexivity).
  assert (H7 : _hashSha512 bytes = sha512 entry) by (vm_compute; reflexivity).
  assert (H8 : wasm_instantiable bytes = true) by (vm_compute; reflexivity).
  exact (resolve_cache_hit s url json_plugin_file
           [(json_plugin_url, sample_entry wasm_a)] (sample_entry wasm_a) entry bytes
           H1 H2 H3 H4 H5 H6 H7 H8).
Defined.

Lemma reap_leaves_listed_files_witness :
  let before : gmap string node :=
    list_to_map [(json_plugin_file, File wasm_a); ("old.wasm", File wasm_b);
                 (LOCK_FILE_NAME, File [])] in
  let s := sample_session
             [(json_plugin_file, File wasm_a); ("old.wasm", File wasm_b);
              (LOCK_FILE_NAME, File [])]
             (sample_manifest wasm_a) no_network in
  let s' := snd (cleanCacheDir false s) in
  let removeLockFile := false in
  ∃ after,
    directories (world s') !! cacheDir (this s) = Some after
    ∧ lockObject (this s') = lockObject (this s)
    ∧ (∀ n, is_Some (after !! n) →
            (removeLockFile = false ∧ basename n = LOCK_FILE_NAME)
            ∨ named_by_manifest (lockObject (this s)) (basename n))
    ∧ ((∀ n, is_Some (before !! n) → has_slash n = false) →
       ∀ file, named_by_manifest (lockObject (this s)) file → after !! file = before !! file).
Proof.
  intros before s s' removeLockFile.
  assert (Hrun : fst (cleanCacheDir removeLockFile s) = Ok tt) by (vm_compute; reflexivity).
  assert (Hdir : directories (world s) !! cacheDir (this s) = Some before)
    by exact (lookup_singleton_eq sample_dir before).
  subst s'.
  exact (reap_leaves_listed_files s (snd (cleanCacheDir false s)) removeLockFile before
           (run_result (cleanCacheDir removeLockFile) s (Ok tt) Hrun) Hdir).
Defined.

(** C9 on an input.  The server answers the request for the plugin with an
    unsuccessful status and a body; the call returns a Formatter made from
    that body and the lock object records the hash of that body. *)
Theorem failed_download_is_recorded :
  let s := sample_session [] (JObject []) (sample_remote false) in
  let r := loadFormatterFromUrl json_plugin_url s in
  remote (world s) !! json_plugin_url = Some {| ok := false; body := wasm_a |}
  ∧ fst r = Ok {| formatter_ref := 0; formatter_wasm := wasm_a |}
  ∧ lockObject (this (snd r))
    = JObject [(json_plugin_url,
                entry_object {| fileName := json_plugin_file;
                                sha512 := _hashSha512 wasm_a |})].
Proof. intros s r. repeat split; vm_compute; reflexivity. Qed.

Lemma same_basename_shares_cache_file_witness :
  let s := sample_session [] (JObject []) (sample_remote true) in
  let url1 := json_plugin_url in
  let url2 := mirror_plugin_url in
  let p1 := "/json-0.19.3.wasm" in
  let r1 := {| ok := true; body := wasm_a |} in
  let r2 := {| ok := true; body := wasm_b |} in
  let name := posix_basename p1 in
  let file := resolve (cacheDir (this s)) name in
  _urlToFileName url1 = Ok name
  ∧ _urlToFileName url2 = Ok name
  ∧ ∃ f1 s1 f2 s2 props',
      loadFormatterFromUrl url1 s = (Ok f1, s1)
      ∧ read_file (directories (world s1)) file = Ok (body r1)
      ∧ loadFormatterFromUrl url2 s1 = (Ok f2, s2)
      ∧ lockObject (this s2) = JObject props'
      ∧ as_lock_entry (assoc_get url1 props')
        = Some {| fileName := name; sha512 := _hashSha512 (body r1) |}
      ∧ as_lock_entry (assoc_get url2 props')
        = Some {| fileName := name; sha512 := _hashSha512 (body r2) |}
      ∧ read_file (directories (world s2)) file = Ok (body r2).
Proof.
  intros s url1 url2 p1 r1 r2.
  assert (Hne : url1 ≠ url2) by discriminate.
  assert (Hp1 : url_pathname url1 = Some p1) by (vm_compute; reflexivity).
  assert (Hp2 : url_pathname url2 = Some "/dprint/json-0.19.3.wasm")
    by (vm_compute; reflexivity).
  assert (Hbase : posix_basename p1 = posix_basename "/dprint/json-0.19.3.wasm")
    by (vm_compute; reflexivity).
  assert (Hnew1 : formatters (this s) !! url1 = None) by (vm_compute; reflexivity).
  assert (Hnew2 : formatters (this s) !! url2 = None) by (vm_compute; reflexivity).
  assert (Hobj : lockObject (this s) = JObject []) by reflexivity.
  assert (Hget1 : assoc_get url1 ([] : list (string * json)) = None) by reflexivity.
  assert (Hget2 : assoc_get url2 ([] : list (string * json)) = None) by reflexivity.
  assert (Hr1 : remote (world s) !! url1 = Some r1) by (vm_compute; reflexivity).
  assert (Hr2 : remote (world s) !! url2 = Some r2) by (vm_compute; reflexivity).
  assert (Hw1 : wasm_instantiable (body r1) = true) by (vm_compute; reflexivity).
  assert (Hw2 : wasm_instantiable (body r2) = true) by (vm_compute; reflexivity).
  assert (Hstore : can_store (directories (world s)) (cacheDir (this s)) (posix_basename p1)).
  { split; [vm_compute; reflexivity|]. split; [vm_compute; reflexivity|].
    intros entries nd Hdir Hnd.
    assert (Hempty : directories (world s) !! cacheDir (this s) = Some ∅)
      by exact (lookup_singleton_eq sample_dir ∅).
    rewrite Hempty in Hdir. injection Hdir as <-.
    rewrite lookup_empty in Hnd. discriminate. }
  exact (same_basename_shares_cache_file s url1 url2 p1 "/dprint/json-0.19.3.wasm" []
           r1 r2 Hne Hp1 Hp2 Hbase Hnew1 Hnew2 Hobj Hget1 Hget2 Hr1 Hr2 Hw1 Hw2 Hstore).
Defined.

(** ** The further properties on concrete inputs *)

#[local] Existing Instance sample_process.

Lemma sample_can_store (entries : list (string * node)) (o : json)
    (net : gmap string Response) (file : string) :
  is_directory_name file = false →
  has_slash file = false →
  Forall (fun kv => ∃ d, snd kv = File d) entries →
  can_store (directories (world (sample_session entries o net))) sample_dir file.
Proof.
  intros Hname Hslash Hfiles. split; [exact Hname|]. split; [exact Hslash|].
  intros listed nd Hdir Hnd. cbn [sample_session world directories] in Hdir.
  rewrite lookup_singleton_eq in Hdir. injection Hdir as <-.
  apply elem_of_list_to_map_2 in Hnd. rewrite Forall_forall in Hfiles.
  exact (Hfiles (file, nd) Hnd).
Qed.

(** A session whose cache directory does not exist. *)
Lemma no_cache_directory (s : Session) :
  world s = empty_world → directories (world s) !! cacheDir (this s) = None.
Proof. intros ->. apply lookup_empty. Qed.

(** A whole run on a working directory with a JSON file and a file without
    extension: the catalog and the plugin are fetched, the JSON file is
    formatted, the other file is skipped, and the cache directory ends with
    the plugin and the lock file. *)
Example whole_run :
  let r := @main tidy_platform sample_process (sample_args false)
             (sample_world catalog_remote) in
  let fs := directories (snd r) in
  fst r = Ok tt
  ∧ fetched (trace (snd r)) = [PLUGIN_INFOS_URL; json_plugin_url]
  ∧ read_file fs (resolve "/work" "data.json") = Ok (TextEncoder_encode ("{ }" +:+ str1 LF))
  ∧ read_file fs (resolve "/work" "notes") = Ok (TextEncoder_encode "plain")
  ∧ read_file fs (resolve sample_dir json_plugin_file) = Ok wasm_a
  ∧ read_file fs (resolve sample_dir LOCK_FILE_NAME)
    = Ok (TextEncoder_encode (JSON_stringify (sample_manifest wasm_a) +:+ str1 LF)).
Proof.
  intros r fs.
  split; [vm_compute; reflexivity|]. split; [vm_compute; reflexivity|].
  split; [vm_compute; reflexivity|]. split; [vm_compute; reflexivity|].
  split; vm_compute; reflexivity.
Qed.

(** The same run with [--dry-run]: the plugin is cached and the lock file
    written, and the file that would be formatted is as it was. *)
Example whole_dry_run :
  let r := @main tidy_platform sample_process (sample_args true)
             (sample_world catalog_remote) in
  let fs := directories (snd r) in
  fst r = Ok tt
  ∧ read_file fs (resolve "/work" "data.json") = Ok (TextEncoder_encode "{ }")
  ∧ read_file fs (resolve sample_dir json_plugin_file) = Ok wasm_a.
Proof.
  intros r fs.
  split; [vm_compute; reflexivity|]. split; vm_compute; reflexivity.
Qed.

Lemma loaded_object_is_manifest_witness :
  let text := JSON_stringify (sample_manifest wasm_a) in
  let w := world (sample_session [(LOCK_FILE_NAME, File (TextEncoder_encode text))]
                    (JObject []) no_network) in
  let props := [(json_plugin_url, sample_entry wasm_a)] in
  lock_manifest (JObject props)
  ∧ ∀ k e, (k, e) ∈ props → entry_shaped e ∧ is_Some (as_lock_entry (Some e)).
Proof.
  intros text w props.
  assert (Hload : fst (_getLockObject (resolve sample_dir LOCK_FILE_NAME) w)
                  = Ok (JObject props)) by (vm_compute; reflexivity).
  exact (loaded_object_is_manifest (resolve sample_dir LOCK_FILE_NAME) w props Hload).
Defined.

Lemma load_returns_value_without_entries_witness :
  let bytes := TextEncoder_encode "5" in
  let w := world (sample_session [(LOCK_FILE_NAME, File bytes)] (JObject []) no_network) in
  let p := resolve sample_dir LOCK_FILE_NAME in
  _getLockObject p w = (Ok (JNumber "5"), record_event (EvReadFile p) w).
Proof.
  intros bytes w p.
  assert (Hread : read_file (directories w) p = Ok bytes) by (vm_compute; reflexivity).
  assert (Hparse : JSON_parse (TextDecoder_decode bytes) = Some (JNumber "5"))
    by (vm_compute; reflexivity).
  exact (load_returns_value_without_entries p w bytes (JNumber "5") Hread Hparse eq_refl).
Defined.

Lemma file_name_is_component_witness :
  has_slash json_plugin_file = false ∧ basename json_plugin_file = json_plugin_file.
Proof.
  assert (Hname : _urlToFileName mirror_plugin_url = Ok json_plugin_file)
    by (vm_compute; reflexivity).
  exact (file_name_is_component mirror_plugin_url json_plugin_file Hname).
Defined.

Lemma resolve_invalid_url_witness :
  let s := sample_session [] (JObject []) (sample_remote true) in
  loadFormatterFromUrl "json-0.19.3.wasm" s = (Throw TypeError, s).
Proof.
  intros s.
  assert (Hnew : formatters (this s) !! "json-0.19.3.wasm" = None) by apply lookup_empty.
  assert (Hurl : url_pathname "json-0.19.3.wasm" = None) by (vm_compute; reflexivity).
  exact (resolve_invalid_url s "json-0.19.3.wasm" Hnew Hurl).
Defined.

Lemma first_download_is_stored_witness :
  let s := sample_session [] (JObject []) (sample_remote true) in
  let url := json_plugin_url in
  let name := json_plugin_file in
  let response := {| ok := true; body := wasm_a |} in
  ∃ f s' props',
    loadFormatterFromUrl url s = (Ok f, s')
    ∧ formatter_wasm f = body response
    ∧ formatters (this s') !! url = Some f
    ∧ lockObject (this s') = JObject props'
    ∧ as_lock_entry (assoc_get url props')
      = Some {| fileName := name; sha512 := _hashSha512 (body response) |}
    ∧ read_file (directories (world s')) (resolve (cacheDir (this s)) name)
      = Ok (body response)
    ∧ fetched (trace (world s')) = fetched (trace (world s)) ++ [url].
Proof.
  intros s url name response.
  assert (Hnew : formatters (this s) !! url = None) by apply lookup_empty.
  assert (Hname : _urlToFileName url = Ok name) by (vm_compute; reflexivity).
  assert (Hremote : remote (world s) !! url = Some response) by (vm_compute; reflexivity).
  assert (Hwasm : wasm_instantiable (body response) = true) by reflexivity.
  assert (Hstore : can_store (directories (world s)) (cacheDir (this s)) name)
    by (apply sample_can_store; [reflexivity | reflexivity | constructor]).
  exact (first_download_is_stored s url name [] response Hnew Hname eq_refl eq_refl
           Hremote Hwasm Hstore).
Defined.

Lemma resolve_read_failure_propagates_witness :
  let s := sample_session [(json_plugin_file, Inaccessible PermissionDenied)]
             (sample_manifest wasm_a) (sample_remote true) in
  let entry := {| fileName := json_plugin_file; sha512 := sample_digest wasm_a |} in
  ∃ s',
    loadFormatterFromUrl json_plugin_url s = (Throw (Deno PermissionDenied), s')
    ∧ this s' = this s
    ∧ directories (world s') = directories (world s)
    ∧ trace (world s')
      = trace (world s) ++ [EvReadFile (resolve (cacheDir (this s)) (fileName entry))].
Proof.
  intros s entry.
  assert (Hnew : formatters (this s) !! json_plugin_url = None) by apply lookup_empty.
  assert (Hname : _urlToFileName json_plugin_url = Ok json_plugin_file)
    by (vm_compute; reflexivity).
  assert (Hget : assoc_get json_plugin_url [(json_plugin_url, sample_entry wasm_a)]
                 = Some (sample_entry wasm_a)) by (vm_compute; reflexivity).
  assert (Hentry : as_lock_entry (Some (sample_entry wasm_a)) = Some entry)
    by (vm_compute; reflexivity).
  assert (Hread : read_file (directories (world s))
                    (resolve (cacheDir (this s)) (fileName entry))
                  = Throw (Deno PermissionDenied)) by (vm_compute; reflexivity).
  assert (Hother : Deno PermissionDenied ≠ Deno NotFound) by discriminate.
  exact (resolve_read_failure_propagates s json_plugin_url json_plugin_file
           [(json_plugin_url, sample_entry wasm_a)] (sample_entry wasm_a) entry
           (Deno PermissionDenied) Hnew Hname eq_refl Hget Hentry Hread Hother).
Defined.

Lemma resolve_cached_module_invalid_witness :
  let bytes := [x01; x02] in
  let s := sample_session [(json_plugin_file, File bytes)] (sample_manifest bytes)
             (sample_remote true) in
  ∃ s',
    loadFormatterFromUrl json_plugin_url s = (Throw CompileError, s')
    ∧ this s' = this s
    ∧ directories (world s') = directories (world s)
    ∧ fetched (trace (world s')) = fetched (trace (world s)).
Proof.
  intros bytes s.
  set (entry := {| fileName := json_plugin_file; sha512 := sample_digest bytes |}).
  assert (Hnew : formatters (this s) !! json_plugin_url = None) by apply lookup_empty.
  assert (Hname : _urlToFileName json_plugin_url = Ok json_plugin_file)
    by (vm_compute; reflexivity).
  assert (Hget : assoc_get json_plugin_url [(json_plugin_url, sample_entry bytes)]
                 = Some (sample_entry bytes)) by (vm_compute; reflexivity).
  assert (Hentry : as_lock_entry (Some (sample_entry bytes)) = Some entry)
    by (vm_compute; reflexivity).
  assert (Hread : read_file (directories (world s))
                    (resolve (cacheDir (this s)) (fileName entry)) = Ok bytes)
    by (vm_compute; reflexivity).
  assert (Hhash : _hashSha512 bytes = sha512 entry) by reflexivity.
  assert (Hwasm : wasm_instantiable bytes = false) by reflexivity.
  exact (resolve_cached_module_invalid s json_plugin_url json_plugin_file
           [(json_plugin_url, sample_entry bytes)] (sample_entry bytes) entry bytes
           Hnew Hname eq_refl Hget Hentry Hread Hhash Hwasm).
Defined.

Lemma failed_download_leaves_nothing_witness :
  let s := sample_session [] (JObject []) no_network in
  ∃ e s',
    loadFormatterFromUrl json_plugin_url s = (Throw e, s')
    ∧ this s' = this s
    ∧ directories (world s') = directories (world s).
Proof.
  intros s.
  assert (Hnew : formatters (this s) !! json_plugin_url = None) by apply lookup_empty.
  assert (Hname : _urlToFileName json_plugin_url = Ok json_plugin_file)
    by (vm_compute; reflexivity).
  assert (Hfail : remote (world s) !! json_plugin_url = None
                  ∨ ∃ response, remote (world s) !! json_plugin_url = Some response
                                ∧ wasm_instantiable (body response) = false)
    by (left; apply lookup_empty).
  exact (failed_download_leaves_nothing s json_plugin_url json_plugin_file []
           Hnew Hname eq_refl eq_refl Hfail).
Defined.

Lemma failed_refresh_drops_entry_witness :
  let other := (mirror_plugin_url, sample_entry wasm_b) in
  let s := sample_session [] (JObject [(json_plugin_url, sample_entry wasm_a); other])
             no_network in
  ∃ s',
    loadFormatterFromUrl json_plugin_url s = (Throw NetworkError, s')
    ∧ lockObject (this s') = JObject [other]
    ∧ js_get (lockObject (this s')) json_plugin_url = Ok None
    ∧ js_get (lockObject (this s')) mirror_plugin_url = Ok (Some (sample_entry wasm_b))
    ∧ formatters (this s') = ∅
    ∧ directories (world s') = directories (world s).
Proof.
  intros other s.
  set (props := [(json_plugin_url, sample_entry wasm_a); other]).
  set (entry := {| fileName := json_plugin_file; sha512 := sample_digest wasm_a |}).
  assert (Hnew : formatters (this s) !! json_plugin_url = None) by apply lookup_empty.
  assert (Hname : _urlToFileName json_plugin_url = Ok json_plugin_file)
    by (vm_compute; reflexivity).
  assert (Hnd : NoDup (map fst props)) by (apply (bool_decide_unpack _); vm_compute; exact I).
  assert (Hget : assoc_get json_plugin_url props = Some (sample_entry wasm_a))
    by (vm_compute; reflexivity).
  assert (Hentry : as_lock_entry (Some (sample_entry wasm_a)) = Some entry)
    by (vm_compute; reflexivity).
  assert (Hread : read_file (directories (world s))
                    (resolve (cacheDir (this s)) (fileName entry))
                  = Throw (Deno NotFound)) by (vm_compute; reflexivity).
  assert (Hremote : remote (world s) !! json_plugin_url = None) by apply lookup_empty.
  destruct (failed_refresh_drops_entry s json_plugin_url json_plugin_file props
              (sample_entry wasm_a) entry Hnew Hname eq_refl Hnd Hget Hentry Hread Hremote)
    as (s' & Hload & Hlock & _ & Hgone & _ & Hformatters & Hdirs).
  exists s'. split; [exact Hload|].
  split; [rewrite Hlock; vm_compute; reflexivity|].
  split; [exact Hgone|].
  split; [rewrite Hlock; vm_compute; reflexivity|].
  split; [exact Hformatters | exact Hdirs].
Defined.

Lemma resolve_leaves_other_urls_witness :
  let s := sample_session [] (sample_manifest wasm_a) (sample_remote true) in
  let props := [(json_plugin_url, sample_entry wasm_a)] in
  let url := mirror_plugin_url in
  let other := json_plugin_url in
  ∃ props',
    lockObject (this (snd (loadFormatterFromUrl url s))) = JObject props'
    ∧ assoc_get other props' = assoc_get other props
    ∧ formatters (this (snd (loadFormatterFromUrl url s))) !! other
      = formatters (this s) !! other.
Proof.
  intros s props url other.
  assert (Hne : other ≠ url) by discriminate.
  exact (resolve_leaves_other_urls url other s props eq_refl Hne).
Defined.

Lemma resolved_url_is_recorded_witness :
  let s := sample_session [] (JObject []) (sample_remote true) in
  let s' := snd (loadFormatterFromUrl json_plugin_url s) in
  ∃ props' entry,
    lockObject (this s') = JObject props'
    ∧ as_lock_entry (assoc_get json_plugin_url props') = Some entry.
Proof.
  intros s s'.
  set (f := {| formatter_ref := 0; formatter_wasm := wasm_a |}).
  assert (Hnew : formatters (this s) !! json_plugin_url = None) by apply lookup_empty.
  assert (Hrun : fst (loadFormatterFromUrl json_plugin_url s) = Ok f)
    by (vm_compute; reflexivity).
  exact (resolved_url_is_recorded json_plugin_url s s' f [] eq_refl Hnew
           (run_result (loadFormatterFromUrl json_plugin_url) s (Ok f) Hrun)).
Defined.

Lemma next_run_hits_cache_witness :
  let s := sample_session [] (JObject []) (sample_remote true) in
  let url := json_plugin_url in
  let response := {| ok := true; body := wasm_a |} in
  ∃ f s1 s2 pluginManager w f' s3,
    loadFormatterFromUrl url s = (Ok f, s1)
    ∧ writeLockFile None s1 = (Ok tt, s2)
    ∧ new_DprintPluginManager (cacheDir (this s)) (world s2) = (Ok pluginManager, w)
    ∧ lockObject pluginManager = lockObject (this s1)
    ∧ loadFormatterFromUrl url {| world := w; this := pluginManager |} = (Ok f', s3)
    ∧ formatter_wasm f' = body response
    ∧ fetched (trace (world s3)) = fetched (trace (world s1)).
Proof.
  intros s url response.
  assert (Hnew : formatters (this s) !! url = None) by apply lookup_empty.
  assert (Hname : _urlToFileName url = Ok json_plugin_file) by (vm_compute; reflexivity).
  assert (Hremote : remote (world s) !! url = Some response) by (vm_compute; reflexivity).
  assert (Hwasm : wasm_instantiable (body response) = true) by reflexivity.
  assert (Hstore : can_store (directories (world s)) (cacheDir (this s)) json_plugin_file)
    by (apply sample_can_store; [reflexivity | reflexivity | constructor]).
  assert (Hstore_lock : can_store (directories (world s)) (cacheDir (this s)) LOCK_FILE_NAME)
    by (apply sample_can_store; [reflexivity | reflexivity | constructor]).
  assert (Hne : json_plugin_file ≠ LOCK_FILE_NAME) by discriminate.
  exact (next_run_hits_cache s url json_plugin_file [] response eq_refl lock_manifest_empty
           eq_refl Hnew Hname eq_refl Hremote Hwasm Hstore Hstore_lock Hne).
Defined.

Lemma reap_only_removes_witness :
  let before : gmap string node :=
    list_to_map [(json_plugin_file, File wasm_a); ("old.wasm", File wasm_b);
                 (LOCK_FILE_NAME, File [])] in
  let s := sample_session
             [(json_plugin_file, File wasm_a); ("old.wasm", File wasm_b);
              (LOCK_FILE_NAME, File [])]
             (sample_manifest wasm_a) no_network in
  let s' := snd (cleanCacheDir false s) in
  ∃ after,
    directories (world s') !! cacheDir (this s) = Some after
    ∧ this s' = this s
    ∧ after ⊆ before
    ∧ (false = false → after !! LOCK_FILE_NAME = before !! LOCK_FILE_NAME).
Proof.
  intros before s s'.
  assert (Hrun : fst (cleanCacheDir false s) = Ok tt) by (vm_compute; reflexivity).
  assert (Hdir : directories (world s) !! cacheDir (this s) = Some before)
    by exact (lookup_singleton_eq sample_dir before).
  subst s'.
  exact (reap_only_removes s (snd (cleanCacheDir false s)) false before
           (run_result (cleanCacheDir false) s (Ok tt) Hrun) Hdir).
Defined.

Lemma reap_twice_witness :
  let s := sample_session
             [(json_plugin_file, File wasm_a); ("old.wasm", File wasm_b)]
             (sample_manifest wasm_a) no_network in
  let s1 := snd (cleanCacheDir true s) in
  cleanCacheDir true s1
  = (Ok tt, {| world := record_event (EvReadDir (cacheDir (this s1))) (world s1);
               this := this s1 |}).
Proof.
  intros s s1.
  assert (Hrun : fst (cleanCacheDir true s) = Ok tt) by (vm_compute; reflexivity).
  subst s1.
  exact (reap_twice s (snd (cleanCacheDir true s)) true
           (run_result (cleanCacheDir true) s (Ok tt) Hrun)).
Defined.

Lemma reap_missing_directory_witness :
  let s := {| world := empty_world;
              this := {| cacheDir := sample_dir;
                         lockFilePath := resolve sample_dir LOCK_FILE_NAME;
                         lockObject := JObject [];
                         formatters := ∅ |} |} in
  cleanCacheDir false s
  = (Throw (Deno NotFound),
     {| world := record_event (EvReadDir (cacheDir (this s))) (world s); this := this s |}).
Proof.
  intros s.
  exact (reap_missing_directory s false lock_manifest_empty (no_cache_directory s eq_refl)).
Defined.

Lemma downloaded_survives_reap_witness :
  let s := sample_session [("old.wasm", File wasm_b)] (JObject []) (sample_remote true) in
  let response := {| ok := true; body := wasm_a |} in
  ∃ f s1 s2,
    loadFormatterFromUrl json_plugin_url s = (Ok f, s1)
    ∧ cleanCacheDir true s1 = (Ok tt, s2)
    ∧ read_file (directories (world s2)) (resolve (cacheDir (this s)) json_plugin_file)
      = Ok (body response).
Proof.
  intros s response.
  assert (Hnew : formatters (this s) !! json_plugin_url = None) by apply lookup_empty.
  assert (Hname : _urlToFileName json_plugin_url = Ok json_plugin_file)
    by (vm_compute; reflexivity).
  assert (Hremote : remote (world s) !! json_plugin_url = Some response)
    by (vm_compute; reflexivity).
  assert (Hwasm : wasm_instantiable (body response) = true) by reflexivity.
  assert (Hstore : can_store (directories (world s)) (cacheDir (this s)) json_plugin_file).
  { apply sample_can_store; [reflexivity | reflexivity |].
    constructor; [eexists; reflexivity | constructor]. }
  exact (downloaded_survives_reap s json_plugin_url json_plugin_file [] response true
           Hnew Hname eq_refl lock_manifest_empty eq_refl Hremote Hwasm Hstore).
Defined.

Lemma persist_touches_lock_file_only_witness :
  let s := sample_session [(json_plugin_file, File wasm_a)] (sample_manifest wasm_a)
             no_network in
  let r := @writeLockFile tidy_platform (Some json_formatter) s in
  let text := JSON_stringify (sample_manifest wasm_a) +:+ str1 LF in
  fst r = Ok tt
  ∧ this (snd r) = this s
  ∧ trace (world (snd r)) = [EvWriteFile (lockFilePath (this s)) (TextEncoder_encode text)]
  ∧ read_file (directories (world (snd r))) (lockFilePath (this s))
    = Ok (TextEncoder_encode text)
  ∧ read_file (directories (world (snd r))) (resolve sample_dir json_plugin_file)
    = Ok wasm_a.
Proof.
  intros s r text.
  assert (Hok : fst r = Ok tt) by (vm_compute; reflexivity).
  destruct (@persist_touches_lock_file_only tidy_platform s (Some json_formatter))
    as (Hthis & Hothers & [(f & _ & _ & Hthrow) | (text' & Htext & Htrace & Hfile)]).
  { fold r in Hthrow. rewrite Hthrow in Hok. discriminate Hok. }
  assert (Hsame : text' = text).
  { cbv [rendered] in Htext. vm_compute in Htext. injection Htext as <-.
    vm_compute. reflexivity. }
  subst text'. fold r in Hthis, Hothers, Htrace, Hfile.
  split; [exact Hok|]. split; [exact Hthis|].
  split; [exact Htrace|]. split; [exact (Hfile Hok)|].
  rewrite Hothers; [vm_compute; reflexivity|]. vm_compute. discriminate.
Defined.

Lemma persist_needs_directory_witness :
  let s := {| world := empty_world;
              this := {| cacheDir := sample_dir;
                         lockFilePath := resolve sample_dir LOCK_FILE_NAME;
                         lockObject := JObject [];
                         formatters := ∅ |} |} in
  ∃ s',
    writeLockFile None s = (Throw (Deno NotFound), s')
    ∧ directories (world s') = directories (world s)
    ∧ this s' = this s.
Proof.
  intros s.
  assert (Hnone : directories (world s) !! path_dir (lockFilePath (this s)) = None)
    by apply lookup_empty.
  exact (persist_needs_directory s Hnone).
Defined.

Lemma catalog_rejected_witness :
  let response := {| ok := true; body := TextEncoder_encode "{ [1, 2" |} in
  let s := sample_session [] (JObject []) {[ PLUGIN_INFOS_URL := response ]} in
  ∃ e s',
    getFormatters s = (Throw e, s')
    ∧ this s' = this s
    ∧ directories (world s') = directories (world s)
    ∧ trace (world s') = trace (world s) ++ [EvFetch PLUGIN_INFOS_URL].
Proof.
  intros response s.
  assert (Hbad : unusable_catalog (remote (world s))).
  { right. exists response. split; [apply lookup_singleton_eq|].
    right. left. vm_compute. reflexivity. }
  exact (catalog_rejected s Hbad).
Defined.

Lemma accepted_catalog_fields_witness :
  let catalog := sample_catalog in
  ∃ elems,
    js_get catalog "latest" = Ok (Some (JArray elems []))
    ∧ latest_plugins catalog = map plugin_info elems
    ∧ Forall
        (fun e =>
           js_get e "url" = Ok (Some (JString (pi_url (plugin_info e))))
           ∧ js_get e "configKey" = Ok (Some (JString (pi_configKey (plugin_info e))))
           ∧ js_get e "fileExtensions"
             = Ok (Some (JArray (map JString (pi_fileExtensions (plugin_info e))) [])))
        elems.
Proof.
  intros catalog.
  assert (Hparse : JSON_parse (JSON_stringify sample_catalog) = Some catalog)
    by (vm_compute; reflexivity).
  assert (Hvalid : isDprintPluginsInfo (Some catalog) = true) by (vm_compute; reflexivity).
  exact (accepted_catalog_fields (JSON_stringify sample_catalog) catalog Hparse Hvalid).
Defined.

Lemma no_extension_no_formatter_witness :
  getFormatterForFile
    (index_plugins [{| name := "json"; formatter := json_formatter;
                       fileExtensions := ["json"] |}])
    "/work/notes"
  = None.
Proof.
  assert (Hext : extname "/work/notes" = "") by (vm_compute; reflexivity).
  exact (no_extension_no_formatter
           [{| name := "json"; formatter := json_formatter; fileExtensions := ["json"] |}]
           "/work/notes" Hext).
Defined.

Lemma dry_run_changes_nothing_witness :
  let parsedArgs := sample_args true in
  let entries := fst (sample_walk sample_disk "/work" sample_dir) in
  let w := sample_world catalog_remote in
  let w' := snd (for_each (@format_entry tidy_platform sample_process parsedArgs sample_maps)
                   entries w) in
  directories w' = directories w
  ∧ continues read_only (trace w) (trace w')
  ∧ ∀ p, read_file (directories w') p = read_file (directories w) p.
Proof.
  intros parsedArgs entries w.
  exact (@dry_run_changes_nothing tidy_platform sample_process parsedArgs sample_maps
           entries w eq_refl).
Defined.

Lemma loop_survives_format_errors_witness :
  let parsedArgs := sample_args false in
  let broken := {| entry_path := resolve "/work" "broken.json"; isFile := true |} in
  let data := {| entry_path := resolve "/work" "data.json"; isFile := true |} in
  let cache := {| entry_path := resolve "/work" ".dprint-cache"; isFile := false |} in
  let w := {| directories :=
                {[ "/work" := {[ "broken.json" := File (TextEncoder_encode "!{");
                                 "data.json" := File (TextEncoder_encode "{ }") ]} ]};
              remote := no_network; trace := []; allocated := 0 |} in
  fst (for_each (@format_entry tidy_platform sample_process parsedArgs sample_maps)
         [broken; data; cache] w)
  = Ok tt.
Proof.
  intros parsedArgs broken data cache w.
  assert (Hbroken : read_file (directories w) (entry_path broken)
                    = Ok (TextEncoder_encode "!{")) by (vm_compute; reflexivity).
  assert (Hdata : read_file (directories w) (entry_path data)
                  = Ok (TextEncoder_encode "{ }")) by (vm_compute; reflexivity).
  assert (Haccess : ∀ entry, entry ∈ [broken; data; cache] →
            isFile entry = true →
            is_Some (getFormatterForFile sample_maps (path_string (entry_path entry))) →
            (∃ bytes, read_file (directories w) (entry_path entry) = Ok bytes)
            ∧ (dry_run parsedArgs = false →
               ∀ d, ∃ fs', write_file (directories w) (entry_path entry) d = Ok fs')).
  { intros entry Hin Hfile _.
    apply elem_of_cons in Hin as [->|Hin].
    { split; [eauto|]. intros _ d. eapply readable_is_writable. exact Hbroken. }
    apply elem_of_cons in Hin as [->|Hin].
    { split; [eauto|]. intros _ d. eapply readable_is_writable. exact Hdata. }
    apply list_elem_of_singleton in Hin as ->. discriminate Hfile. }
  exact (@loop_survives_format_errors tidy_platform sample_process parsedArgs sample_maps
           [broken; data; cache] w Haccess).
Defined.

Lemma formatted_file_is_rewritten_witness :
  let parsedArgs := sample_args false in
  let entry := {| entry_path := resolve "/work" "data.json"; isFile := true |} in
  let w := sample_world no_network in
  let bytes := TextEncoder_encode "{ }" in
  let out := "{ }" +:+ str1 LF in
  let p := entry_path entry in
  let rewritten := negb (dry_run parsedArgs) && negb (TextDecoder_decode bytes =? out)%string in
  ∃ w' logText,
    @format_entry tidy_platform sample_process parsedArgs sample_maps entry w = (Ok tt, w')
    ∧ trace w'
      = trace w ++ [EvReadFile p]
          ++ (if rewritten then [EvWriteFile p (TextEncoder_encode out)] else [])
          ++ [EvConsole log_level logText]
    ∧ read_file (directories w') p
      = Ok (if rewritten then TextEncoder_encode out else bytes)
    ∧ ∀ q, q ≠ p → read_file (directories w') q = read_file (directories w) q.
Proof.
  intros parsedArgs entry w bytes out.
  assert (Hparser : getFormatterForFile sample_maps (path_string (entry_path entry))
                    = Some json_formatter) by (vm_compute; reflexivity).
  assert (Hread : read_file (directories w) (entry_path entry) = Ok bytes)
    by (vm_compute; reflexivity).
  assert (Hout : @plugin_formatText tidy_platform (formatter_wasm json_formatter)
                   (path_string (entry_path entry)) (TextDecoder_decode bytes) = Some out)
    by (vm_compute; reflexivity).
  exact (@formatted_file_is_rewritten tidy_platform sample_process parsedArgs sample_maps
           entry w json_formatter bytes out eq_refl Hparser Hread Hout).
Defined.

Lemma main_stops_without_catalog_witness :
  let parsedArgs := sample_args false in
  let w := sample_world no_network in
  let lockFile := resolve (resolve_cwd ".dprint-cache") LOCK_FILE_NAME in
  ∃ e w',
    main parsedArgs w = (Throw e, w')
    ∧ directories w' = directories w
    ∧ fetched (trace w') = fetched (trace w) ++ [PLUGIN_INFOS_URL]
    ∧ continues (fun ev => ev = EvReadFile lockFile
                           ∨ ev = EvConsole error_level corrupted_message
                           ∨ ev = EvFetch PLUGIN_INFOS_URL)
        (trace w) (trace w').
Proof.
  intros parsedArgs w.
  assert (Hbad : unusable_catalog (remote w)) by (left; apply lookup_empty).
  exact (main_stops_without_catalog parsedArgs w eq_refl Hbad).
Defined.
